(** * proplot/subplots.py: grid layout, axis-sharing groups and draw order

    A shallow embedding of [src/proplot/subplots.py].  numpy integer arrays
    are lists of [Z] (2-D arrays are lists of rows), panel positions are
    [nat], Python exceptions are the constructors of [exn], and the calls
    issued to the figure (the drawing factory) are recorded in a call log
    that survives an exception. *)

From Stdlib Require Import ZArith Lia.
From stdpp Require Import base option list sorting gmap strings.

(** ** Python values, exceptions and the two monads *)

(** Python values that occur as per-panel properties, and dictionary keys. *)
Inductive pykey : Type :=
  | KInt (n : Z)                 (* 1 *)
  | KTuple (ns : list Z)         (* (2,3) *)
  | KRange (lo hi : Z)           (* range(lo,hi) *)
  | KStr (s : string).           (* 'prop' *)

#[warnings="-register-all"]
Inductive pyval : Type :=
  | VNone
  | VBool (b : bool)
  | VInt (n : Z)
  | VStr (s : string)
  | VDict (items : list (pykey * pyval)).

Inductive exn : Type :=
  | InvalidArrangement           (* ValueError, line 184 *)
  | MixedNesting                 (* ValueError('Wut.'), line 150 *)
  | InvalidPropertySpec (num_axes : nat) (value : pyval) (listed : list Z)
      (* ValueError, line 159: 'Have {num_axes} axes, but {value} only has
         properties for axes {listed}.' *)
  | OrderingViolation            (* ValueError, lines 340 and 346 *)
  | InternalConsistencyError     (* ValueError, line 373 *)
  | NoSuchMethod                 (* AttributeError, line 65 *)
  | MixedMethods                 (* AttributeError, line 79 *)
  | SliceStepZero                (* ValueError of list.__getitem__ *)
  | EmptySequence                (* ValueError of min(), max(), argmax() *)
  | AmbiguousTruthValue          (* ValueError of bool() on an array of two
                                    or more elements *)
  | AttributeError
  | TypeError
  | IndexError.

Inductive res (A : Type) : Type :=
  | Ok (a : A)
  | Raise (e : exn).
Arguments Ok {A} a.
Arguments Raise {A} e.

#[global] Instance res_ret : MRet res := @Ok.
#[global] Instance res_bind : MBind res :=
  λ A B f m, match m with Ok a => f a | Raise e => Raise e end.

(** [for x in l: s = body(s, x)], leaving at the first exception. *)
Fixpoint for_each {A S : Type} (l : list A) (body : S → A → res S) (s : S) : res S :=
  match l with
  | [] => Ok s
  | x :: l' => s' ← body s x; for_each l' body s'
  end.

(** ** Grid normaliser (lines 163-186) *)

(** A cell of the user's array: an integer or Python's [None]. *)
Abbreviation cell := (option Z) (only parsing).

Inductive arrangement : Type :=
  | NoArray                              (* array=None *)
  | Array1 (l : list cell)               (* ndim == 1 *)
  | Array2 (rows : list (list cell)).    (* ndim == 2 *)

Abbreviation grid := (list (list Z)).

(** [np.arange(1,nrows*ncols+1).reshape((nrows,ncols), order=order)] *)
Definition arange_grid (nrows ncols : nat) (rowmajor : bool) : list (list cell) :=
  (λ r, (λ c, Some (Z.of_nat (if rowmajor then r * ncols + c + 1
                               else c * nrows + r + 1))) <$> seq 0 ncols)
    <$> seq 0 nrows.

Definition as_2d (array : arrangement) (nrows ncols : nat) (rowmajor : bool)
  : list (list cell) :=
  match array with
  | NoArray => arange_grid nrows ncols rowmajor
  | Array1 l => if rowmajor then [l] else (λ c, [c]) <$> l
  | Array2 rows => rows
  end.

(** [array[array==None] = 0] *)
Definition none_to_zero (a : list (list cell)) : grid :=
  (λ row : list cell, default 0%Z <$> row) <$> a.

Definition shape0 (a : grid) : nat := length a.
Definition shape1 (a : grid) : nat := length (default [] (head a)).

(** numpy's index normalisation along an axis of size [n]. *)
Definition np_index (n : nat) (k : Z) : res nat :=
  if decide (0 ≤ k < Z.of_nat n)%Z then Ok (Z.to_nat k)
  else if decide (- Z.of_nat n ≤ k < 0)%Z then Ok (Z.to_nat (Z.of_nat n + k))
  else Raise IndexError.

(** [array[:,j] = 0] and [array[i,:] = 0] *)
Definition zero_col (a : grid) (j : nat) : grid :=
  (λ row : list Z, <[j := 0%Z]> row) <$> a.
Definition zero_row (a : grid) (i : nat) : grid :=
  alter (λ row : list Z, (λ _, 0%Z) <$> row) i a.

Definition blank_cols (emptycols : list Z) (a : grid) : res grid :=
  for_each emptycols (λ a col, j ← np_index (shape1 a) (col - 1); Ok (zero_col a j)) a.
Definition blank_rows (emptyrows : list Z) (a : grid) : res grid :=
  for_each emptyrows (λ a row, i ← np_index (shape0 a) (row - 1); Ok (zero_row a i)) a.

(** [np.unique] of a flat integer array: the sorted distinct values. *)
Fixpoint insert_sorted (x : Z) (l : list Z) : list Z :=
  match l with
  | [] => [x]
  | y :: l' =>
      if decide (x < y)%Z then x :: l
      else if decide (x = y) then l
      else y :: insert_sorted x l'
  end.
Definition np_unique (l : list Z) : list Z := foldr insert_sorted [] l.

(** [array[array!=0]] *)
Definition nonzero (a : grid) : list Z := filter (λ v, v ≠ 0%Z) (concat a).

(** Lines 181-184: the rule on the axes numbers. *)
Definition enforce_rule (a : grid) : res nat :=
  let nums := np_unique (nonzero a) in
  let num_axes := length nums in
  if decide (nums = seqZ 1 (Z.of_nat num_axes)) then Ok num_axes
  else Raise InvalidArrangement.

(** Lines 163-179: the grid that reaches the rule. *)
Definition prepare (array : arrangement) (nrows ncols : nat) (rowmajor : bool)
    (emptycols emptyrows : list Z) : res grid :=
  let a := none_to_zero (as_2d array nrows ncols rowmajor) in
  a ← blank_cols emptycols a;
  blank_rows emptyrows a.

(** Lines 163-184. *)
Definition normalize (array : arrangement) (nrows ncols : nat) (rowmajor : bool)
    (emptycols emptyrows : list Z) : res (grid * nat) :=
  a ← prepare array nrows ncols rowmajor emptycols emptyrows;
  num_axes ← enforce_rule a;
  Ok (a, num_axes).

(** The array with 0 written in place of every [None]. *)
Definition fill_none (array : arrangement) : arrangement :=
  match array with
  | NoArray => NoArray
  | Array1 l => Array1 ((λ c : cell, Some (default 0%Z c)) <$> l)
  | Array2 rows =>
      Array2 ((λ row : list cell, (λ c : cell, Some (default 0%Z c)) <$> row) <$> rows)
  end.

(** The values of a grid. *)
Definition positive_values_are (a : grid) (N : nat) : Prop :=
  ∀ v : Z, (v ∈ concat a ∧ 0 < v)%Z ↔ (1 ≤ v ≤ Z.of_nat N)%Z.
Definition nonzero_values_are (a : grid) (N : nat) : Prop :=
  ∀ v : Z, (v ∈ concat a ∧ v ≠ 0%Z) ↔ (1 ≤ v ≤ Z.of_nat N)%Z.

(** ** Extent calculator (lines 266-268) *)

(** [np.where(cond)[0]] on a 1-D array: the positions where [P] holds, in
    ascending order. *)
Fixpoint where_from {A : Type} (P : A → Prop) `{!∀ x, Decision (P x)}
    (k : nat) (l : list A) : list nat :=
  match l with
  | [] => []
  | x :: l' =>
      if decide (P x) then k :: where_from P (S k) l' else where_from P (S k) l'
  end.
Definition np_where {A : Type} (P : A → Prop) `{!∀ x, Decision (P x)}
    (l : list A) : list nat :=
  where_from P 0 l.

(** [np.where(array==i)] on a 2-D array: the (row, column) pairs of the
    matching cells in row-major order. *)
Definition where2 (a : grid) (i : Z) : list (nat * nat) :=
  concat (imap (λ r (row : list Z), (λ c, (r, c)) <$> np_where (λ v, v = i) row) a).

(** [.min()] and [.max()] of a numpy array; both raise on an empty one. *)
Definition np_min (l : list Z) : res Z :=
  match l with
  | [] => Raise EmptySequence
  | x :: l' => Ok (foldl Z.min x l')
  end.
Definition np_max (l : list Z) : res Z :=
  match l with
  | [] => Raise EmptySequence
  | x :: l' => Ok (foldl Z.max x l')
  end.

Fixpoint map_res {A B : Type} (f : A → res B) (l : list A) : res (list B) :=
  match l with
  | [] => Ok []
  | x :: l' => y ← f x; ys ← map_res f l'; Ok (y :: ys)
  end.

(** [[np.where(array==i) for i in np.unique(array) if i>0]] *)
Definition axes_ids (a : grid) : list (list (nat * nat)) :=
  where2 a <$> filter (λ i, (0 < i)%Z) (np_unique (concat a)).

(** One row [[idx.min(), idx.max()+1]] of the table, shifted by [offset]. *)
Definition extent (offset : Z) (idx : list nat) : res (Z * Z) :=
  lo ← np_min (Z.of_nat <$> idx);
  hi ← np_max (Z.of_nat <$> idx);
  Ok (offset + lo, offset + (hi + 1))%Z.

Definition yrange_of (row_offset : Z) (a : grid) : res (list (Z * Z)) :=
  map_res (λ xy : list (nat * nat), extent row_offset (fst <$> xy)) (axes_ids a).
Definition xrange_of (col_offset : Z) (a : grid) : res (list (Z * Z)) :=
  map_res (λ xy : list (nat * nat), extent col_offset (snd <$> xy)) (axes_ids a).

(** The value of the cell in row [r], column [c]. *)
Definition cell_at (a : grid) (r c : nat) : option Z :=
  row ← a !! r; row !! c.


(** Cell (r, c) lies in the box with row extent [ye] and column extent [xe]. *)
Definition in_box (ye xe : Z * Z) (row_offset col_offset : Z) (r c : nat) : Prop :=
  (ye.1 ≤ row_offset + Z.of_nat r < ye.2)%Z ∧
  (xe.1 ≤ col_offset + Z.of_nat c < xe.2)%Z.

(** The box of every panel holds no cell of another panel. *)
Definition boxes_exclude_other_ids (a : grid) (row_offset col_offset : Z) : Prop :=
  ∀ yrange xrange k ye xe r c v,
    yrange_of row_offset a = Ok yrange → xrange_of col_offset a = Ok xrange →
    yrange !! k = Some ye → xrange !! k = Some xe →
    cell_at a r c = Some v → (0 < v)%Z → v ≠ (Z.of_nat k + 1)%Z →
    ¬ in_box ye xe row_offset col_offset r c.

(** ** Calls on the figure and the monad that logs them *)

(** A handle is the position, in the call log, of the call that created it. *)
Abbreviation handle := nat (only parsing).

Inductive panel_name : Type := bottompanel | rightpanel | leftpanel.
Inductive panel_side : Type := bottom_side | right_side | left_side.

Inductive call : Type :=
  | NewFigure
      (* plt.figure(...), line 256 *)
  | CreateRegion (with_panels : bool) (number : nat) (rows cols : Z * Z)
                 (sharex sharey : option handle)
      (* fig.panel_factory / fig.add_subplot on gs[rows, cols] *)
  | SharexSetup (ax base : handle)          (* ax._sharex_setup(base) *)
  | ShareySetup (ax base : handle)          (* ax._sharey_setup(base) *)
  | AddPanel (side : panel_side) (span : Z * Z)
      (* fig.add_subplot(subspec, panel_side=side, projection='panel') *)
  | SetPanels (name : panel_name) (axsp : list handle).
      (* setattr(fig, name, axes_list(axsp)) *)

(** A computation that may raise and that appends to the call log; the
    log is kept when it raises. *)
Definition M (A : Type) : Type := list call → res A * list call.

#[global] Instance M_ret : MRet M := λ A a log, (Ok a, log).
#[global] Instance M_bind : MBind M :=
  λ A B f m log,
    match m log with
    | (Ok a, log') => f a log'
    | (Raise e, log') => (Raise e, log')
    end.

Definition lift {A : Type} (r : res A) : M A := λ log, (r, log).
Definition emit (c : call) : M handle := λ log, (Ok (length log), log ++ [c]).

Fixpoint for_eachM {A S : Type} (l : list A) (body : S → A → M S) (s : S) : M S :=
  match l with
  | [] => mret s
  | x :: l' => s' ← body s x; for_eachM l' body s'
  end.

(** [l[i]] for [i] from [range] or [np.where]: never negative. *)
Definition getitem_nat {A : Type} (l : list A) (i : nat) : res A :=
  match l !! i with
  | Some x => Ok x
  | None => Raise IndexError
  end.

(** ** Axis-sharing grouper (lines 276-299) *)

(** [np.argmax] and [np.argmin]: the first position of the extreme value. *)
Fixpoint argmax_from (best : Z) (besti k : nat) (l : list Z) : nat :=
  match l with
  | [] => besti
  | x :: l' =>
      if decide (best < x)%Z then argmax_from x k (S k) l'
      else argmax_from best besti (S k) l'
  end.
Definition np_argmax (l : list Z) : res nat :=
  match l with
  | [] => Raise EmptySequence
  | x :: l' => Ok (argmax_from x 0 1 l')
  end.

Fixpoint argmin_from (best : Z) (besti k : nat) (l : list Z) : nat :=
  match l with
  | [] => besti
  | x :: l' =>
      if decide (x < best)%Z then argmin_from x k (S k) l'
      else argmin_from best besti (S k) l'
  end.
Definition np_argmin (l : list Z) : res nat :=
  match l with
  | [] => Raise EmptySequence
  | x :: l' => Ok (argmin_from x 0 1 l')
  end.

(** [np.argsort]: the positions in ascending order of their values.  Here
    equal values keep their order of position; numpy's default kind
    promises no order among them, and no statement below depends on it. *)
Fixpoint insert_by_key (p : Z * nat) (l : list (Z * nat)) : list (Z * nat) :=
  match l with
  | [] => [p]
  | q :: l' =>
      if decide (p.1 ≤ q.1)%Z then p :: l else q :: insert_by_key p l'
  end.
Definition np_argsort (l : list Z) : list nat :=
  snd <$> foldr insert_by_key [] (zip l (seq 0 (length l))).

(** [a[idx]] with an array of positions. *)
Definition take_at {A : Type} (a : list A) (idx : list nat) : res (list A) :=
  map_res (getitem_nat a) idx.

(** The four lists that one grouping loop builds. *)
Record grouping : Type := Grouping {
  groups : list (list nat);        (* xgroups / ygroups *)
  groups_base : list nat;          (* xgroups_base / ygroups_base *)
  groups_sorted : list (list nat); (* xgroups_sorted / ygroups_sorted *)
  grouped : list nat               (* bookkeeping *)
}.

Definition no_groups : grouping := Grouping [] [] [] [].

(** One pass of the loop body for panel [i].  [ext] is the table whose rows
    are compared, [keys] the column that ranks the members of a group,
    [pick] chooses the base and [order] the sorted order. *)
Definition group_step (ext : list (Z * Z)) (keys : list Z)
    (pick : list Z → res nat) (order : list Z → list nat)
    (st : grouping) (i : nat) : res grouping :=
  e ← getitem_nat ext i;
  let matching_axes := np_where (λ e', e' = e) ext in
  st' ← (if decide ((i ∉ grouped st) ∧ 1 < length matching_axes) then
           ks ← take_at keys matching_axes;
           k ← pick ks;
           b ← getitem_nat matching_axes k;
           srt ← take_at matching_axes (order ks);
           Ok (Grouping (groups st ++ [matching_axes]) (groups_base st ++ [b])
                        (groups_sorted st ++ [srt]) (grouped st))
         else Ok st);
  Ok (Grouping (groups st') (groups_base st') (groups_sorted st')
               (grouped st' ++ matching_axes)).

Definition group_loop (num_axes : nat) (ext : list (Z * Z)) (keys : list Z)
    (pick : list Z → res nat) (order : list Z → list nat) : res grouping :=
  for_each (seq 0 num_axes) (group_step ext keys pick order) no_groups.

(** Lines 276-289: x-groups share the column extent; the base is the member
    with the largest upper row bound, and the sorted order is by that bound,
    descending. *)
Definition xgroups_of (sharex : bool) (num_axes : nat) (xrange yrange : list (Z * Z))
  : res grouping :=
  if sharex then
    group_loop num_axes xrange (snd <$> yrange) np_argmax (λ ks, reverse (np_argsort ks))
  else Ok no_groups.

(** Lines 290-299: y-groups share the row extent; the base is the member
    with the smallest lower column bound, and the sorted order is by that
    bound, ascending. *)
Definition ygroups_of (sharey : bool) (num_axes : nat) (xrange yrange : list (Z * Z))
  : res grouping :=
  if sharey then
    group_loop num_axes yrange (fst <$> xrange) np_argmin np_argsort
  else Ok no_groups.

(** ** Draw orchestrator (lines 310-366) *)

(** [axs]: one slot per panel, [None] until the panel is drawn. *)
Abbreviation slots := (list (option handle)).

Section draw.
Variables (sharex sharey : bool) (num_axes : nat).
Variables (xrange yrange : list (Z * Z)).
Variables (xg yg : grouping).
(** Whether [innerpanels_kw[i]['whichpanels']] is non-empty. *)
Variable whichpanels : nat → bool.

(** Lines 311-315. *)
Definition allgroups_base : list nat :=
  (if sharex then groups_base xg else []) ++ (if sharey then groups_base yg else []).

(** The factory call for panel [i] on the grid rectangle of its two extents. *)
Definition create_region (i : nat) (sharex_ax sharey_ax : option handle) : M handle :=
  ye ← lift (getitem_nat yrange i);
  xe ← lift (getitem_nat xrange i);
  emit (CreateRegion (whichpanels i) (i + 1) ye xe sharex_ax sharey_ax).

(** Lines 316-327: the body of the loop over the base axes. *)
Definition base_step (axs : slots) (i : nat) : M slots :=
  ax ← lift (getitem_nat axs i);
  match ax with
  | Some _ => mret axs                                   (* already created *)
  | None => h ← create_region i None None; mret (<[i := Some h]> axs)
  end.

(** Lines 336-340 and 342-346: the axes to share with, if any. *)
Definition find_share (enabled : bool) (g : grouping) (axs : slots) (i : nat)
  : res (option handle) :=
  if enabled then
    let igroup := np_where (λ grp : list nat, i ∈ grp) (groups g) in
    if decide (length igroup = 1) then
      k ← getitem_nat igroup 0;
      b ← getitem_nat (groups_base g) k;
      share_ax ← getitem_nat axs b;
      match share_ax with
      | None => Raise OrderingViolation
      | Some h => Ok (Some h)
      end
    else Ok None
  else Ok None.

(** Lines 353-356: wire an axes that is drawn already to another one. *)
Definition adopt (setup : handle → handle → call) (ax : handle)
    (share_ax : option handle) : M unit :=
  match share_ax with
  | Some s => if decide (ax ≠ s) then _ ← emit (setup ax s); mret () else mret ()
  | None => mret ()
  end.

(** Lines 330-366: the body of the loop over all axes. *)
Definition dependent_step (axs : slots) (i : nat) : M slots :=
  sharex_ax ← lift (find_share sharex xg axs i);
  sharey_ax ← lift (find_share sharey yg axs i);
  ax ← lift (getitem_nat axs i);
  match ax with
  | Some h =>
      _ ← adopt SharexSetup h sharex_ax;
      _ ← adopt ShareySetup h sharey_ax;
      mret axs
  | None =>
      h ← create_region i sharex_ax sharey_ax;
      mret (<[i := Some h]> axs)
  end.

Definition draw_bases (axs : slots) : M slots :=
  for_eachM allgroups_base base_step axs.
Definition draw_dependents (axs : slots) : M slots :=
  for_eachM (seq 0 num_axes) dependent_step axs.

(** Lines 310-366. *)
Definition draw : M slots :=
  axs ← draw_bases (replicate num_axes None);
  draw_dependents axs.
End draw.

(** ** The check after drawing (lines 370-373) *)

(** [ax == m] for an axes object (or [None]) and an integer of a group: the
    axes classes define no [__eq__], so this is never true. *)
Definition axes_eq_int (ax : option handle) (m : nat) : bool := false.

(** [ax in group] on a numpy array: [(group == ax).any()]. *)
Definition axes_in_group (ax : option handle) (group : list nat) : bool :=
  existsb (axes_eq_int ax) group.

(** [sum(ax in group for group in xgroups)] *)
Definition count_groups (ax : option handle) (grps : list (list nat)) : nat :=
  length (filter (λ grp, axes_in_group ax grp = true) grps).

(** The inner loop names [groups] but tests [xgroups] in both rounds. *)
Definition check_groups (axs : slots) (xgroups ygroups : list (list nat)) : res unit :=
  for_each axs (λ _ ax,
    for_each [xgroups; ygroups] (λ _ grps,
      if decide (1 < count_groups ax xgroups) then Raise InternalConsistencyError
      else Ok ()) ()) ().


(** ** Panel-strip allocator (lines 378-398) *)

(** The side is the name without its suffix [panel] (the [re.sub] of line
    382), on the three names in use. *)
Definition side_of (name : panel_name) : panel_side :=
  match name with
  | bottompanel => bottom_side
  | rightpanel => right_side
  | leftpanel => left_side
  end.

Definition strip_offset (side : panel_side) (row_offset col_offset : Z) : Z :=
  match side with
  | left_side | right_side => row_offset
  | bottom_side => col_offset
  end.

Definition strip_span (offset : Z) (panels : list Z) (n : Z) : res (Z * Z) :=
  extent offset (np_where (λ v, v = n) panels).

Definition paneladd (row_offset col_offset : Z) (name : panel_name) (panels : list Z)
  : M unit :=
  match panels with
  | [] => mret ()                                            (* if not panels: return *)
  | _ =>
      let side := side_of name in
      axsp ← for_eachM (np_unique panels) (λ axsp n,
                let offset := strip_offset side row_offset col_offset in
                idx ← lift (strip_span offset panels n);
                axp ← emit (AddPanel side idx);
                mret (axsp ++ [axp])) [];
      _ ← emit (SetPanels name axsp);
      mret ()
  end.

(** The spans of the strips requested in a log. *)
Definition strips (log : list call) : list (Z * Z) :=
  omap (λ c, match c with AddPanel _ span => Some span | _ => None end) log.

(** ** Per-panel property resolver (lines 137-160) *)

(** [np.atleast_1d(nums).flat] for a dictionary key; a string key fails at
    [num-1]. *)
Definition key_ids (k : pykey) : res (list Z) :=
  match k with
  | KInt n => Ok [n]
  | KTuple ns => Ok ns
  | KRange lo hi => Ok (seqZ lo (hi - lo))
  | KStr _ => Raise TypeError
  end.

Definition is_dict (v : pyval) : bool :=
  match v with VDict _ => true | _ => false end.

(** [range(1,num_axes+1)] *)
Definition all_axes (num_axes : nat) : pykey := KRange 1 (Z.of_nat num_axes + 1).

(** Lines 141-150: the dictionary that is unfurled. *)
Definition as_mapping (num_axes : nat) (value : pyval) (kw : bool) : res pyval :=
  if negb kw then
    if is_dict value then Ok value else Ok (VDict [(all_axes num_axes, value)])
  else
    match value with
    | VDict items =>
        let nested := (λ kv : pykey * pyval, is_dict kv.2) <$> items in
        if negb (existsb id nested) then Ok (VDict [(all_axes num_axes, value)])
        else if negb (forallb id nested) then Raise MixedNesting
        else Ok value
    | _ => Raise AttributeError
    end.

(** Lines 152-156: [kw_out[num-1] = item] for every number of every key. *)
Definition unfurl (items : list (pykey * pyval)) : res (gmap Z pyval) :=
  for_each items (λ (kw_out : gmap Z pyval) (kv : pykey * pyval),
    nums ← key_ids kv.1;
    Ok (foldl (λ (m : gmap Z pyval) num, <[(num - 1)%Z := kv.2]> m) kw_out nums)) ∅.

(** The numbers listed by the message of line 159. *)
Definition listed_axes (kw_out : gmap Z pyval) : list Z :=
  (λ i, (i + 1)%Z) <$> merge_sort Z.le (elements (dom kw_out)).

Definition axes_dict (num_axes : nat) (value : pyval) (kw : bool)
  : res (gmap Z pyval) :=
  value ← as_mapping num_axes value kw;
  match value with
  | VDict items =>
      kw_out ← unfurl items;
      if decide (dom kw_out = list_to_set (seqZ 0 (Z.of_nat num_axes))) then Ok kw_out
      else Raise (InvalidPropertySpec num_axes value (listed_axes kw_out))
  | _ => Raise AttributeError
  end.

(** The panel numbers that an exception names. *)
Definition names_axis (e : exn) (id : Z) : Prop :=
  match e with
  | InvalidPropertySpec _ _ listed => id ∈ listed
  | _ => False
  end.

(** ** The whole of [subplots] *)

(** What lines 192-254 hand to the rest of the function.  Their inputs
    (the projection factory, the configuration registry and the geometry
    solver) are not part of this file, so the result is a parameter. *)
Record resolved : Type := Resolved {
  row_offset : Z;
  col_offset : Z;
  whichpanels : nat → bool;
  bottompanels : list Z;
  rightpanels : list Z;
  leftpanels : list Z
}.

Definition subplots (array : arrangement) (nrows ncols : nat) (rowmajor : bool)
    (emptycols emptyrows : list Z) (sharex sharey : bool)
    (resolve : grid → nat → res resolved) : M slots :=
  an ← lift (normalize array nrows ncols rowmajor emptycols emptyrows);
  cfg ← lift (resolve an.1 an.2);
  _ ← emit NewFigure;
  yrange ← lift (yrange_of (row_offset cfg) an.1);
  xrange ← lift (xrange_of (col_offset cfg) an.1);
  xg ← lift (xgroups_of sharex an.2 xrange yrange);
  yg ← lift (ygroups_of sharey an.2 xrange yrange);
  axs ← draw sharex sharey an.2 xrange yrange xg yg (whichpanels cfg);
  _ ← lift (check_groups axs (groups xg) (groups yg));
  _ ← paneladd (row_offset cfg) (col_offset cfg) bottompanel (bottompanels cfg);
  _ ← paneladd (row_offset cfg) (col_offset cfg) rightpanel (rightpanels cfg);
  _ ← paneladd (row_offset cfg) (col_offset cfg) leftpanel (leftpanels cfg);
  mret axs.

(** ** The collection of handles, [axes_list] (lines 44-79) *)

Module axes_list.

(** What indexing can return. *)
Inductive item (A : Type) : Type :=
  | Element (ax : A)              (* one of the members *)
  | PlainList (axs : list A)      (* a Python list *)
  | AxesList (axs : list A).      (* an axes_list *)
Arguments Element {A} ax.
Arguments PlainList {A} axs.
Arguments AxesList {A} axs.

Inductive index : Type :=
  | IInt (i : Z)
  | ISlice (start stop step : option Z).

(** The bounds of a slice on a sequence of length [len], as CPython
    adjusts them. *)
Definition adjust (len step : Z) (i : option Z) (if_absent : Z) : Z :=
  match i with
  | None => if_absent
  | Some i =>
      if decide (i < 0)%Z then
        if decide (i + len < 0)%Z then (if decide (step < 0)%Z then -1 else 0)%Z
        else (i + len)%Z
      else if decide (len ≤ i)%Z then (if decide (step < 0)%Z then len - 1 else len)%Z
      else i
  end.

Definition slice_length (start stop step : Z) : Z :=
  if decide (step < 0)%Z then
    if decide (stop < start)%Z then ((start - stop - 1) / (- step) + 1)%Z else 0%Z
  else
    if decide (start < stop)%Z then ((stop - start - 1) / step + 1)%Z else 0%Z.

Definition slice_positions (len : Z) (start stop step : option Z) : res (list Z) :=
  let step := default 1%Z step in
  if decide (step = 0%Z) then Raise SliceStepZero
  else
    let start := adjust len step start (if decide (step < 0)%Z then len - 1 else 0)%Z in
    let stop := adjust len step stop (if decide (step < 0)%Z then -1 else len)%Z in
    Ok ((λ k, start + k * step)%Z <$> seqZ 0 (slice_length start stop step)).

(** [list.__getitem__(self, key)] *)
Definition list_getitem {A : Type} (self : list A) (key : index) : res (item A) :=
  match key with
  | IInt i =>
      let len := Z.of_nat (length self) in
      let i := if decide (i < 0)%Z then (i + len)%Z else i in
      if decide (0 ≤ i)%Z then
        match self !! Z.to_nat i with
        | Some ax => Ok (Element ax)
        | None => Raise IndexError
        end
      else Raise IndexError
  | ISlice start stop step =>
      ps ← slice_positions (Z.of_nat (length self)) start stop step;
      Ok (PlainList (omap (λ p, self !! Z.to_nat p) ps))
  end.

(** Lines 53-58. *)
Definition getitem {A : Type} (self : list A) (key : index) : res (item A) :=
  axs ← list_getitem self key;
  match key, axs with
  | ISlice _ _ _, PlainList l => Ok (AxesList l)
  | _, _ => Ok axs
  end.

Section broadcast.
(** Arguments and results of methods, and the state they act on. *)
Variables (Args Val World : Type).

(** A call of a method: it may raise, returns a value or [None], and
    changes the state. *)
Definition method : Type := Args → World → res (option Val) * World.

(** [getattr(ax, attr, None)].  A value that is not callable comes with the
    outcome of [bool(value == None)]: false for most objects, an exception
    for a numpy array of two or more elements, whose comparison has no
    truth value. *)
Inductive attribute : Type :=
  | AttrNone
  | AttrCallable (f : method)
  | AttrData (v : Val) (equals_none : res bool).

(** An axes object, as far as attribute access sees it. *)
Definition axes : Type := string → attribute.

Definition callable (v : attribute) : bool :=
  match v with AttrCallable _ => true | _ => false end.

(** One step of [None in values]: the identity test, then [value == None]
    as a truth value. *)
Definition eq_none (v : attribute) : res bool :=
  match v with
  | AttrNone => Ok true
  | AttrCallable _ => Ok false
  | AttrData _ equals_none => equals_none
  end.

(** [None in values] (line 64): the values are compared one after the
    other, up to the first that equals None or whose comparison raises. *)
Fixpoint contains_none (values : list attribute) : res bool :=
  match values with
  | [] => Ok false
  | v :: values' =>
      b ← eq_none v;
      if b : bool then Ok true else contains_none values'
  end.

(** What a broadcast hands back. *)
Inductive result : Type :=
  | RNone
  | ROne (v : Val)
  | RMany (vs : list Val).

(** Line 74. *)
Definition unwrap (ret : list Val) : result :=
  match ret with
  | [] => RNone
  | [v] => ROne v
  | _ => RMany ret
  end.

(** Lines 70-73: the loop of [iterator]. *)
Fixpoint iterate (self : list axes) (attr : string) (args : Args)
    (ret : list Val) (w : World) : res (list Val) * World :=
  match self with
  | [] => (Ok ret, w)
  | ax :: self' =>
      match ax attr with
      | AttrCallable f =>
          match f args w with
          | (Ok (Some res), w') => iterate self' attr args (ret ++ [res]) w'
          | (Ok None, w') => iterate self' attr args ret w'
          | (Raise e, w') => (Raise e, w')
          end
      | _ => (Raise TypeError, w)
      end
  end.

(** Lines 68-74. *)
Definition iterator (self : list axes) (attr : string) (args : Args) (w : World)
  : res result * World :=
  match iterate self attr args [] w with
  | (Ok ret, w') => (Ok (unwrap ret), w')
  | (Raise e, w') => (Raise e, w')
  end.

Definition data_of (v : attribute) : option Val :=
  match v with AttrData d _ => Some d | _ => None end.

Inductive looked_up : Type :=
  | Broadcast (call : Args → World → res result * World)
  | Value (v : Val)
  | Values (vs : list Val).

(** Lines 60-79. *)
Definition getattr (self : list axes) (attr : string) : res looked_up :=
  let values := (λ ax : axes, ax attr) <$> self in
  missing ← contains_none values;
  if missing : bool then Raise NoSuchMethod
  else if forallb callable values then
    match values with
    | [] => Raise IndexError                       (* wraps(values[0]) *)
    | _ => Ok (Broadcast (iterator self attr))
    end
  else if forallb (λ v, negb (callable v)) values then
    match omap data_of values with
    | [v] => Ok (Value v)
    | vs => Ok (Values vs)
    end
  else Raise MixedMethods.

(** The calls of one method on the members, one after the other. *)
Inductive fanned_out (attr : string) (args : Args)
  : list axes → World → list (option Val) → World → Prop :=
  | fanned_nil w : fanned_out attr args [] w [] w
  | fanned_cons ax self f w res w' ress w'' :
      ax attr = AttrCallable f →
      f args w = (Ok res, w') →
      fanned_out attr args self w' ress w'' →
      fanned_out attr args (ax :: self) w (res :: ress) w''.
End broadcast.

Arguments AttrNone {Args Val World}.
Arguments AttrCallable {Args Val World} f.
Arguments AttrData {Args Val World} v equals_none.
Arguments RNone {Val}.
Arguments ROne {Val} v.
Arguments RMany {Val} vs.
Arguments Broadcast {Args Val World} call.
Arguments Value {Args Val World} v.
Arguments Values {Args Val World} vs.
Arguments callable {Args Val World} v.
Arguments eq_none {Args Val World} v.
Arguments contains_none {Args Val World} values.
Arguments unwrap {Val} ret.
Arguments iterate {Args Val World} self attr args ret w.
Arguments iterator {Args Val World} self attr args w.
Arguments getattr {Args Val World} self attr.
Arguments fanned_out {Args Val World} attr args _ _ _ _.

End axes_list.

(** The entry that a mapping gives to panel [id]: the value of the last key
    that holds [id]. *)
Definition holds (k : pykey) (id : Z) : Prop :=
  match key_ids k with
  | Ok ids => id ∈ ids
  | Raise _ => False
  end.

#[global] Instance holds_dec k id : Decision (holds k id).
Proof. unfold holds. destruct (key_ids k); apply _. Defined.

Fixpoint entry_for (items : list (pykey * pyval)) (id : Z) : option pyval :=
  match items with
  | [] => None
  | kv :: rest =>
      match entry_for rest id with
      | Some v => Some v
      | None => if decide (holds kv.1 id) then Some kv.2 else None
      end
  end.

Definition numeric_key (k : pykey) : Prop :=
  match k with KStr _ => False | _ => True end.

(** [span] is the half-open hull, shifted by [offset], of the positions of
    [panels] that bear the label [n]. *)
Definition is_strip_span (offset : Z) (panels : list Z) (n : Z) (span : Z * Z) : Prop :=
  ∃ lo hi : nat,
    span = (offset + Z.of_nat lo, offset + (Z.of_nat hi + 1))%Z ∧
    panels !! lo = Some n ∧ panels !! hi = Some n ∧
    ∀ j, panels !! j = Some n → lo ≤ j ≤ hi.

(** An axes object for the examples: [plot] is a method that appends the
    name of the axes to the state and returns [res]; [number] is a field. *)
Definition example_axes (name : string) (res : option nat)
  : axes_list.axes unit nat (list string) :=
  λ attr,
    if decide (attr = "plot") then
      axes_list.AttrCallable (λ _ w, (Ok res, w ++ [name]))
    else if decide (attr = "number") then axes_list.AttrData 7 (Ok false)
    else axes_list.AttrNone.

(** ** What the grouping loop maintains *)

(** A recorded group [g] with base [b] and sorted order [srt]: the panels
    with one extent [e], more than one of them, in ascending order; [b] is
    the member that [pick] chooses among the keys of the members. *)
Definition group_record (ext : list (Z * Z)) (keys : list Z)
    (pick : list Z → res nat) (order : list Z → list nat)
    (g : list nat) (b : nat) (srt : list nat) : Prop :=
  ∃ e ks k,
    g = np_where (λ e', e' = e) ext ∧ 1 < length g ∧
    take_at keys g = Ok ks ∧ pick ks = Ok k ∧ g !! k = Some b ∧
    take_at g (order ks) = Ok srt.

(** The state of the loop before panel [i] is handled. *)
Definition grouping_inv (ext : list (Z * Z)) (keys : list Z)
    (pick : list Z → res nat) (order : list Z → list nat)
    (i : nat) (st : grouping) : Prop :=
  (∀ j, j ∈ grouped st ↔ ∃ i' e, i' < i ∧ ext !! i' = Some e ∧ ext !! j = Some e) ∧
  Forall3 (group_record ext keys pick order)
          (groups st) (groups_base st) (groups_sorted st) ∧
  (∀ g j, g ∈ groups st → j ∈ g → j ∈ grouped st) ∧
  (∀ k1 k2 g1 g2 j,
     groups st !! k1 = Some g1 → groups st !! k2 = Some g2 →
     j ∈ g1 → j ∈ g2 → k1 = k2) ∧
  (∀ i' e, i' < i → ext !! i' = Some e →
           1 < length (np_where (λ e', e' = e) ext) →
           np_where (λ e', e' = e) ext ∈ groups st).

(** The upper row bound and the lower column bound of panel [j]. *)
Definition upper_row (yrange : list (Z * Z)) (j : nat) : option Z :=
  (snd <$> yrange) !! j.
Definition lower_col (xrange : list (Z * Z)) (j : nat) : option Z :=
  (fst <$> xrange) !! j.

(** A sharing group on the axis with extent table [ext]: more than one
    panel, in ascending order, and exactly the panels of one extent. *)
Definition recorded_group (ext : list (Z * Z)) (g : list nat) : Prop :=
  1 < length g ∧ StronglySorted lt g ∧ ∃ e, ∀ j, j ∈ g ↔ ext !! j = Some e.

(** [b] is the member of [g] with the largest upper row bound, the first
    such member in id order. *)
Definition bottom_most (yrange : list (Z * Z)) (g : list nat) (b : nat) : Prop :=
  b ∈ g ∧
  ∃ ub, upper_row yrange b = Some ub ∧
        ∀ j uj, j ∈ g → upper_row yrange j = Some uj →
                (uj ≤ ub)%Z ∧ (uj = ub → b ≤ j).

(** [b] is the member of [g] with the smallest lower column bound, the
    first such member in id order. *)
Definition left_most (xrange : list (Z * Z)) (g : list nat) (b : nat) : Prop :=
  b ∈ g ∧
  ∃ lb, lower_col xrange b = Some lb ∧
        ∀ j lj, j ∈ g → lower_col xrange j = Some lj →
                (lb ≤ lj)%Z ∧ (lj = lb → b ≤ j).

(** The order of two (key, position) pairs in [np_argsort]. *)
Definition key_le (p q : Z * nat) : Prop := (p.1 ≤ q.1)%Z.

(** [srt] lists the same panels as [g], and the keys of its members never
    go against [le] from front to back. *)
Definition sorted_members (le : Z → Z → Prop) (keys : list Z)
    (g srt : list nat) : Prop :=
  srt ≡ₚ g ∧
  ∀ p q i j ki kj,
    p ≤ q → srt !! p = Some i → srt !! q = Some j →
    keys !! i = Some ki → keys !! j = Some kj → le ki kj.

(** No group holds a panel whose extent no other panel has. *)
Definition singletons_unrecorded (ext : list (Z * Z)) (grps : list (list nat)) : Prop :=
  ∀ i e, ext !! i = Some e → (∀ j, ext !! j = Some e → j = i) →
         ∀ g, g ∈ grps → i ∉ g.

(** No panel is in two groups. *)
Definition pairwise_disjoint (grps : list (list nat)) : Prop :=
  ∀ k1 k2 g1 g2 j,
    grps !! k1 = Some g1 → grps !! k2 = Some g2 → j ∈ g1 → j ∈ g2 → k1 = k2.

(** ** What the two passes of the draw orchestrator do, call by call *)

(** The base that panel [i] shares with on an axis: the base of the group
    that holds [i], if sharing is enabled and there is such a group. *)
Definition share_base (enabled : bool) (g : grouping) (i : nat) : option nat :=
  if enabled then
    k ← head (np_where (λ grp : list nat, i ∈ grp) (groups g));
    groups_base g !! k
  else None.

(** The handle in slot [i], if panel [i] is drawn. *)
Definition handle_of (axs : slots) (i : nat) : option handle := ax ← axs !! i; ax.

(** Every panel that is drawn in [axs] has the same handle in [axs']. *)
Definition extends (axs axs' : slots) : Prop :=
  ∀ j h, handle_of axs j = Some h → handle_of axs' j = Some h.

Section draw_spec.
Variables (sharex sharey : bool) (num_axes : nat).
Variables (xrange yrange : list (Z * Z)).
Variables (xg yg : grouping).
Variable whichpanels : nat → bool.

(** The factory call that creates panel [i]. *)
Definition region_call (i : nat) (sharex_ax sharey_ax : option handle) : option call :=
  ye ← yrange !! i;
  xe ← xrange !! i;
  Some (CreateRegion (whichpanels i) (i + 1) ye xe sharex_ax sharey_ax).

(** A call of the first pass: a base is created, wired to nothing. *)
Definition first_pass_call (c : call) : Prop :=
  ∃ b, b ∈ allgroups_base sharex sharey xg yg ∧ region_call b None None = Some c.

(** The call that wires the drawn panel [i] to the base [base], unless the
    base is the panel itself. *)
Definition adoption (setup : handle → handle → call) (axs : slots) (i : nat)
    (base : option nat) : list call :=
  match base with
  | Some b =>
      if decide (b = i) then []
      else match handle_of axs i, handle_of axs b with
           | Some h, Some s => [setup h s]
           | _, _ => []
           end
  | None => []
  end.

(** The calls of the second pass for panel [i], with the handles of [axs]. *)
Definition second_pass_calls (axs : slots) (i : nat) : list call :=
  let xb := share_base sharex xg i in
  let yb := share_base sharey yg i in
  if decide (i ∈ allgroups_base sharex sharey xg yg) then
    adoption SharexSetup axs i xb ++ adoption ShareySetup axs i yb
  else
    option_list (region_call i (xb ≫= handle_of axs) (yb ≫= handle_of axs)).
End draw_spec.

(** The groups and bases of a grouping fit [num_axes] panels. *)
Definition groups_wf (num_axes : nat) (g : grouping) : Prop :=
  pairwise_disjoint (groups g) ∧
  Forall2 (λ (grp : list nat) b, b ∈ grp) (groups g) (groups_base g) ∧
  Forall (Forall (λ j, j < num_axes)) (groups g).

(** The state of the first pass. *)
Definition first_pass_inv (sharex sharey : bool) (num_axes : nat)
    (xrange yrange : list (Z * Z)) (xg yg : grouping) (whichpanels : nat → bool)
    (start : nat) (axs : slots) (log : list call) : Prop :=
  length axs = num_axes ∧
  (∀ j h, handle_of axs j = Some h →
          h < length log ∧ j ∈ allgroups_base sharex sharey xg yg ∧
          log !! h = region_call xrange yrange whichpanels j None None) ∧
  (∀ j j' h, handle_of axs j = Some h → handle_of axs j' = Some h → j = j') ∧
  (∀ p, start ≤ p < length log → ∃ j, handle_of axs j = Some p).

(** The state of the second pass before panel [i] is handled. *)
Definition second_pass_inv (sharex sharey : bool) (num_axes : nat)
    (xrange yrange : list (Z * Z)) (xg yg : grouping) (whichpanels : nat → bool)
    (i : nat) (axs : slots) (log : list call) : Prop :=
  length axs = num_axes ∧
  (∀ j h, handle_of axs j = Some h →
          h < length log ∧
          ∃ sx sy, log !! h = region_call xrange yrange whichpanels j sx sy) ∧
  (∀ j j' h, handle_of axs j = Some h → handle_of axs j' = Some h → j = j') ∧
  (∀ b, b ∈ allgroups_base sharex sharey xg yg → is_Some (handle_of axs b)) ∧
  (∀ j, j < i → is_Some (handle_of axs j)) ∧
  (∀ j, i ≤ j → j ∉ allgroups_base sharex sharey xg yg → handle_of axs j = None).

(** ** Further notions for the properties of the remaining code *)

(** The grid generated for [array=None] (lines 163-167), as integers. *)
Definition auto_grid (nrows ncols : nat) (rowmajor : bool) : grid :=
  none_to_zero (arange_grid nrows ncols rowmajor).

(** The number that the generated grid has in row [r], column [c]. *)
Definition auto_number (nrows ncols : nat) (rowmajor : bool) (r c : nat) : Z :=
  Z.of_nat (if rowmajor then r * ncols + c + 1 else c * nrows + r + 1).

(** Every row of the grid has [ncols] cells. *)
Definition rectangular (a : grid) (ncols : nat) : Prop :=
  Forall (λ row : list Z, length row = ncols) a.

(** The cell of the generated grid that holds the number [k + 1]. *)
Definition auto_position (nrows ncols : nat) (rowmajor : bool) (k : nat) : nat * nat :=
  if rowmajor then (k / ncols, k `mod` ncols) else (k `mod` nrows, k / nrows).

(** The 0-based position that the 1-based number [k] of [emptycols] or
    [emptyrows] addresses on an axis of size [n]; numpy wraps [k - 1] when
    it is negative. *)
Definition blank_target (n : nat) (k : Z) : nat :=
  Z.to_nat ((k - 1) `mod` Z.of_nat n).

(** The numbers that [array[:,k-1]] and [array[k-1,:]] accept on an axis of
    size [n]. *)
Definition blank_in_range (n : nat) (k : Z) : Prop :=
  (- Z.of_nat n < k ≤ Z.of_nat n)%Z.

(** The panel number of a factory call, and the panel numbers of the
    factory calls of a log, in order. *)
Definition call_number (c : call) : option nat :=
  match c with
  | CreateRegion _ number _ _ _ _ => Some number
  | _ => None
  end.
Definition created (log : list call) : list nat := omap call_number log.

(** An axes object for the examples whose [plot] raises after it has
    appended its name to the state. *)
Definition failing_axes (name : string) : axes_list.axes unit nat (list string) :=
  λ attr,
    if decide (attr = "plot") then
      axes_list.AttrCallable (λ _ w, (Raise TypeError, w ++ [name]))
    else axes_list.AttrNone.

(** The 0-based position in [axs] of the panel that the generated grid has
    in row [r], column [c]. *)
Definition auto_index (nrows ncols : nat) (rowmajor : bool) (r c : nat) : nat :=
  if rowmajor then r * ncols + c else c * nrows + r.

(** The spans follow one another without gap or overlap from [lo] to [hi],
    and none is empty. *)
Fixpoint tiles (lo hi : Z) (spans : list (Z * Z)) : Prop :=
  match spans with
  | [] => lo = hi
  | s :: rest => s.1 = lo ∧ (s.1 < s.2)%Z ∧ tiles s.2 hi rest
  end.

(** An axes object for the examples whose field [number] holds an array of
    two elements: comparing it with [None] has no truth value.  It has no
    [plot]. *)
Definition array_axes : axes_list.axes unit nat (list string) :=
  λ attr,
    if decide (attr = "number") then axes_list.AttrData 7 (Raise AmbiguousTruthValue)
    else axes_list.AttrNone.
(** ** Facts about [np_unique] *)

Lemma elem_of_insert_sorted x y l : y ∈ insert_sorted x l ↔ y = x ∨ y ∈ l.
Proof.
  induction l as [|z l IH]; simpl.
  - set_solver.
  - repeat case_decide; subst; rewrite ?elem_of_cons, ?IH; tauto.
Qed.

Lemma elem_of_np_unique y l : y ∈ np_unique l ↔ y ∈ l.
Proof.
  induction l as [|x l IH]; simpl; [done|].
  rewrite elem_of_insert_sorted, IH, elem_of_cons. tauto.
Qed.

Lemma insert_sorted_sorted x l :
  StronglySorted Z.lt l → StronglySorted Z.lt (insert_sorted x l).
Proof.
  induction 1 as [|y l Hs IH Hall]; simpl.
  - repeat constructor.
  - repeat case_decide.
    + constructor; [by constructor|].
      constructor; [done|]. eapply Forall_impl; [exact Hall|]. simpl. lia.
    + by constructor.
    + constructor; [done|].
      apply Forall_forall. intros z Hz%elem_of_insert_sorted.
      destruct Hz as [->|Hz]; [lia|].
      by eapply Forall_forall in Hall.
Qed.

Lemma np_unique_sorted l : StronglySorted Z.lt (np_unique l).
Proof.
  induction l; simpl; [constructor|]. by apply insert_sorted_sorted.
Qed.

Lemma seqZ_sorted m n : StronglySorted Z.lt (seqZ m n).
Proof.
  destruct (decide (0 ≤ n)%Z) as [Hn|Hn].
  - revert m. pattern n. apply natlike_ind; [| |done].
    + intros m. rewrite seqZ_nil by lia. constructor.
    + intros k Hk IH m. rewrite seqZ_cons by lia.
      constructor.
      * replace (Z.pred (Z.succ k)) with k by lia. apply IH.
      * apply Forall_forall. intros z Hz%elem_of_seqZ. lia.
  - rewrite seqZ_nil by lia. constructor.
Qed.

Lemma lt_sorted_unique (l1 l2 : list Z) :
  StronglySorted Z.lt l1 → StronglySorted Z.lt l2 →
  (∀ x, x ∈ l1 ↔ x ∈ l2) → l1 = l2.
Proof.
  intros H1 H2 Heq.
  apply (StronglySorted_unique_strong Z.lt); [|done|done|].
  - intros x1 x2 _ _ ? ?. lia.
  - apply NoDup_Permutation; [| |done].
    + clear -H1. induction H1 as [|x l _ IH Hall]; constructor; [|done].
      intros Hx. eapply Forall_forall in Hall; [|exact Hx]. lia.
    + clear -H2. induction H2 as [|x l _ IH Hall]; constructor; [|done].
      intros Hx. eapply Forall_forall in Hall; [|exact Hx]. lia.
Qed.

Lemma elem_of_nonzero v a : v ∈ nonzero a ↔ v ∈ concat a ∧ v ≠ 0%Z.
Proof. unfold nonzero. rewrite list_elem_of_filter. tauto. Qed.

(** The rule accepts a grid exactly when its non-zero values are 1..N. *)
Lemma enforce_rule_Ok a N : enforce_rule a = Ok N ↔ nonzero_values_are a N.
Proof.
  unfold enforce_rule, nonzero_values_are. split.
  - case_decide as Hd; [|done]. intros [= <-] v.
    rewrite <- elem_of_nonzero, <- (elem_of_np_unique v (nonzero a)), Hd.
    rewrite elem_of_seqZ, length_seqZ. lia.
  - intros Hv.
    assert (np_unique (nonzero a) = seqZ 1 (Z.of_nat N)) as Hu.
    { apply lt_sorted_unique; [apply np_unique_sorted|apply seqZ_sorted|].
      intros x. rewrite elem_of_np_unique, elem_of_nonzero, Hv, elem_of_seqZ. lia. }
    rewrite Hu, length_seqZ, Nat2Z.id.
    by rewrite decide_True.
Qed.

Lemma enforce_rule_cases a :
  (∃ N, enforce_rule a = Ok N) ∨ enforce_rule a = Raise InvalidArrangement.
Proof. unfold enforce_rule. case_decide; eauto. Qed.

(** ** Facts about the extent calculator *)

Lemma elem_of_where_from {A} (P : A → Prop) `{!∀ x, Decision (P x)} k (l : list A) j :
  j ∈ where_from P k l ↔ k ≤ j ∧ ∃ x, l !! (j - k) = Some x ∧ P x.
Proof.
  revert k. induction l as [|y l IH]; intros k; simpl.
  - split; [by intros ?%elem_of_nil|]. by intros (_ & x & ? & _).
  - assert (j ∈ where_from P (S k) l ↔
            S k ≤ j ∧ ∃ x, (y :: l) !! (j - k) = Some x ∧ P x) as Htl.
    { rewrite IH. split; intros [Hj Hx]; (split; [done|]).
      - by replace (j - k) with (S (j - S k)) by lia.
      - by replace (j - k) with (S (j - S k)) in Hx by lia. }
    assert (∀ x, (y :: l) !! (j - k) = Some x → k = j → x = y) as Hhd.
    { intros x Hx ->. rewrite Nat.sub_diag in Hx. by injection Hx. }
    case_decide as HP; rewrite ?elem_of_cons, Htl.
    + split.
      * intros [->|[? ?]]; [|split; [lia|done]].
        split; [done|]. exists y. by rewrite Nat.sub_diag.
      * intros [Hk (x & Hx & HPx)].
        destruct (decide (k = j)) as [->|]; [by left|right].
        split; [lia|eauto].
    + split.
      * intros [? ?]; split; [lia|done].
      * intros [Hk (x & Hx & HPx)]. split; [|eauto].
        destruct (decide (k = j)) as [Heq|]; [|lia].
        by rewrite (Hhd x Hx Heq) in HPx.
Qed.

Lemma elem_of_np_where {A} (P : A → Prop) `{!∀ x, Decision (P x)} (l : list A) j :
  j ∈ np_where P l ↔ ∃ x, l !! j = Some x ∧ P x.
Proof.
  unfold np_where. rewrite elem_of_where_from, Nat.sub_0_r.
  split; [by intros [_ ?]|]. intros ?; split; [lia|done].
Qed.

Lemma where_from_sorted {A} (P : A → Prop) `{!∀ x, Decision (P x)} k (l : list A) :
  StronglySorted lt (where_from P k l).
Proof.
  revert k. induction l as [|y l IH]; intros k; simpl; [constructor|].
  case_decide; [|apply IH]. constructor; [apply IH|].
  apply Forall_forall. intros j [Hj _]%elem_of_where_from. lia.
Qed.

Lemma np_where_sorted {A} (P : A → Prop) `{!∀ x, Decision (P x)} (l : list A) :
  StronglySorted lt (np_where P l).
Proof. apply where_from_sorted. Qed.

Lemma elem_of_concat {A} (x : A) (ls : list (list A)) :
  x ∈ concat ls ↔ ∃ l, l ∈ ls ∧ x ∈ l.
Proof.
  induction ls as [|l ls IH]; simpl.
  - split; [by intros ?%elem_of_nil|]. by intros (? & ?%elem_of_nil & _).
  - rewrite elem_of_app, IH. split.
    + intros [?|(l' & ? & ?)]; [exists l|exists l']; rewrite elem_of_cons; eauto.
    + intros (l' & [->|?]%elem_of_cons & ?); eauto.
Qed.

Lemma elem_of_where2 a i r c : (r, c) ∈ where2 a i ↔ cell_at a r c = Some i.
Proof.
  unfold where2, cell_at. rewrite elem_of_concat. split.
  - intros (l & Hl & Hrc).
    apply elem_of_lookup_imap in Hl as (r' & row & -> & Hrow).
    apply list_elem_of_fmap in Hrc as (c' & [= -> ->] & Hc).
    apply elem_of_np_where in Hc as (v & Hv & ->).
    by rewrite Hrow.
  - destruct (a !! r) as [row|] eqn:Hrow; simpl; [|done]. intros Hc.
    eexists. split.
    + apply elem_of_lookup_imap. by exists r, row.
    + apply list_elem_of_fmap. exists c. split; [done|].
      apply elem_of_np_where. eauto.
Qed.

Lemma elem_of_cell_at a v : v ∈ concat a ↔ ∃ r c, cell_at a r c = Some v.
Proof.
  rewrite elem_of_concat. unfold cell_at. split.
  - intros (row & [r Hr]%list_elem_of_lookup & [c Hc]%list_elem_of_lookup).
    exists r, c. by rewrite Hr.
  - intros (r & c & Hrc). destruct (a !! r) as [row|] eqn:Hr; [|done].
    exists row. split; apply list_elem_of_lookup; eauto.
Qed.

Lemma filter_lt_sorted (P : Z → Prop) `{!∀ x, Decision (P x)} (l : list Z) :
  StronglySorted Z.lt l → StronglySorted Z.lt (filter P l).
Proof.
  induction 1 as [|x l _ IH Hall]; [constructor|].
  rewrite filter_cons. case_decide; [|done].
  constructor; [done|].
  apply Forall_forall. intros y [_ Hy]%list_elem_of_filter.
  by eapply Forall_forall in Hall.
Qed.

(** On a grid that passes the rule, the ids scanned by the extent
    calculator are 1..N in order. *)
Lemma panel_ids_of_valid a N :
  enforce_rule a = Ok N →
  filter (λ i, (0 < i)%Z) (np_unique (concat a)) = seqZ 1 (Z.of_nat N).
Proof.
  intros Hv%enforce_rule_Ok.
  apply lt_sorted_unique.
  - apply filter_lt_sorted, np_unique_sorted.
  - apply seqZ_sorted.
  - intros x. rewrite list_elem_of_filter, elem_of_np_unique, elem_of_seqZ.
    specialize (Hv x). split.
    + intros [? ?].
      assert (1 ≤ x ≤ Z.of_nat N)%Z by (apply Hv; split; [done|lia]). lia.
    + intros ?. assert (x ∈ concat a ∧ x ≠ 0%Z) as [? ?] by (apply Hv; lia).
      split; [lia|done].
Qed.

Lemma axes_ids_of_valid a N :
  enforce_rule a = Ok N →
  axes_ids a = (λ k, where2 a (Z.of_nat k + 1)) <$> seq 0 N.
Proof.
  intros Hv. unfold axes_ids. rewrite (panel_ids_of_valid a N Hv).
  apply list_eq. intros k.
  rewrite !list_lookup_fmap.
  destruct (decide (k < N)) as [Hk|Hk].
  - rewrite lookup_seqZ_lt by lia. rewrite lookup_seq_lt by lia. simpl.
    do 2 f_equal. lia.
  - rewrite lookup_seqZ_ge by lia. by rewrite lookup_seq_ge by lia.
Qed.

Lemma foldl_min_spec (l : list Z) x :
  (foldl Z.min x l ∈ x :: l) ∧ ∀ y, y ∈ x :: l → (foldl Z.min x l ≤ y)%Z.
Proof.
  revert x. induction l as [|z l IH]; intros x; simpl.
  - split; [by left|]. intros y ->%list_elem_of_singleton. lia.
  - destruct (IH (Z.min x z)) as [Hin Hle]. split.
    + apply elem_of_cons in Hin as [Heq|Hin]; [|by do 2 right].
      rewrite Heq. destruct (Z.min_spec x z) as [[_ ->]|[_ ->]];
        [by left|right; by left].
    + intros y Hy.
      assert (foldl Z.min (Z.min x z) l ≤ Z.min x z)%Z by (apply Hle; by left).
      rewrite !elem_of_cons in Hy. destruct Hy as [->|[->|Hy]]; [lia|lia|].
      apply Hle. by right.
Qed.

Lemma foldl_max_spec (l : list Z) x :
  (foldl Z.max x l ∈ x :: l) ∧ ∀ y, y ∈ x :: l → (y ≤ foldl Z.max x l)%Z.
Proof.
  revert x. induction l as [|z l IH]; intros x; simpl.
  - split; [by left|]. intros y ->%list_elem_of_singleton. lia.
  - destruct (IH (Z.max x z)) as [Hin Hle]. split.
    + apply elem_of_cons in Hin as [Heq|Hin]; [|by do 2 right].
      rewrite Heq. destruct (Z.max_spec x z) as [[_ ->]|[_ ->]];
        [right; by left|by left].
    + intros y Hy.
      assert (Z.max x z ≤ foldl Z.max (Z.max x z) l)%Z by (apply Hle; by left).
      rewrite !elem_of_cons in Hy. destruct Hy as [->|[->|Hy]]; [lia|lia|].
      apply Hle. by right.
Qed.

(** The extent of a non-empty index list is its tight half-open hull. *)
Lemma extent_spec offset (idx : list nat) :
  idx ≠ [] →
  ∃ lo hi : nat,
    extent offset idx = Ok (offset + Z.of_nat lo, offset + (Z.of_nat hi + 1))%Z ∧
    lo ∈ idx ∧ hi ∈ idx ∧ ∀ x, x ∈ idx → lo ≤ x ≤ hi.
Proof.
  destruct idx as [|i idx]; [done|]. intros _.
  unfold extent. simpl.
  destruct (foldl_min_spec (Z.of_nat <$> idx) (Z.of_nat i)) as [Hlo Hlo'].
  destruct (foldl_max_spec (Z.of_nat <$> idx) (Z.of_nat i)) as [Hhi Hhi'].
  change (Z.of_nat i :: (Z.of_nat <$> idx)) with (Z.of_nat <$> (i :: idx)) in *.
  apply list_elem_of_fmap in Hlo as (lo & Hlo & Hlo_in).
  apply list_elem_of_fmap in Hhi as (hi & Hhi & Hhi_in).
  exists lo, hi.
  change (list_fmap nat Z Z.of_nat idx) with (Z.of_nat <$> idx).
  rewrite Hlo, Hhi. split; [done|]. split; [done|]. split; [done|].
  intros x Hx.
  pose proof (Hlo' (Z.of_nat x) (list_elem_of_fmap_2 _ _ _ Hx)).
  pose proof (Hhi' (Z.of_nat x) (list_elem_of_fmap_2 _ _ _ Hx)).
  lia.
Qed.

Lemma map_res_Ok {A B} (f : A → res B) (g : A → B) (l : list A) :
  (∀ x, x ∈ l → f x = Ok (g x)) → map_res f l = Ok (g <$> l).
Proof.
  induction l as [|x l IH]; intros Hf; simpl; [done|].
  rewrite (Hf x) by by left. simpl.
  rewrite IH; [done|]. intros y Hy. apply Hf. by right.
Qed.

Lemma map_res_lookup {A B} (f : A → res B) (l : list A) (ys : list B) :
  map_res f l = Ok ys →
  length ys = length l ∧ ∀ k x, l !! k = Some x → ∃ y, ys !! k = Some y ∧ f x = Ok y.
Proof.
  revert ys. induction l as [|x l IH]; intros ys; simpl.
  - intros [= <-]. split; [done|]. intros k x. by rewrite lookup_nil.
  - destruct (f x) as [y|e] eqn:Hfx; simpl; [|done].
    destruct (map_res f l) as [ys'|e] eqn:Hl; simpl; [|done].
    intros [= <-]. destruct (IH ys' eq_refl) as [Hlen Hk].
    split; [simpl; by rewrite Hlen|].
    intros [|k] x'; simpl; [intros [= <-]; eauto|apply Hk].
Qed.

Lemma map_res_total {A B} (f : A → res B) (l : list A) :
  (∀ x, x ∈ l → ∃ y, f x = Ok y) → ∃ ys, map_res f l = Ok ys.
Proof.
  induction l as [|x l IH]; intros Hf; simpl; [eauto|].
  destruct (Hf x) as [y ->]; [by left|]. simpl.
  destruct IH as [ys ->]; [|simpl; eauto].
  intros z Hz. apply Hf. by right.
Qed.

Lemma where2_nonempty a N k :
  enforce_rule a = Ok N → k < N → where2 a (Z.of_nat k + 1) ≠ [].
Proof.
  intros Hv%enforce_rule_Ok Hk.
  destruct (proj2 (Hv (Z.of_nat k + 1)%Z)) as [(r & c & Hrc)%elem_of_cell_at _]; [lia|].
  apply elem_of_where2 in Hrc. intros Hnil. rewrite Hnil in Hrc.
  by apply elem_of_nil in Hrc.
Qed.

(** One axis of the extent table of a valid grid. *)
Lemma range_of_valid (proj : nat * nat → nat) offset a N :
  enforce_rule a = Ok N →
  ∃ tbl,
    map_res (λ xy : list (nat * nat), extent offset (proj <$> xy)) (axes_ids a) = Ok tbl ∧
    length tbl = N ∧
    ∀ k, k < N → ∃ lo hi : nat,
      tbl !! k = Some (offset + Z.of_nat lo, offset + (Z.of_nat hi + 1))%Z ∧
      lo ∈ proj <$> where2 a (Z.of_nat k + 1) ∧
      hi ∈ proj <$> where2 a (Z.of_nat k + 1) ∧
      ∀ x, x ∈ proj <$> where2 a (Z.of_nat k + 1) → lo ≤ x ≤ hi.
Proof.
  intros Hv. rewrite (axes_ids_of_valid a N Hv).
  set (f := λ xy : list (nat * nat), extent offset (proj <$> xy)).
  destruct (map_res_total f ((λ k, where2 a (Z.of_nat k + 1)) <$> seq 0 N))
    as [tbl Htbl].
  { intros xy (k & -> & Hk%elem_of_seq)%list_elem_of_fmap.
    destruct (extent_spec offset (proj <$> where2 a (Z.of_nat k + 1)))
      as (lo & hi & Hext & _); [|unfold f; eauto].
    intros Hnil%fmap_nil_inv. eapply where2_nonempty; [done| |done]. lia. }
  exists tbl. split; [done|].
  destruct (map_res_lookup _ _ _ Htbl) as [Hlen Hlk].
  rewrite length_fmap, length_seq in Hlen. split; [done|].
  intros k Hk.
  destruct (Hlk k (where2 a (Z.of_nat k + 1))) as (e & He & Hfe).
  { rewrite list_lookup_fmap, lookup_seq_lt by done. done. }
  destruct (extent_spec offset (proj <$> where2 a (Z.of_nat k + 1)))
    as (lo & hi & Hext & Hlo & Hhi & Hall).
  { intros Hnil%fmap_nil_inv. by eapply where2_nonempty. }
  exists lo, hi. unfold f in Hfe. rewrite Hext in Hfe. injection Hfe as <-.
  done.
Qed.

(** C4 (as amended): on every grid that passes the rule, the row and column
    extents of each panel form the tight bounding box of the cells that bear
    its id, shifted by the offsets: every such cell lies in the box and each
    of the four bounds is attained by one of them.  Nothing is promised
    about cells of other ids. *)
Theorem extent_is_tight_bounding_box (a : grid) (N : nat) (row_offset col_offset : Z) :
  enforce_rule a = Ok N →
  ∃ yrange xrange,
    yrange_of row_offset a = Ok yrange ∧ xrange_of col_offset a = Ok xrange ∧
    length yrange = N ∧ length xrange = N ∧
    ∀ k, k < N →
      ∃ ye xe,
        yrange !! k = Some ye ∧ xrange !! k = Some xe ∧
        (∀ r c, cell_at a r c = Some (Z.of_nat k + 1)%Z →
                in_box ye xe row_offset col_offset r c) ∧
        (∃ r c, cell_at a r c = Some (Z.of_nat k + 1)%Z ∧
                ye.1 = (row_offset + Z.of_nat r)%Z) ∧
        (∃ r c, cell_at a r c = Some (Z.of_nat k + 1)%Z ∧
                ye.2 = (row_offset + Z.of_nat r + 1)%Z) ∧
        (∃ r c, cell_at a r c = Some (Z.of_nat k + 1)%Z ∧
                xe.1 = (col_offset + Z.of_nat c)%Z) ∧
        (∃ r c, cell_at a r c = Some (Z.of_nat k + 1)%Z ∧
                xe.2 = (col_offset + Z.of_nat c + 1)%Z).
Proof.
  intros Hv.
  destruct (range_of_valid fst row_offset a N Hv) as (yr & Hyr & Hylen & Hy).
  destruct (range_of_valid snd col_offset a N Hv) as (xr & Hxr & Hxlen & Hx).
  exists yr, xr. repeat (split; [done|]).
  intros k Hk.
  destruct (Hy k Hk) as (rlo & rhi & Hyk & Hrlo & Hrhi & Hrall).
  destruct (Hx k Hk) as (clo & chi & Hxk & Hclo & Hchi & Hcall).
  eexists _, _. split; [exact Hyk|]. split; [exact Hxk|].
  assert (∀ (proj : nat * nat → nat) x,
    x ∈ proj <$> where2 a (Z.of_nat k + 1) →
    ∃ r c, cell_at a r c = Some (Z.of_nat k + 1)%Z ∧ x = proj (r, c)) as Hback.
  { intros proj x ([r c] & -> & Hrc%elem_of_where2)%list_elem_of_fmap. eauto. }
  split; [|repeat split].
  - intros r c Hrc%elem_of_where2. unfold in_box; simpl.
    pose proof (Hrall r (list_elem_of_fmap_2 fst _ _ Hrc)).
    pose proof (Hcall c (list_elem_of_fmap_2 snd _ _ Hrc)).
    simpl in *. lia.
  - destruct (Hback fst rlo Hrlo) as (r & c & ? & ->). by exists r, c.
  - destruct (Hback fst rhi Hrhi) as (r & c & ? & ->). exists r, c.
    split; [done|]. simpl. lia.
  - destruct (Hback snd clo Hclo) as (r & c & ? & ->). by exists r, c.
  - destruct (Hback snd chi Hchi) as (r & c & ? & ->). exists r, c.
    split; [done|]. simpl. lia.
Qed.

Lemma extent_is_tight_bounding_box_witness :
  ∃ yrange xrange,
    yrange_of 1 [[1; 1; 2]; [3; 3; 2]]%Z = Ok yrange ∧
    xrange_of 0 [[1; 1; 2]; [3; 3; 2]]%Z = Ok xrange ∧
    yrange !! 2 = Some (2, 3)%Z ∧ xrange !! 2 = Some (0, 2)%Z.
Proof.
  destruct (extent_is_tight_bounding_box [[1; 1; 2]; [3; 3; 2]]%Z 3 1 0 eq_refl)
    as (yr & xr & Hy & Hx & _).
  exists yr, xr. split; [done|]. split; [done|].
  vm_compute in Hy, Hx. injection Hy as <-. injection Hx as <-. done.
Defined.

(** C4 (as stated) fails: panel 1 of [[1,2],[2,1]] occupies two opposite
    corners, so its box is the whole grid and holds both cells of panel 2. *)
Lemma extent_box_holds_other_panel :
  enforce_rule [[1; 2]; [2; 1]]%Z = Ok 2 ∧
  ¬ boxes_exclude_other_ids [[1; 2]; [2; 1]]%Z 0 0.
Proof.
  split; [done|]. intros H.
  apply (H [(0, 2); (0, 2)]%Z [(0, 2); (0, 2)]%Z 0 (0, 2)%Z (0, 2)%Z 0 1 2%Z);
    done.
Qed.

(** ** The rule on axes numbers *)

Lemma nonzero_values_are_positive a N :
  nonzero_values_are a N → positive_values_are a N.
Proof.
  intros Hnz v. specialize (Hnz v). split.
  - intros [? ?]. apply Hnz. split; [done|lia].
  - intros Hv. destruct (proj2 Hnz Hv). split; [done|lia].
Qed.

Lemma normalize_prepared array nrows ncols rowmajor emptycols emptyrows a :
  prepare array nrows ncols rowmajor emptycols emptyrows = Ok a →
  normalize array nrows ncols rowmajor emptycols emptyrows =
    (num_axes ← enforce_rule a; Ok (a, num_axes)).
Proof. unfold normalize. by intros ->. Qed.

Lemma subplots_stops_at_rule array nrows ncols rowmajor emptycols emptyrows
    sharex sharey resolve e log :
  normalize array nrows ncols rowmajor emptycols emptyrows = Raise e →
  subplots array nrows ncols rowmajor emptycols emptyrows sharex sharey resolve log
  = (Raise e, log).
Proof. unfold subplots, mbind, M_bind, lift. by intros ->. Qed.

(** C5 (as amended): let [a] be the grid that reaches the rule (after the
    None cells and the blanked rows and columns were zeroed).  Normalisation
    succeeds with panel count N exactly when the non-zero values of [a] are
    1..N; in every other case it raises InvalidArrangement and [subplots]
    leaves the call log as it was, so no panel is constructed.  In
    particular it raises when the positive values are not 1..N for any N. *)
Theorem rule_accepts_exactly_one_to_N
    (array : arrangement) (nrows ncols : nat) (rowmajor : bool)
    (emptycols emptyrows : list Z) (a : grid) :
  prepare array nrows ncols rowmajor emptycols emptyrows = Ok a →
  (∀ N, nonzero_values_are a N ↔
        normalize array nrows ncols rowmajor emptycols emptyrows = Ok (a, N)) ∧
  ((¬ ∃ N, nonzero_values_are a N) →
     normalize array nrows ncols rowmajor emptycols emptyrows = Raise InvalidArrangement ∧
     ∀ sharex sharey resolve log,
       subplots array nrows ncols rowmajor emptycols emptyrows sharex sharey resolve log
       = (Raise InvalidArrangement, log)) ∧
  ((¬ ∃ N, positive_values_are a N) →
     normalize array nrows ncols rowmajor emptycols emptyrows = Raise InvalidArrangement ∧
     ∀ sharex sharey resolve log,
       subplots array nrows ncols rowmajor emptycols emptyrows sharex sharey resolve log
       = (Raise InvalidArrangement, log)).
Proof.
  intros Hprep.
  assert ((¬ ∃ N, nonzero_values_are a N) →
     normalize array nrows ncols rowmajor emptycols emptyrows = Raise InvalidArrangement ∧
     ∀ sharex sharey resolve log,
       subplots array nrows ncols rowmajor emptycols emptyrows sharex sharey resolve log
       = (Raise InvalidArrangement, log)) as Hfail.
  { intros Hno.
    assert (normalize array nrows ncols rowmajor emptycols emptyrows
            = Raise InvalidArrangement) as Hraise.
    { rewrite (normalize_prepared _ _ _ _ _ _ _ Hprep).
      destruct (enforce_rule_cases a) as [[N HN]| ->]; [|done].
      destruct Hno. exists N. by apply enforce_rule_Ok. }
    split; [done|]. intros. by apply subplots_stops_at_rule. }
  split; [|split; [done|]].
  - intros N. rewrite (normalize_prepared _ _ _ _ _ _ _ Hprep).
    rewrite <- enforce_rule_Ok. split.
    + by intros ->.
    + destruct (enforce_rule a) as [N'|e]; simpl; [|done]. by intros [= ->].
  - intros Hno. apply Hfail. intros [N HN]. apply Hno. exists N.
    by apply nonzero_values_are_positive.
Qed.

Lemma rule_accepts_exactly_one_to_N_witness :
  normalize (Array2 [[Some 1; Some 3]]%Z) 1 1 true [] [] = Raise InvalidArrangement ∧
  normalize (Array2 [[Some 1; Some 2]; [Some 1; Some 3]]%Z) 1 1 true [] []
  = Ok ([[1; 2]; [1; 3]]%Z, 3).
Proof.
  split.
  - destruct (rule_accepts_exactly_one_to_N (Array2 [[Some 1; Some 3]]%Z) 1 1 true [] []
                [[1; 3]]%Z eq_refl) as (_ & Hfail & _).
    apply Hfail.
    intros [N HN]. apply enforce_rule_Ok in HN. vm_compute in HN. done.
  - destruct (rule_accepts_exactly_one_to_N
                (Array2 [[Some 1; Some 2]; [Some 1; Some 3]]%Z) 1 1 true [] []
                [[1; 2]; [1; 3]]%Z eq_refl) as (Hok & _).
    apply Hok. by apply enforce_rule_Ok.
Defined.

(** C5 (as stated) fails: the positive values of [[1,-1]] are exactly {1},
    yet the rule rejects the grid, because -1 is a non-zero value too. *)
Lemma rule_rejects_negative_value :
  positive_values_are [[1; -1]]%Z 1 ∧
  normalize (Array2 [[Some 1; Some (-1)]]%Z) 1 1 true [] [] = Raise InvalidArrangement.
Proof.
  split; [|done]. intros v. simpl. rewrite !elem_of_cons, elem_of_nil. lia.
Qed.

(** ** None cells *)

Lemma none_to_zero_fill_none array nrows ncols rowmajor :
  none_to_zero (as_2d (fill_none array) nrows ncols rowmajor)
  = none_to_zero (as_2d array nrows ncols rowmajor).
Proof.
  unfold none_to_zero. destruct array as [|l|rows]; simpl; [done| |].
  - destruct rowmajor; simpl.
    + f_equal. rewrite <- list_fmap_compose. by apply list_fmap_ext.
    + rewrite <- !list_fmap_compose. by apply list_fmap_ext.
  - rewrite <- list_fmap_compose. apply list_fmap_ext. intros _ row _. simpl.
    rewrite <- list_fmap_compose. by apply list_fmap_ext.
Qed.

Lemma elem_of_none_to_zero (rows : list (list cell)) (v : Z) :
  v ∈ concat (none_to_zero rows) → v ≠ 0%Z → Some v ∈ concat rows.
Proof.
  unfold none_to_zero. rewrite !elem_of_concat.
  intros (zs & (row & -> & Hrow)%list_elem_of_fmap & Hv) Hnz.
  exists row. split; [done|].
  apply list_elem_of_fmap in Hv as ([w|] & Hw & Hin); simpl in Hw; by subst.
Qed.

Lemma elem_of_zero_col (a : grid) j v :
  v ∈ concat (zero_col a j) → v ≠ 0%Z → v ∈ concat a.
Proof.
  unfold zero_col. rewrite !elem_of_concat.
  intros (zs & (row & -> & Hrow)%list_elem_of_fmap & Hv) Hnz.
  exists row. split; [done|].
  apply list_elem_of_lookup in Hv as [c Hc].
  destruct (decide (c = j)) as [->|Hne].
  - destruct (decide (j < length row)) as [Hlt|Hge].
    + rewrite list_lookup_insert_eq in Hc by done. congruence.
    + rewrite list_insert_ge in Hc by lia. by eapply list_elem_of_lookup_2.
  - rewrite list_lookup_insert_ne in Hc by done. by eapply list_elem_of_lookup_2.
Qed.

Lemma elem_of_zero_row (a : grid) i v :
  v ∈ concat (zero_row a i) → v ≠ 0%Z → v ∈ concat a.
Proof.
  unfold zero_row. rewrite !elem_of_concat.
  intros (zs & [r Hr]%list_elem_of_lookup & Hv) Hnz.
  destruct (decide (r = i)) as [->|Hne].
  - rewrite list_lookup_alter_eq in Hr.
    destruct (a !! i) as [row|]; simpl in Hr; [|done].
    injection Hr as <-. apply list_elem_of_fmap in Hv as (? & ? & _). congruence.
  - rewrite list_lookup_alter_ne in Hr by done.
    exists zs. split; [|done]. by eapply list_elem_of_lookup_2.
Qed.

Lemma for_each_invariant {A S} (P : S → Prop) (body : S → A → res S) l s s' :
  (∀ s x s', P s → body s x = Ok s' → P s') →
  P s → for_each l body s = Ok s' → P s'.
Proof.
  intros Hbody. revert s. induction l as [|x l IH]; intros s Hs; simpl.
  - by intros [= <-].
  - destruct (body s x) as [s1|e] eqn:Hx; simpl; [|done]. eauto.
Qed.

Lemma elem_of_prepare array nrows ncols rowmajor emptycols emptyrows a v :
  prepare array nrows ncols rowmajor emptycols emptyrows = Ok a →
  v ∈ nonzero a → Some v ∈ concat (as_2d array nrows ncols rowmajor).
Proof.
  unfold prepare. intros Hprep [Hv Hnz]%elem_of_nonzero.
  apply elem_of_none_to_zero; [|done].
  destruct (blank_cols emptycols _) as [a1|e] eqn:Hcols; simpl in Hprep; [|done].
  eapply (for_each_invariant (λ a1, v ∈ concat a1 → v ∈ concat _)); [| |exact Hcols|].
  { intros s col s' Hs. cbv beta.
    destruct (np_index (shape1 s) (col - 1)); simpl; [|done].
    intros [= <-] Hin. eapply Hs, elem_of_zero_col; done. }
  { done. }
  eapply (for_each_invariant (λ a2, v ∈ concat a2 → v ∈ concat a1));
    [| |exact Hprep|exact Hv].
  { intros s row s' Hs. cbv beta.
    destruct (np_index (shape0 s) (row - 1)); simpl; [|done].
    intros [= <-] Hin. eapply Hs, elem_of_zero_row; done. }
  done.
Qed.

(** C9: a None cell of the input is treated as the empty cell 0 before the
    blanking of rows and columns and before the rule on axes numbers: the
    prepared grid and the outcome of normalisation are those of the array
    with 0 in place of each None, and every panel id of the prepared grid is
    an integer cell of the input. *)
Theorem none_cells_are_empty_cells
    (array : arrangement) (nrows ncols : nat) (rowmajor : bool)
    (emptycols emptyrows : list Z) :
  prepare array nrows ncols rowmajor emptycols emptyrows
  = prepare (fill_none array) nrows ncols rowmajor emptycols emptyrows ∧
  normalize array nrows ncols rowmajor emptycols emptyrows
  = normalize (fill_none array) nrows ncols rowmajor emptycols emptyrows ∧
  ∀ a, prepare array nrows ncols rowmajor emptycols emptyrows = Ok a →
       ∀ v, v ∈ np_unique (nonzero a) →
            Some v ∈ concat (as_2d array nrows ncols rowmajor).
Proof.
  assert (prepare array nrows ncols rowmajor emptycols emptyrows
          = prepare (fill_none array) nrows ncols rowmajor emptycols emptyrows) as Heq.
  { unfold prepare. by rewrite none_to_zero_fill_none. }
  split; [done|]. split.
  - unfold normalize. by rewrite Heq.
  - intros a Ha v Hv. rewrite elem_of_np_unique in Hv.
    eapply elem_of_prepare; [exact Ha|exact Hv].
Qed.

Lemma none_cells_are_empty_cells_witness :
  normalize (Array2 [[Some 1; None]; [None; Some 2]]%Z) 1 1 true [] []
  = Ok ([[1; 0]; [0; 2]]%Z, 2).
Proof.
  destruct (none_cells_are_empty_cells
              (Array2 [[Some 1; None]; [None; Some 2]]%Z) 1 1 true [] [])
    as (_ & -> & _).
  reflexivity.
Defined.

(** ** Per-panel properties *)

Lemma foldl_insert_lookup (item : pyval) (ids : list Z) (m0 : gmap Z pyval) (j : Z) :
  foldl (λ (m : gmap Z pyval) num, <[(num - 1)%Z := item]> m) m0 ids !! j
  = if decide ((j + 1)%Z ∈ ids) then Some item else m0 !! j.
Proof.
  revert m0. induction ids as [|x ids IH]; intros m0; cbn [foldl].
  - case_decide as Hin; [|done]. by apply elem_of_nil in Hin.
  - rewrite IH. destruct (decide ((j + 1)%Z ∈ ids)) as [Hin|Hout].
    + rewrite decide_True; [done|]. by right.
    + destruct (decide (x = (j + 1)%Z)) as [->|Hne].
      * rewrite decide_True by by left.
        replace (j + 1 - 1)%Z with j by lia. by rewrite lookup_insert_eq.
      * rewrite decide_False.
        -- rewrite lookup_insert_ne; [done|lia].
        -- intros [?|?]%elem_of_cons; [congruence|done].
Qed.

Lemma unfurl_from_lookup items (m0 m : gmap Z pyval) :
  for_each items (λ (kw_out : gmap Z pyval) (kv : pykey * pyval),
    nums ← key_ids kv.1;
    Ok (foldl (λ (m : gmap Z pyval) num, <[(num - 1)%Z := kv.2]> m) kw_out nums)) m0
  = Ok m →
  ∀ j, m !! j = match entry_for items (j + 1) with
                | Some v => Some v
                | None => m0 !! j
                end.
Proof.
  revert m0. induction items as [|kv items IH]; intros m0; simpl.
  - by intros [= <-].
  - destruct (key_ids kv.1) as [ids|e] eqn:Hids; simpl; [|done].
    intros Hrest j. rewrite (IH _ Hrest j), foldl_insert_lookup.
    destruct (entry_for items (j + 1)); [done|].
    assert (holds kv.1 (j + 1) ↔ (j + 1)%Z ∈ ids) as Hholds
      by (unfold holds; by rewrite Hids).
    destruct (decide (holds kv.1 (j + 1))), (decide ((j + 1)%Z ∈ ids)); tauto.
Qed.

Lemma unfurl_lookup items m :
  unfurl items = Ok m → ∀ j, m !! j = entry_for items (j + 1).
Proof.
  intros Hm j. rewrite (unfurl_from_lookup items ∅ m Hm j), lookup_empty.
  by destruct (entry_for items (j + 1)).
Qed.

Lemma unfurl_total items :
  Forall (λ kv : pykey * pyval, numeric_key kv.1) items → ∃ m, unfurl items = Ok m.
Proof.
  unfold unfurl. generalize (∅ : gmap Z pyval).
  induction items as [|kv items IH]; intros m0 Hnum; simpl; [eauto|].
  apply Forall_cons in Hnum as [Hkv Hnum].
  destruct kv as [[n|ns|lo hi|s] v]; simpl in *; try done; by apply IH.
Qed.

Lemma elem_of_listed_axes (m : gmap Z pyval) (j : Z) :
  j ∈ listed_axes m ↔ is_Some (m !! (j - 1)%Z).
Proof.
  unfold listed_axes. rewrite list_elem_of_fmap. setoid_rewrite merge_sort_Permutation.
  setoid_rewrite elem_of_elements. setoid_rewrite elem_of_dom. split.
  - intros (i & -> & Hi). by replace (i + 1 - 1)%Z with i by lia.
  - intros Hj. exists (j - 1)%Z. split; [lia|done].
Qed.

Lemma axes_dict_of_mapping N items :
  axes_dict N (VDict items) false =
    (kw_out ← unfurl items;
     if decide (dom kw_out = list_to_set (seqZ 0 (Z.of_nat N))) then Ok kw_out
     else Raise (InvalidPropertySpec N (VDict items) (listed_axes kw_out))).
Proof. done. Qed.

(** C6 (as amended): a mapping from panel numbers, tuples or ranges of them
    to values is expanded to one entry per 0-based position, the entry of
    position p being the value of the last key that holds p+1.  When the
    numbers with an entry are exactly 1..N the expansion is returned; when
    some number of 1..N has no entry an InvalidPropertySpec is raised whose
    message lists the numbers that do have an entry, so not the absent
    ones. *)
Theorem axes_dict_expands_mapping (N : nat) (items : list (pykey * pyval)) :
  Forall (λ kv : pykey * pyval, numeric_key kv.1) items →
  ((∀ id, is_Some (entry_for items id) ↔ (1 ≤ id ≤ Z.of_nat N)%Z) →
     ∃ kw_out, axes_dict N (VDict items) false = Ok kw_out ∧
               ∀ p, kw_out !! p = entry_for items (p + 1)) ∧
  (∀ id, (1 ≤ id ≤ Z.of_nat N)%Z → entry_for items id = None →
     ∃ listed,
       axes_dict N (VDict items) false
       = Raise (InvalidPropertySpec N (VDict items) listed) ∧
       (∀ j, j ∈ listed ↔ is_Some (entry_for items j)) ∧
       id ∉ listed).
Proof.
  intros Hnum. destruct (unfurl_total items Hnum) as [m Hm].
  pose proof (unfurl_lookup items m Hm) as Hlk.
  rewrite axes_dict_of_mapping, Hm. simpl. split.
  - intros Hall. exists m. split; [|done].
    rewrite decide_True; [done|].
    apply set_eq. intros p.
    rewrite elem_of_dom, Hlk, Hall, elem_of_list_to_set, elem_of_seqZ. lia.
  - intros id Hid Hnone. exists (listed_axes m).
    assert (∀ j, j ∈ listed_axes m ↔ is_Some (entry_for items j)) as Hlisted.
    { intros j. rewrite elem_of_listed_axes, Hlk.
      by replace (j - 1 + 1)%Z with j by lia. }
    split; [|split; [done|]].
    + rewrite decide_False; [done|]. intros Hdom.
      assert ((id - 1)%Z ∈ dom m) as Hin.
      { rewrite Hdom, elem_of_list_to_set, elem_of_seqZ. lia. }
      apply elem_of_dom in Hin. rewrite Hlk in Hin.
      replace (id - 1 + 1)%Z with id in Hin by lia.
      rewrite Hnone in Hin. by destruct Hin.
    + rewrite Hlisted, Hnone. by intros [? ?].
Qed.

Lemma axes_dict_expands_mapping_witness :
  axes_dict 3 (VDict [(KInt 1, VStr "a"); (KTuple [2; 3]%Z, VStr "b")]) false
  = Ok (<[0%Z := VStr "a"]> (<[1%Z := VStr "b"]> (<[2%Z := VStr "b"]> ∅))) ∧
  axes_dict 3 (VDict [(KInt 1, VStr "a"); (KTuple [2]%Z, VStr "b")]) false
  = Raise (InvalidPropertySpec 3
             (VDict [(KInt 1, VStr "a"); (KTuple [2]%Z, VStr "b")]) [1; 2]%Z).
Proof.
  split.
  - destruct (axes_dict_expands_mapping 3
                [(KInt 1, VStr "a"); (KTuple [2; 3]%Z, VStr "b")]) as [Hok _].
    { repeat constructor. }
    destruct Hok as (m & -> & Hm).
    { intros id.
      destruct (decide (id = 1%Z)) as [->|?]; [vm_compute; split; [done|eauto]|].
      destruct (decide (id = 2%Z)) as [->|?]; [vm_compute; split; [done|eauto]|].
      destruct (decide (id = 3%Z)) as [->|?]; [vm_compute; split; [done|eauto]|].
      simpl. unfold holds. simpl.
      rewrite !decide_False; [split; [by intros [? ?]|lia]| |];
        rewrite ?elem_of_cons, elem_of_nil; lia. }
    f_equal. apply map_eq. intros p. rewrite Hm.
    destruct (decide (p = 0%Z)) as [->|?]; [done|].
    destruct (decide (p = 1%Z)) as [->|?]; [done|].
    destruct (decide (p = 2%Z)) as [->|?]; [done|].
    rewrite !lookup_insert_ne, lookup_empty by done.
    simpl. unfold holds. simpl.
    rewrite !decide_False; [done| |]; rewrite ?elem_of_cons, elem_of_nil; lia.
  - destruct (axes_dict_expands_mapping 3
                [(KInt 1, VStr "a"); (KTuple [2]%Z, VStr "b")]) as [_ Hraise].
    { repeat constructor. }
    destruct (Hraise 3%Z) as (listed & Heq & _); [lia|done|].
    rewrite Heq. vm_compute in Heq. by injection Heq as <-.
Defined.

(** C6 (as stated) fails: over three panels the mapping {1: 'a', 3: 'b'}
    leaves panel 2 without an entry, and the exception raised lists the
    panels 1 and 3 that have one; panel 2 is not named. *)
Lemma axes_dict_error_lists_present_ids :
  ∃ e, axes_dict 3 (VDict [(KInt 1, VStr "a"); (KInt 3, VStr "b")]) false = Raise e ∧
       ¬ names_axis e 2 ∧ names_axis e 1 ∧ names_axis e 3.
Proof.
  eexists. split; [vm_compute; reflexivity|]. simpl.
  rewrite !elem_of_cons, elem_of_nil. lia.
Qed.

(** ** Panel strips *)

Lemma strip_span_spec offset panels n :
  n ∈ panels →
  ∃ span, strip_span offset panels n = Ok span ∧ is_strip_span offset panels n span.
Proof.
  intros [j Hj]%list_elem_of_lookup. unfold strip_span.
  destruct (extent_spec offset (np_where (λ v, v = n) panels))
    as (lo & hi & Hext & Hlo & Hhi & Hall).
  { intros Hnil.
    assert (j ∈ np_where (λ v, v = n) panels) as Hin
      by (apply elem_of_np_where; eauto).
    rewrite Hnil in Hin. by apply elem_of_nil in Hin. }
  eexists. split; [exact Hext|]. exists lo, hi. split; [done|].
  apply elem_of_np_where in Hlo as (? & Hlo & ->).
  apply elem_of_np_where in Hhi as (? & Hhi & ->).
  repeat split; [done|done| |]; apply Hall, elem_of_np_where; eauto.
Qed.

Lemma paneladd_loop side offset panels labels axsp log :
  (∀ n, n ∈ labels → n ∈ panels) →
  ∃ spans,
    for_eachM labels (λ axsp n,
        idx ← lift (strip_span offset panels n);
        axp ← emit (AddPanel side idx);
        mret (axsp ++ [axp])) axsp log
    = (Ok (axsp ++ seq (length log) (length spans)), log ++ (AddPanel side <$> spans)) ∧
    Forall2 (is_strip_span offset panels) labels spans.
Proof.
  revert axsp log. induction labels as [|n labels IH]; intros axsp log Hin.
  - exists []. simpl. by rewrite !app_nil_r.
  - destruct (strip_span_spec offset panels n) as (span & Hspan & Hok);
      [apply Hin; by left|].
    destruct (IH (axsp ++ [length log]) (log ++ [AddPanel side span]))
      as (spans & Hloop & Hall); [intros m Hm; apply Hin; by right|].
    exists (span :: spans). split; [|by constructor].
    cbn [for_eachM]. unfold mbind, M_bind, lift, emit, mret, M_ret in *.
    rewrite Hspan, Hloop. rewrite length_app. simpl.
    rewrite <- !app_assoc. simpl. by rewrite Nat.add_1_r.
Qed.

(** C7 (as amended): for every non-empty array of labels the allocator
    requests one strip per distinct label, label 0 included when it occurs,
    in ascending order of the labels; the strip of a label spans
    [offset + min(index), offset + max(index) + 1) over the positions that
    bear it, where the offset is the column offset on the bottom edge and
    the row offset on the right and on the left edge.  An empty array
    requests nothing. *)
Theorem paneladd_one_strip_per_label
    (row_offset col_offset : Z) (name : panel_name) (panels : list Z) (log : list call) :
  panels ≠ [] →
  ∃ spans,
    paneladd row_offset col_offset name panels log
    = (Ok (), log ++ (AddPanel match name with
                               | bottompanel => bottom_side
                               | rightpanel => right_side
                               | leftpanel => left_side
                               end <$> spans)
                  ++ [SetPanels name (seq (length log) (length spans))]) ∧
    Forall2 (is_strip_span match name with
                           | bottompanel => col_offset
                           | rightpanel | leftpanel => row_offset
                           end panels)
            (np_unique panels) spans ∧
    StronglySorted Z.lt (np_unique panels) ∧
    (∀ n, n ∈ np_unique panels ↔ n ∈ panels) ∧
    paneladd row_offset col_offset name [] log = (Ok (), log).
Proof.
  intros Hne.
  destruct (paneladd_loop (side_of name)
              (strip_offset (side_of name) row_offset col_offset)
              panels (np_unique panels) [] log) as (spans & Hloop & Hall).
  { intros n. by rewrite elem_of_np_unique. }
  exists spans. split; [|split; [|split; [apply np_unique_sorted|split]]].
  - destruct panels as [|p panels]; [done|].
    unfold paneladd. unfold mbind at 1. unfold M_bind at 1.
    rewrite Hloop. unfold mbind, M_bind, emit, mret, M_ret. simpl.
    rewrite <- app_assoc. by destruct name.
  - by destruct name.
  - intros n. apply elem_of_np_unique.
  - done.
Qed.

Lemma paneladd_one_strip_per_label_witness :
  (∃ spans,
     paneladd 3 5 bottompanel [1; 1; 2]%Z []
     = (Ok (), (AddPanel bottom_side <$> spans) ++ [SetPanels bottompanel [0; 1]]) ∧
     spans = [(5, 7); (7, 8)]%Z) ∧
  (∃ spans,
     paneladd 3 5 rightpanel [1; 1; 2]%Z []
     = (Ok (), (AddPanel right_side <$> spans) ++ [SetPanels rightpanel [0; 1]]) ∧
     spans = [(3, 5); (5, 6)]%Z) ∧
  (∃ spans,
     paneladd 3 5 leftpanel [2; 1]%Z []
     = (Ok (), (AddPanel left_side <$> spans) ++ [SetPanels leftpanel [0; 1]]) ∧
     spans = [(4, 5); (3, 4)]%Z).
Proof.
  split; [|split].
  - destruct (paneladd_one_strip_per_label 3 5 bottompanel [1; 1; 2]%Z [])
      as (spans & Heq & _); [done|].
    exists spans.
    assert (spans = [(5, 7); (7, 8)]%Z) as ->.
    { vm_compute in Heq. injection Heq as Heq.
      destruct spans as [|s1 [|s2 [|s3 spans]]]; simpl in Heq; try done.
      by injection Heq as -> ->. }
    done.
  - destruct (paneladd_one_strip_per_label 3 5 rightpanel [1; 1; 2]%Z [])
      as (spans & Heq & _); [done|].
    exists spans.
    assert (spans = [(3, 5); (5, 6)]%Z) as ->.
    { vm_compute in Heq. injection Heq as Heq.
      destruct spans as [|s1 [|s2 [|s3 spans]]]; simpl in Heq; try done.
      by injection Heq as -> ->. }
    done.
  - destruct (paneladd_one_strip_per_label 3 5 leftpanel [2; 1]%Z [])
      as (spans & Heq & _); [done|].
    exists spans.
    assert (spans = [(4, 5); (3, 4)]%Z) as ->.
    { vm_compute in Heq. injection Heq as Heq.
      destruct spans as [|s1 [|s2 [|s3 spans]]]; simpl in Heq; try done.
      by injection Heq as -> ->. }
    done.
Defined.

(** C7 (as stated) fails: the labels [1,1,0,2] on the bottom edge with
    column offset 0 give three strips, the first of them for the label 0
    with span [2,3); the claim has two strips and none for 0. *)
Lemma paneladd_gives_label_zero_a_strip :
  strips (paneladd 0 0 bottompanel [1; 1; 0; 2]%Z []).2
    = [(2, 3); (0, 2); (3, 4)]%Z ∧
  strips (paneladd 0 0 bottompanel [1; 1; 0; 2]%Z []).2 ≠ [(0, 2); (3, 4)]%Z.
Proof. by split. Qed.

(** ** The collection of handles *)

Lemma forallb_true_Forall {A} (f : A → bool) (l : list A) :
  forallb f l = true ↔ Forall (λ x, f x = true) l.
Proof.
  induction l as [|x l IH]; simpl; [by split|].
  rewrite andb_true_iff, IH, Forall_cons. done.
Qed.

Section broadcast_facts.
Context {Args Val World : Type}.
Implicit Types (self : list (axes_list.axes Args Val World)) (attr : string).


Lemma fanned_out_total self attr (args : Args) :
  Forall (λ ax, ∃ f, ax attr = axes_list.AttrCallable f ∧
                     ∀ w, ∃ res w', f args w = (Ok res, w')) self →
  ∀ w, ∃ ress w', axes_list.fanned_out attr args self w ress w' ∧
                  length ress = length self.
Proof.
  induction 1 as [|ax self (f & Hax & Hf) _ IH]; intros w.
  - exists [], w. split; [constructor|done].
  - destruct (Hf w) as (res & w1 & Hres).
    destruct (IH w1) as (ress & w2 & Hfan & Hlen).
    exists (res :: ress), w2. split; [by econstructor|]. simpl. by rewrite Hlen.
Qed.

Lemma contains_none_callable (values : list (axes_list.attribute Args Val World)) :
  forallb axes_list.callable values = true →
  axes_list.contains_none values = Ok false.
Proof.
  induction values as [|[|f|v c] values IH]; simpl; try done.
Qed.


End broadcast_facts.



Lemma slice_positions_in_range (len : Z) start stop step ps p :
  (0 ≤ len)%Z →
  axes_list.slice_positions len start stop step = Ok ps →
  p ∈ ps → (0 ≤ p < len)%Z.
Proof.
  intros Hlen. unfold axes_list.slice_positions.
  set (st := default 1%Z step).
  case_decide as Hz; [done|]. intros [= <-].
  intros (k & -> & Hk%elem_of_seqZ)%list_elem_of_fmap.
  unfold axes_list.slice_length, axes_list.adjust in *.
  destruct start as [s|], stop as [e|];
    repeat case_decide; try lia;
    match type of Hk with
    | context [(?a / ?b)%Z] =>
        pose proof (Z.mul_div_le a b ltac:(lia)); nia
    end.
Qed.

Lemma omap_lookup_Forall2 {A} (self : list A) (ps : list Z) :
  (∀ p, p ∈ ps → (0 ≤ p < Z.of_nat (length self))%Z) →
  Forall2 (λ p ax, self !! Z.to_nat p = Some ax) ps
          (omap (λ p, self !! Z.to_nat p) ps).
Proof.
  induction ps as [|p ps IH]; intros Hin; simpl; [constructor|].
  destruct (lookup_lt_is_Some_2 self (Z.to_nat p)) as [ax Hax].
  { specialize (Hin p ltac:(by left)). lia. }
  rewrite Hax. constructor; [done|]. apply IH. intros q Hq. apply Hin. by right.
Qed.

(** C10: indexing a collection with a slice (of non-zero step, which is
    what a list accepts) returns an axes_list again, made of the members at
    the positions of the slice; indexing with an integer within range
    returns the member itself.  A plain list is never returned. *)
Theorem getitem_slice_is_axes_list {A : Type} (self : list A) :
  (∀ start stop step,
     default 1%Z step ≠ 0%Z →
     ∃ ps axs,
       axes_list.slice_positions (Z.of_nat (length self)) start stop step = Ok ps ∧
       axes_list.getitem self (axes_list.ISlice start stop step)
       = Ok (axes_list.AxesList axs) ∧
       Forall2 (λ p ax, self !! Z.to_nat p = Some ax) ps axs) ∧
  (∀ i,
     (- Z.of_nat (length self) ≤ i < Z.of_nat (length self))%Z →
     ∃ ax,
       axes_list.getitem self (axes_list.IInt i) = Ok (axes_list.Element ax) ∧
       self !! Z.to_nat (i `mod` Z.of_nat (length self)) = Some ax) ∧
  (∀ key r axs, axes_list.getitem self key = Ok r → r ≠ axes_list.PlainList axs).
Proof.
  split; [|split].
  - intros start stop step Hstep.
    destruct (axes_list.slice_positions (Z.of_nat (length self)) start stop step)
      as [ps|e] eqn:Hps.
    + exists ps, (omap (λ p, self !! Z.to_nat p) ps). split; [done|]. split.
      * unfold axes_list.getitem, axes_list.list_getitem. by rewrite Hps.
      * apply omap_lookup_Forall2. intros p Hp.
        eapply slice_positions_in_range; [|exact Hps|exact Hp]. lia.
    + unfold axes_list.slice_positions in Hps. by rewrite decide_False in Hps.
  - intros i Hi.
    set (len := Z.of_nat (length self)) in *.
    set (i' := if decide (i < 0)%Z then (i + len)%Z else i).
    assert (0 ≤ i' < len)%Z as Hi' by (unfold i'; case_decide; lia).
    assert (i `mod` len = i')%Z as ->.
    { unfold i'. case_decide.
      - replace i with (i + len + (-1) * len)%Z at 1 by lia.
        rewrite Z.mod_add by lia. apply Z.mod_small. lia.
      - apply Z.mod_small. lia. }
    destruct (lookup_lt_is_Some_2 self (Z.to_nat i')) as [ax Hax]; [lia|].
    exists ax. split; [|done].
    unfold axes_list.getitem, axes_list.list_getitem.
    fold len. fold i'. rewrite decide_True by lia. by rewrite Hax.
  - intros key r axs. unfold axes_list.getitem.
    destruct (axes_list.list_getitem self key) as [it|e] eqn:Hit; simpl; [|done].
    destruct key as [i|start stop step].
    + intros [= <-] ->. unfold axes_list.list_getitem in Hit.
      case_decide; [|done]. by destruct (self !! _).
    + destruct it; intros [= <-]; done.
Qed.

Lemma getitem_slice_is_axes_list_witness :
  axes_list.getitem [10; 20; 30; 40] (axes_list.ISlice (Some 1%Z) (Some 3%Z) None)
  = Ok (axes_list.AxesList [20; 30]) ∧
  axes_list.getitem [10; 20; 30; 40] (axes_list.ISlice None None (Some (-1)%Z))
  = Ok (axes_list.AxesList [40; 30; 20; 10]) ∧
  axes_list.getitem [10; 20; 30; 40] (axes_list.IInt (-1))
  = Ok (axes_list.Element 40).
Proof.
  destruct (getitem_slice_is_axes_list [10; 20; 30; 40]) as (Hslice & Hint & _).
  split; [|split].
  - destruct (Hslice (Some 1%Z) (Some 3%Z) None) as (ps & axs & _ & Heq & _); [done|].
    rewrite Heq. vm_compute in Heq. by injection Heq as <-.
  - destruct (Hslice None None (Some (-1)%Z)) as (ps & axs & _ & Heq & _); [done|].
    rewrite Heq. vm_compute in Heq. by injection Heq as <-.
  - destruct (Hint (-1)%Z) as (ax & Heq & _); [simpl; lia|].
    rewrite Heq. vm_compute in Heq. by injection Heq as <-.
Defined.

(** ** The check after drawing *)



(** ** The grouping loop *)

Lemma take_at_total {A} (a : list A) (idx : list nat) :
  (∀ i, i ∈ idx → i < length a) →
  ∃ ys, take_at a idx = Ok ys ∧ length ys = length idx ∧
        ∀ p i, idx !! p = Some i → ys !! p = a !! i.
Proof.
  intros Hin. unfold take_at.
  destruct (map_res_total (getitem_nat a) idx) as [ys Hys].
  { intros i Hi. unfold getitem_nat.
    destruct (lookup_lt_is_Some_2 a i (Hin i Hi)) as [x ->]. eauto. }
  exists ys. split; [done|].
  destruct (map_res_lookup _ _ _ Hys) as [Hlen Hlk]. split; [done|].
  intros p i Hp. destruct (Hlk p i Hp) as (y & -> & Hy).
  unfold getitem_nat in Hy. destruct (a !! i); by inversion Hy.
Qed.

Lemma np_where_lt {A} (P : A → Prop) `{!∀ x, Decision (P x)} (l : list A) j :
  j ∈ np_where P l → j < length l.
Proof. intros (x & Hx & _)%elem_of_np_where. by eapply lookup_lt_Some. Qed.

Section grouping_facts.
Variables (ext : list (Z * Z)) (keys : list Z).
Variables (pick : list Z → res nat) (order : list Z → list nat).
Hypothesis keys_length : length keys = length ext.
Hypothesis pick_ok : ∀ ks, ks ≠ [] → ∃ k, pick ks = Ok k ∧ k < length ks.
Hypothesis order_ok : ∀ ks k, k ∈ order ks → k < length ks.

Lemma group_record_total e :
  1 < length (np_where (λ e', e' = e) ext) →
  ∃ ks k b srt,
    take_at keys (np_where (λ e', e' = e) ext) = Ok ks ∧ pick ks = Ok k ∧
    getitem_nat (np_where (λ e', e' = e) ext) k = Ok b ∧
    take_at (np_where (λ e', e' = e) ext) (order ks) = Ok srt ∧
    group_record ext keys pick order (np_where (λ e', e' = e) ext) b srt.
Proof.
  set (g := np_where (λ e', e' = e) ext). intros Hg.
  destruct (take_at_total keys g) as (ks & Hks & Hkslen & _).
  { intros j Hj%np_where_lt. lia. }
  destruct (pick_ok ks) as (k & Hk & Hklt).
  { intros ->. simpl in Hkslen. lia. }
  destruct (lookup_lt_is_Some_2 g k) as [b Hb]; [lia|].
  destruct (take_at_total g (order ks)) as (srt & Hsrt & _).
  { intros p Hp%order_ok. lia. }
  exists ks, k, b, srt. unfold getitem_nat. rewrite Hb.
  repeat (split; [done|]). by exists e, ks, k.
Qed.

Lemma group_step_inv i st :
  i < length ext →
  grouping_inv ext keys pick order i st →
  ∃ st', group_step ext keys pick order st i = Ok st' ∧
         grouping_inv ext keys pick order (S i) st'.
Proof.
  intros Hi (Hgrouped & Hrec & Hsub & Hdisj & Hall).
  destruct (lookup_lt_is_Some_2 ext i Hi) as [e He].
  unfold group_step.
  assert (getitem_nat ext i = Ok e) as -> by (unfold getitem_nat; by rewrite He).
  cbn [mbind res_bind].
  pose (m := np_where (λ e', e' = e) ext).
  assert (∀ j, j ∈ m ↔ ext !! j = Some e) as Hm.
  { intros j. unfold m. rewrite elem_of_np_where. split.
    - by intros (? & ? & ->).
    - eauto. }
  assert (∀ g' j, j ∈ g' ++ m ↔
            j ∈ g' ∨ ∃ e', ext !! i = Some e' ∧ ext !! j = Some e') as Happ.
  { intros g' j. rewrite elem_of_app, Hm. split; intros [?|H]; eauto.
    - right. destruct H as (e' & He' & ?). congruence. }
  assert (∀ g', (∀ j, j ∈ g' ↔ ∃ i' e, i' < i ∧ ext !! i' = Some e ∧ ext !! j = Some e) →
     ∀ j, j ∈ g' ++ m ↔ ∃ i' e, i' < S i ∧ ext !! i' = Some e ∧ ext !! j = Some e)
    as Hnext.
  { intros g' Hg' j. rewrite Happ, Hg'. split.
    - intros [(i' & e' & ? & ? & ?)|(e' & ? & ?)].
      + exists i', e'. split; [lia|done].
      + exists i, e'. split; [lia|done].
    - intros (i' & e' & Hlt & ? & ?).
      destruct (decide (i' = i)) as [->|]; [right; eauto|].
      left. exists i', e'. split; [lia|done]. }
  case_decide as Hnew.
  - destruct Hnew as [Hfresh Hmany].
    destruct (group_record_total e Hmany) as (ks & k & b & srt & H1 & H2 & H3 & H4 & Hr).
    rewrite H1; cbn [mbind res_bind]. rewrite H2; cbn [mbind res_bind].
    rewrite H3; cbn [mbind res_bind]. rewrite H4; cbn [mbind res_bind].
    eexists. split; [done|].
    split; [|split; [|split; [|split]]]; simpl.
    + by apply Hnext.
    + apply Forall3_app; [done|]. by repeat constructor.
    + intros g j [Hg| ->%list_elem_of_singleton]%elem_of_app Hj.
      * apply elem_of_app. left. by eapply Hsub.
      * apply elem_of_app. by right.
    + assert (∀ g j, g ∈ groups st → j ∈ g → j ∈ m → False) as Hold.
      { intros g j Hg Hj Hjm. apply Hfresh, Hgrouped.
        apply (Hsub g j Hg), Hgrouped in Hj as (i' & e' & ? & ? & He').
        apply Hm in Hjm. exists i', e'. split; [done|]. split; [done|]. congruence. }
      intros k1 k2 g1 g2 j Hk1 Hk2 Hj1 Hj2.
      apply lookup_app_Some in Hk1 as [Hk1|[Hge1 Hk1]];
        apply lookup_app_Some in Hk2 as [Hk2|[Hge2 Hk2]].
      * by eapply Hdisj.
      * apply list_lookup_singleton_Some in Hk2 as [_ <-].
        destruct (Hold g1 j); [by eapply list_elem_of_lookup_2|done|done].
      * apply list_lookup_singleton_Some in Hk1 as [_ <-].
        destruct (Hold g2 j); [by eapply list_elem_of_lookup_2|done|done].
      * apply list_lookup_singleton_Some in Hk1 as [? _].
        apply list_lookup_singleton_Some in Hk2 as [? _]. lia.
    + intros i' e' Hlt He' Hmany'. apply elem_of_app.
      destruct (decide (i' = i)) as [->|].
      * right. apply list_elem_of_singleton.
        assert (e' = e) as -> by congruence. done.
      * left. apply Hall with i'; [lia|done|done].
  - simpl. eexists. split; [done|].
    split; [|split; [|split; [|split]]]; simpl; [by apply Hnext|done| |done|].
    + intros g j Hg Hj. apply elem_of_app. left. by eapply Hsub.
    + intros i' e' Hlt He' Hmany'.
      destruct (decide (i' = i)) as [->|]; [|apply Hall with i'; [lia|done|done]].
      assert (e' = e) as -> by congruence.
      destruct (decide (i ∈ grouped st)) as [Hin|Hout]; [|by destruct Hnew].
      apply Hgrouped in Hin as (i'' & e'' & ? & ? & ?).
      assert (e'' = e) as -> by congruence.
      by apply Hall with i''.
Qed.

Lemma group_loop_from_inv i count st :
  i + count ≤ length ext →
  grouping_inv ext keys pick order i st →
  ∃ st', for_each (seq i count) (group_step ext keys pick order) st = Ok st' ∧
         grouping_inv ext keys pick order (i + count) st'.
Proof.
  revert i st. induction count as [|count IH]; intros i st Hle Hinv; simpl.
  - exists st. by rewrite Nat.add_0_r.
  - destruct (group_step_inv i st) as (st1 & -> & Hinv1); [lia|done|]. simpl.
    destruct (IH (S i) st1) as (st' & -> & Hinv'); [lia|done|].
    exists st'. split; [done|]. by replace (i + S count) with (S i + count) by lia.
Qed.

Lemma group_loop_inv :
  ∃ st, group_loop (length ext) ext keys pick order = Ok st ∧
        grouping_inv ext keys pick order (length ext) st.
Proof.
  apply (group_loop_from_inv 0 (length ext) no_groups); [lia|].
  split; [|split; [|split; [|split]]]; simpl.
  - intros j. split; [by intros ?%elem_of_nil|]. intros (? & ? & ? & _). lia.
  - constructor.
  - by intros g j ?%elem_of_nil.
  - intros k1 k2 g1 g2 j. by rewrite lookup_nil.
  - intros. lia.
Qed.
End grouping_facts.

(** ** The choice of the base *)

Lemma argmax_from_spec (l pre : list Z) best besti :
  pre !! besti = Some best →
  (∀ j y, pre !! j = Some y → (y ≤ best)%Z ∧ (y = best → besti ≤ j)) →
  ∃ m, (pre ++ l) !! argmax_from best besti (length pre) l = Some m ∧
       ∀ j y, (pre ++ l) !! j = Some y →
              (y ≤ m)%Z ∧ (y = m → argmax_from best besti (length pre) l ≤ j).
Proof.
  revert pre best besti. induction l as [|x l IH]; intros pre best besti Hb Hpre; simpl.
  - rewrite app_nil_r. eauto.
  - pose proof (lookup_lt_Some _ _ _ Hb) as Hlt.
    replace (pre ++ x :: l) with ((pre ++ [x]) ++ l) by by rewrite <- app_assoc.
    replace (S (length pre)) with (length (pre ++ [x]))
      by (rewrite length_app; simpl; lia).
    assert (∀ j y, (pre ++ [x]) !! j = Some y →
              j < length pre ∧ pre !! j = Some y ∨ j = length pre ∧ y = x) as Hsplit.
    { intros j y [?|[? Hj]]%lookup_app_Some.
      - left. split; [by eapply lookup_lt_Some|done].
      - apply list_lookup_singleton_Some in Hj as [? <-]. right. split; [lia|done]. }
    case_decide as Hx; apply IH.
    + replace (length pre) with (length pre + 0) at 1 by lia.
      by rewrite lookup_app_r, Nat.add_comm, Nat.add_sub by lia.
    + intros j y [[Hj Hy]|[-> ->]]%Hsplit; [|lia].
      destruct (Hpre j y Hy). lia.
    + by rewrite lookup_app_l.
    + intros j y [[Hj Hy]|[-> ->]]%Hsplit; [by apply Hpre|lia].
Qed.

Lemma np_argmax_spec (l : list Z) k :
  np_argmax l = Ok k →
  ∃ m, l !! k = Some m ∧ ∀ j y, l !! j = Some y → (y ≤ m)%Z ∧ (y = m → k ≤ j).
Proof.
  destruct l as [|x l]; simpl; [done|]. intros [= <-].
  apply (argmax_from_spec l [x] x 0); [done|].
  intros [|j] y; simpl; [|by rewrite lookup_nil]. intros [= ->]. split; [lia|lia].
Qed.

Lemma argmin_from_argmax l best besti k :
  argmin_from best besti k l = argmax_from (- best) besti k (Z.opp <$> l).
Proof.
  revert best besti k. induction l as [|x l IH]; intros best besti k; simpl; [done|].
  repeat case_decide; try lia; apply IH.
Qed.

Lemma np_argmin_spec (l : list Z) k :
  np_argmin l = Ok k →
  ∃ m, l !! k = Some m ∧ ∀ j y, l !! j = Some y → (m ≤ y)%Z ∧ (y = m → k ≤ j).
Proof.
  intros Hk.
  assert (np_argmax (Z.opp <$> l) = Ok k) as Hmax.
  { destruct l as [|x l]; simpl in *; [done|]. by rewrite <- argmin_from_argmax. }
  apply np_argmax_spec in Hmax as (m & Hm & Hall).
  rewrite list_lookup_fmap in Hm.
  destruct (l !! k) as [m'|] eqn:Hm'; simpl in Hm; [|done]. injection Hm as <-.
  exists m'. split; [done|]. intros j y Hy.
  destruct (Hall j (- y)%Z) as [? ?]; [by rewrite list_lookup_fmap, Hy|].
  split; [lia|]. intros ->. auto.
Qed.

Lemma np_argmax_total (ks : list Z) :
  ks ≠ [] → ∃ k, np_argmax ks = Ok k ∧ k < length ks.
Proof.
  destruct ks as [|x ks]; [done|]. intros _. eexists. split; [done|].
  destruct (np_argmax_spec (x :: ks) _ eq_refl) as (m & Hm & _).
  by eapply lookup_lt_Some.
Qed.

Lemma np_argmin_total (ks : list Z) :
  ks ≠ [] → ∃ k, np_argmin ks = Ok k ∧ k < length ks.
Proof.
  destruct ks as [|x ks]; [done|]. intros _. eexists. split; [done|].
  destruct (np_argmin_spec (x :: ks) _ eq_refl) as (m & Hm & _).
  by eapply lookup_lt_Some.
Qed.

Lemma take_at_lookup {A} (a : list A) (idx : list nat) ys :
  take_at a idx = Ok ys →
  ∀ p i, idx !! p = Some i → ∃ y, ys !! p = Some y ∧ a !! i = Some y.
Proof.
  intros Hys p i Hp.
  destruct (map_res_lookup _ _ _ Hys) as [_ Hlk].
  destruct (Hlk p i Hp) as (y & Hy & Hget). exists y. split; [done|].
  unfold getitem_nat in Hget. destruct (a !! i); by inversion Hget.
Qed.

Lemma sorted_lookup_le (g : list nat) k p b j :
  StronglySorted lt g → g !! k = Some b → g !! p = Some j → k ≤ p → b ≤ j.
Proof.
  intros Hs. revert k p. induction Hs as [|x g _ IH Hall]; intros k p Hk Hp Hle.
  - by rewrite lookup_nil in Hk.
  - destruct k as [|k], p as [|p]; simpl in *; try lia.
    + injection Hk as <-. injection Hp as <-. lia.
    + injection Hk as <-. eapply Forall_forall in Hall;
        [|by eapply list_elem_of_lookup_2]. lia.
    + eapply IH; [done|done|lia].
Qed.

Lemma group_record_members ext keys pick order g b srt :
  group_record ext keys pick order g b srt → recorded_group ext g.
Proof.
  intros (e & ks & k & -> & Hlen & _). split; [done|].
  split; [apply np_where_sorted|]. exists e. intros j.
  rewrite elem_of_np_where. split; [by intros (? & ? & ->)|eauto].
Qed.

(** The member picked by the first extreme key, in terms of the keys of the
    panels. *)
Lemma group_record_base ext keys pick order g b srt (le : Z → Z → Prop) :
  (∀ ks k, pick ks = Ok k →
     ∃ m, ks !! k = Some m ∧ ∀ j y, ks !! j = Some y → le y m ∧ (y = m → k ≤ j)) →
  group_record ext keys pick order g b srt →
  b ∈ g ∧ ∃ kb, keys !! b = Some kb ∧
    ∀ j kj, j ∈ g → keys !! j = Some kj → le kj kb ∧ (kj = kb → b ≤ j).
Proof.
  intros Hpick (e & ks & k & -> & _ & Hks & Hk & Hb & _).
  set (g := np_where (λ e', e' = e) ext) in *.
  split; [by eapply list_elem_of_lookup_2|].
  destruct (Hpick ks k Hk) as (m & Hm & Hall).
  destruct (take_at_lookup _ _ _ Hks k b Hb) as (y & Hy & Hkb).
  assert (y = m) as -> by congruence.
  exists m. split; [done|].
  intros j kj [p Hp]%list_elem_of_lookup Hkj.
  destruct (take_at_lookup _ _ _ Hks p j Hp) as (y & Hy' & Hkj').
  assert (y = kj) as -> by congruence.
  destruct (Hall p kj Hy') as [Hle Hfirst]. split; [done|].
  intros Heq.
  eapply (sorted_lookup_le g); [apply np_where_sorted|exact Hb|exact Hp|auto].
Qed.

Lemma Forall3_Forall2_lm {A B C} (P : A → B → C → Prop) (Q : A → B → Prop) l k k' :
  (∀ x y z, P x y z → Q x y) → Forall3 P l k k' → Forall2 Q l k.
Proof. intros HPQ. induction 1; constructor; eauto. Qed.

Lemma Forall3_Forall2_lr {A B C} (P : A → B → C → Prop) (Q : A → C → Prop) l k k' :
  (∀ x y z, P x y z → Q x z) → Forall3 P l k k' → Forall2 Q l k'.
Proof. intros HPQ. induction 1; constructor; eauto. Qed.

Lemma Forall3_Forall_l {A B C} (P : A → B → C → Prop) (Q : A → Prop) l k k' :
  (∀ x y z, P x y z → Q x) → Forall3 P l k k' → Forall Q l.
Proof. intros HPQ. induction 1; constructor; eauto. Qed.

Lemma recorded_group_not_singleton ext grps :
  Forall (recorded_group ext) grps → singletons_unrecorded ext grps.
Proof.
  intros Hall i e He Huniq g Hg Hi.
  eapply Forall_forall in Hall as (Hlen & Hsorted & e' & Hmem); [|exact Hg].
  assert (e' = e) as -> by (apply Hmem in Hi; congruence).
  destruct g as [|x [|y g]]; simpl in Hlen; [lia|lia|].
  assert (x = i) as -> by (apply Huniq, Hmem; by left).
  assert (y = i) as -> by (apply Huniq, Hmem; right; by left).
  apply StronglySorted_inv in Hsorted as [_ Hlt].
  apply Forall_cons in Hlt as [? _]. lia.
Qed.

(** ** The sorted order *)

Lemma insert_by_key_perm p l : insert_by_key p l ≡ₚ p :: l.
Proof.
  induction l as [|q l IH]; simpl; [done|].
  case_decide; [done|]. rewrite IH. apply Permutation_swap.
Qed.

Lemma np_argsort_perm (ks : list Z) : np_argsort ks ≡ₚ seq 0 (length ks).
Proof.
  unfold np_argsort.
  assert (∀ ps, foldr insert_by_key [] ps ≡ₚ ps) as Hperm.
  { induction ps as [|p ps IH]; simpl; [done|].
    by rewrite insert_by_key_perm, IH. }
  rewrite Hperm. rewrite snd_zip; [done|]. by rewrite length_seq.
Qed.

Lemma np_argsort_lt (ks : list Z) k : k ∈ np_argsort ks → k < length ks.
Proof. rewrite np_argsort_perm. intros ?%elem_of_seq. lia. Qed.

Lemma reverse_np_argsort_lt (ks : list Z) k :
  k ∈ reverse (np_argsort ks) → k < length ks.
Proof. rewrite elem_of_reverse. apply np_argsort_lt. Qed.

Lemma insert_by_key_sorted p l :
  StronglySorted key_le l → StronglySorted key_le (insert_by_key p l).
Proof.
  induction 1 as [|q l Hs IH Hall]; simpl; [repeat constructor|].
  case_decide as Hpq.
  - constructor; [by constructor|]. constructor; [done|].
    eapply Forall_impl; [exact Hall|]. unfold key_le. simpl. lia.
  - constructor; [done|]. apply Forall_forall. intros x Hx.
    rewrite insert_by_key_perm in Hx. apply elem_of_cons in Hx as [->|Hx].
    + unfold key_le. lia.
    + by eapply Forall_forall in Hall.
Qed.

Lemma sorted_pairs (ks : list Z) :
  StronglySorted key_le (foldr insert_by_key [] (zip ks (seq 0 (length ks)))) ∧
  ∀ v i, (v, i) ∈ foldr insert_by_key [] (zip ks (seq 0 (length ks))) →
         ks !! i = Some v.
Proof.
  split.
  - induction (zip ks (seq 0 (length ks))) as [|p ps IH]; simpl; [constructor|].
    by apply insert_by_key_sorted.
  - intros v i Hin.
    assert (∀ ps, foldr insert_by_key [] ps ≡ₚ ps) as Hperm.
    { induction ps as [|p ps IH]; simpl; [done|].
      by rewrite insert_by_key_perm, IH. }
    rewrite Hperm in Hin. apply list_elem_of_lookup in Hin as [p Hp].
    apply lookup_zip_with_Some in Hp as (x & y & [= -> ->] & Hx & Hy).
    apply lookup_seq in Hy as [-> _]. done.
Qed.

Lemma strongly_sorted_lookup {A} (R : A → A → Prop) l p q x y :
  StronglySorted R l → p < q → l !! p = Some x → l !! q = Some y → R x y.
Proof.
  intros Hs. revert p q. induction Hs as [|z l _ IH Hall]; intros p q Hpq Hp Hq.
  - by rewrite lookup_nil in Hp.
  - destruct p as [|p], q as [|q]; simpl in *; try lia.
    + injection Hp as <-. eapply Forall_forall in Hall; [exact Hall|].
      by eapply list_elem_of_lookup_2.
    + eapply IH; [|done|done]. lia.
Qed.

Lemma np_argsort_sorted (ks : list Z) p q i j vi vj :
  p ≤ q → np_argsort ks !! p = Some i → np_argsort ks !! q = Some j →
  ks !! i = Some vi → ks !! j = Some vj → (vi ≤ vj)%Z.
Proof.
  unfold np_argsort. rewrite !list_lookup_fmap.
  destruct (sorted_pairs ks) as [Hsorted Hin].
  intros Hpq Hp Hq Hi Hj.
  destruct (_ !! p) as [[v1 i1]|] eqn:Hp'; simpl in Hp; [|done].
  destruct (_ !! q) as [[v2 i2]|] eqn:Hq'; simpl in Hq; [|done].
  injection Hp as ->. injection Hq as ->.
  pose proof (Hin v1 i (list_elem_of_lookup_2 _ _ _ Hp')) as Hv1.
  pose proof (Hin v2 j (list_elem_of_lookup_2 _ _ _ Hq')) as Hv2.
  assert (v1 = vi) as -> by congruence. assert (v2 = vj) as -> by congruence.
  destruct (decide (p = q)) as [->|Hne].
  - rewrite Hp' in Hq'. injection Hq' as -> _. lia.
  - eapply (strongly_sorted_lookup key_le _ p q (vi, i) (vj, j));
      [exact Hsorted|lia|exact Hp'|exact Hq'].
Qed.

Lemma reverse_np_argsort_sorted (ks : list Z) p q i j (vi vj : Z) :
  p ≤ q → reverse (np_argsort ks) !! p = Some i →
  reverse (np_argsort ks) !! q = Some j →
  ks !! i = Some vi → ks !! j = Some vj → (vj ≤ vi)%Z.
Proof.
  intros Hpq [Hp ?]%reverse_lookup_Some [Hq ?]%reverse_lookup_Some Hi Hj.
  eapply np_argsort_sorted; [|exact Hq|exact Hp|done|done]. lia.
Qed.

Lemma take_at_perm (g : list nat) idx srt :
  take_at g idx = Ok srt → idx ≡ₚ seq 0 (length g) → srt ≡ₚ g.
Proof.
  intros Hsrt Hperm.
  assert (srt = (λ i, g !!! i) <$> idx) as ->.
  { destruct (map_res_lookup _ _ _ Hsrt) as [Hlen _].
    apply list_eq. intros k. rewrite list_lookup_fmap.
    destruct (idx !! k) as [i|] eqn:Hk; simpl.
    - destruct (take_at_lookup _ _ _ Hsrt k i Hk) as (y & -> & Hy).
      by rewrite (list_lookup_total_correct _ _ _ Hy).
    - apply lookup_ge_None. apply lookup_ge_None in Hk. lia. }
  rewrite Hperm.
  assert ((λ i, g !!! i) <$> seq 0 (length g) = g) as ->; [|done].
  apply list_eq. intros k.
  rewrite list_lookup_fmap.
  destruct (decide (k < length g)) as [Hk|Hk].
  - rewrite lookup_seq_lt by done. simpl.
    destruct (lookup_lt_is_Some_2 g k Hk) as [x Hx].
    by rewrite Hx, (list_lookup_total_correct _ _ _ Hx).
  - rewrite lookup_seq_ge by lia. simpl. symmetry. apply lookup_ge_None. lia.
Qed.

Lemma group_record_sorted ext keys pick order g b srt (le : Z → Z → Prop) :
  (∀ ks, order ks ≡ₚ seq 0 (length ks)) →
  (∀ ks p q i j vi vj,
     p ≤ q → order ks !! p = Some i → order ks !! q = Some j →
     ks !! i = Some vi → ks !! j = Some vj → le vi vj) →
  group_record ext keys pick order g b srt → sorted_members le keys g srt.
Proof.
  intros Hperm Hord (e & ks & k & -> & _ & Hks & _ & _ & Hsrt).
  set (g := np_where (λ e', e' = e) ext) in *.
  destruct (map_res_lookup _ _ _ Hks) as [Hkslen _].
  destruct (map_res_lookup _ _ _ Hsrt) as [Hsrtlen _].
  split.
  { eapply take_at_perm; [exact Hsrt|]. rewrite Hperm. by rewrite Hkslen. }
  assert (∀ p j kj, srt !! p = Some j → keys !! j = Some kj →
            ∃ i, order ks !! p = Some i ∧ ks !! i = Some kj) as Hback.
  { intros p j kj Hp Hkj.
    destruct (lookup_lt_is_Some_2 (order ks) p) as [i Hi].
    { rewrite <- Hsrtlen. by eapply lookup_lt_Some. }
    exists i. split; [done|].
    destruct (take_at_lookup _ _ _ Hsrt p i Hi) as (y & Hy & Hgi).
    assert (y = j) as -> by congruence.
    destruct (take_at_lookup _ _ _ Hks i j Hgi) as (y & Hy' & Hkj').
    congruence. }
  intros p q i j ki kj Hpq Hp Hq Hki Hkj.
  destruct (Hback p i ki Hp Hki) as (i' & Hi' & Hki').
  destruct (Hback q j kj Hq Hkj) as (j' & Hj' & Hkj').
  by eapply (Hord ks p q i' j').
Qed.

(** ** The groups of a layout *)

Lemma extent_tables_length a N row_offset col_offset yrange xrange :
  enforce_rule a = Ok N →
  yrange_of row_offset a = Ok yrange → xrange_of col_offset a = Ok xrange →
  length yrange = N ∧ length xrange = N.
Proof.
  intros Hv Hy Hx.
  destruct (range_of_valid fst row_offset a N Hv) as (yr & Hy' & ? & _).
  destruct (range_of_valid snd col_offset a N Hv) as (xr & Hx' & ? & _).
  unfold yrange_of in Hy. unfold xrange_of in Hx.
  rewrite Hy in Hy'. rewrite Hx in Hx'. injection Hy' as <-. injection Hx' as <-.
  done.
Qed.

(** What one grouping loop returns, for any two tables of equal length. *)
Lemma group_loop_groups ext keys pick order (le le' : Z → Z → Prop) :
  length keys = length ext →
  (∀ ks, ks ≠ [] → ∃ k, pick ks = Ok k ∧ k < length ks) →
  (∀ ks k, pick ks = Ok k →
     ∃ m, ks !! k = Some m ∧ ∀ j y, ks !! j = Some y → le y m ∧ (y = m → k ≤ j)) →
  (∀ ks, order ks ≡ₚ seq 0 (length ks)) →
  (∀ ks p q i j vi vj,
     p ≤ q → order ks !! p = Some i → order ks !! q = Some j →
     ks !! i = Some vi → ks !! j = Some vj → le' vi vj) →
  ∃ st,
    group_loop (length ext) ext keys pick order = Ok st ∧
    Forall (recorded_group ext) (groups st) ∧
    Forall2 (λ g b, b ∈ g ∧ ∃ kb, keys !! b = Some kb ∧
               ∀ j kj, j ∈ g → keys !! j = Some kj → le kj kb ∧ (kj = kb → b ≤ j))
            (groups st) (groups_base st) ∧
    Forall2 (sorted_members le' keys) (groups st) (groups_sorted st) ∧
    pairwise_disjoint (groups st) ∧
    singletons_unrecorded ext (groups st) ∧
    (∀ i e, ext !! i = Some e → 1 < length (np_where (λ e', e' = e) ext) →
            np_where (λ e', e' = e) ext ∈ groups st).
Proof.
  intros Hlen Hpick Hspec Hperm Hord.
  destruct (group_loop_inv ext keys pick order Hlen Hpick)
    as (st & Hst & _ & Hrec & _ & Hdisj & Hall).
  { intros ks k. rewrite Hperm. intros ?%elem_of_seq. lia. }
  exists st. split; [done|].
  assert (Forall (recorded_group ext) (groups st)) as Hgroups.
  { eapply Forall3_Forall_l; [|exact Hrec]. intros g b srt.
    apply group_record_members. }
  split; [done|]. split.
  { eapply Forall3_Forall2_lm; [|exact Hrec]. intros g b srt.
    by apply group_record_base. }
  split.
  { eapply Forall3_Forall2_lr; [|exact Hrec]. intros g b srt.
    by apply group_record_sorted. }
  split; [done|].
  split; [by apply recorded_group_not_singleton|].
  intros i e He. apply Hall with i; [|done]. by eapply lookup_lt_Some.
Qed.

Lemma xgroups_of_tables n xrange yrange :
  length xrange = n → length yrange = n →
  ∃ xg,
    xgroups_of true n xrange yrange = Ok xg ∧
    Forall (recorded_group xrange) (groups xg) ∧
    Forall2 (bottom_most yrange) (groups xg) (groups_base xg) ∧
    Forall2 (sorted_members (λ k1 k2, (k2 ≤ k1)%Z) (snd <$> yrange))
            (groups xg) (groups_sorted xg) ∧
    pairwise_disjoint (groups xg) ∧
    singletons_unrecorded xrange (groups xg).
Proof.
  intros <- Hlen.
  destruct (group_loop_groups xrange (snd <$> yrange) np_argmax
              (λ ks, reverse (np_argsort ks)) Z.le (λ k1 k2, (k2 ≤ k1)%Z))
    as (xg & Hxg & Hrec & Hbase & Hsorted & Hdisj & Hsingle & _).
  - by rewrite length_fmap.
  - apply np_argmax_total.
  - apply np_argmax_spec.
  - intros ks. by rewrite reverse_Permutation, np_argsort_perm.
  - apply reverse_np_argsort_sorted.
  - exists xg. by repeat (split; [done|]).
Qed.

Lemma ygroups_of_tables n xrange yrange :
  length xrange = n → length yrange = n →
  ∃ yg,
    ygroups_of true n xrange yrange = Ok yg ∧
    Forall (recorded_group yrange) (groups yg) ∧
    Forall2 (left_most xrange) (groups yg) (groups_base yg) ∧
    Forall2 (sorted_members Z.le (fst <$> xrange)) (groups yg) (groups_sorted yg) ∧
    pairwise_disjoint (groups yg) ∧
    singletons_unrecorded yrange (groups yg).
Proof.
  intros Hlen <-.
  destruct (group_loop_groups yrange (fst <$> xrange) np_argmin np_argsort
              (λ y m, (m ≤ y)%Z) Z.le)
    as (yg & Hyg & Hrec & Hbase & Hsorted & Hdisj & Hsingle & _).
  - by rewrite length_fmap.
  - apply np_argmin_total.
  - apply np_argmin_spec.
  - apply np_argsort_perm.
  - apply np_argsort_sorted.
  - exists yg. by repeat (split; [done|]).
Qed.

(** C1: on the extent tables of a grid that passes the rule, with sharing
    enabled on both axes, each loop of the grouper returns; a recorded
    x-group (y-group) is the set, in ascending order, of the more than one
    panels with one column extent (row extent), so a panel with an extent of
    its own is in no group; the base of an x-group is its member with the
    largest upper row bound and the base of a y-group its member with the
    smallest lower column bound, the first such member in id order; the
    sorted order of an x-group lists its members by upper row bound,
    descending, and that of a y-group by lower column bound, ascending; and
    any run on the same tables yields these bases and sorted orders. *)
Theorem grouper_selects_bases
    (a : grid) (N : nat) (row_offset col_offset : Z) (yrange xrange : list (Z * Z)) :
  enforce_rule a = Ok N →
  yrange_of row_offset a = Ok yrange → xrange_of col_offset a = Ok xrange →
  ∃ xg yg,
    xgroups_of true N xrange yrange = Ok xg ∧
    ygroups_of true N xrange yrange = Ok yg ∧
    Forall (recorded_group xrange) (groups xg) ∧
    Forall (recorded_group yrange) (groups yg) ∧
    singletons_unrecorded xrange (groups xg) ∧
    singletons_unrecorded yrange (groups yg) ∧
    Forall2 (bottom_most yrange) (groups xg) (groups_base xg) ∧
    Forall2 (left_most xrange) (groups yg) (groups_base yg) ∧
    Forall2 (sorted_members (λ k1 k2, (k2 ≤ k1)%Z) (snd <$> yrange))
            (groups xg) (groups_sorted xg) ∧
    Forall2 (sorted_members Z.le (fst <$> xrange)) (groups yg) (groups_sorted yg) ∧
    ∀ xg' yg',
      xgroups_of true N xrange yrange = Ok xg' →
      ygroups_of true N xrange yrange = Ok yg' →
      groups_base xg' = groups_base xg ∧ groups_sorted xg' = groups_sorted xg ∧
      groups_base yg' = groups_base yg ∧ groups_sorted yg' = groups_sorted yg.
Proof.
  intros Hv Hy Hx.
  destruct (extent_tables_length _ _ _ _ _ _ Hv Hy Hx) as [Hylen Hxlen].
  destruct (xgroups_of_tables N xrange yrange Hxlen Hylen)
    as (xg & Hxg & ? & ? & ? & _ & ?).
  destruct (ygroups_of_tables N xrange yrange Hxlen Hylen)
    as (yg & Hyg & ? & ? & ? & _ & ?).
  exists xg, yg. repeat (split; [done|]).
  intros xg' yg'. rewrite Hxg, Hyg. by intros [= <-] [= <-].
Qed.

(** ** Slots and handles *)

Lemma getitem_nat_Some {A} (l : list A) i x : l !! i = Some x → getitem_nat l i = Ok x.
Proof. unfold getitem_nat. by intros ->. Qed.

Lemma handle_of_replicate n j : handle_of (replicate n None) j = None.
Proof.
  unfold handle_of. destruct (replicate n None !! j) as [ax|] eqn:Hj; [|done].
  by apply lookup_replicate in Hj as [-> _].
Qed.

Lemma handle_of_insert (axs : list (option nat)) i h j :
  i < length axs →
  handle_of (<[i := Some h]> axs) j = if decide (j = i) then Some h else handle_of axs j.
Proof.
  intros Hi. unfold handle_of. case_decide as Hj.
  - subst j. by rewrite list_lookup_insert_eq.
  - by rewrite list_lookup_insert_ne.
Qed.

Lemma handle_of_Some (axs : list (option nat)) i h :
  handle_of axs i = Some h ↔ axs !! i = Some (Some h).
Proof.
  unfold handle_of. destruct (axs !! i) as [[h'|]|]; simpl; split; congruence.
Qed.

Lemma handle_of_None (axs : list (option nat)) i :
  i < length axs → handle_of axs i = None → axs !! i = Some None.
Proof.
  intros Hi. unfold handle_of.
  destruct (lookup_lt_is_Some_2 axs i Hi) as [[h|] ->]; simpl; [done|done].
Qed.

(** One panel is in at most one group. *)
Lemma np_where_disjoint (grps : list (list nat)) i :
  pairwise_disjoint grps →
  np_where (λ grp : list nat, i ∈ grp) grps = [] ∨
  ∃ k grp, np_where (λ grp : list nat, i ∈ grp) grps = [k] ∧
           grps !! k = Some grp ∧ i ∈ grp.
Proof.
  intros Hdisj.
  pose proof (np_where_sorted (λ grp : list nat, i ∈ grp) grps) as Hsorted.
  pose proof (λ k, elem_of_np_where (λ grp : list nat, i ∈ grp) grps k) as Hin.
  destruct (np_where (λ grp : list nat, i ∈ grp) grps) as [|k1 [|k2 l]]; [by left| |].
  - right. destruct (proj1 (Hin k1)) as (grp & ? & ?); [by left|]. by exists k1, grp.
  - destruct (proj1 (Hin k1)) as (g1 & ? & ?); [by left|].
    destruct (proj1 (Hin k2)) as (g2 & ? & ?); [right; by left|].
    assert (k1 = k2) by by eapply Hdisj.
    apply StronglySorted_inv in Hsorted as [_ Hlt].
    apply Forall_cons in Hlt as [? _]. lia.
Qed.

Lemma share_base_is_base enabled g i b :
  share_base enabled g i = Some b → enabled = true ∧ b ∈ groups_base g.
Proof.
  unfold share_base. destruct enabled; [|done].
  destruct (head _) as [k|]; simpl; [|done].
  intros Hb. split; [done|]. by eapply list_elem_of_lookup_2.
Qed.

(** The assertion of lines 339 and 345: a base that is not drawn yet is an
    OrderingViolation. *)
Lemma find_share_undrawn g axs i k b :
  np_where (λ grp : list nat, i ∈ grp) (groups g) = [k] →
  groups_base g !! k = Some b → axs !! b = Some None →
  find_share true g axs i = Raise OrderingViolation.
Proof.
  intros Hk Hb Hax. unfold find_share. rewrite Hk.
  rewrite decide_True by done.
  rewrite (getitem_nat_Some [k] 0 k eq_refl). cbn [mbind res_bind].
  rewrite (getitem_nat_Some _ _ _ Hb). cbn [mbind res_bind].
  by rewrite (getitem_nat_Some _ _ _ Hax).
Qed.

Section draw_facts.
Variables (sharex sharey : bool) (num_axes : nat).
Variables (xrange yrange : list (Z * Z)).
Variables (xg yg : grouping).
Variable whichpanels : nat → bool.
Hypothesis xrange_length : length xrange = num_axes.
Hypothesis yrange_length : length yrange = num_axes.
Hypothesis xg_wf : groups_wf num_axes xg.
Hypothesis yg_wf : groups_wf num_axes yg.

Abbreviation bases := (allgroups_base sharex sharey xg yg).
Abbreviation region := (region_call xrange yrange whichpanels).

Lemma create_region_run i sx sy log :
  i < num_axes →
  ∃ c, region i sx sy = Some c ∧
       create_region xrange yrange whichpanels i sx sy log
       = (Ok (length log), log ++ [c]).
Proof.
  intros Hi.
  destruct (lookup_lt_is_Some_2 yrange i) as [ye Hye]; [lia|].
  destruct (lookup_lt_is_Some_2 xrange i) as [xe Hxe]; [lia|].
  eexists. unfold region_call, create_region, getitem_nat. rewrite Hye, Hxe.
  split; reflexivity.
Qed.

Lemma groups_wf_base_lt g b : groups_wf num_axes g → b ∈ groups_base g → b < num_axes.
Proof.
  intros (_ & Hbase & Hlt) [k Hk]%list_elem_of_lookup.
  destruct (Forall2_lookup_r _ _ _ _ _ Hbase Hk) as (grp & Hgrp & Hin).
  eapply Forall_lookup_1 in Hlt; [|exact Hgrp].
  by eapply Forall_forall in Hlt.
Qed.

Lemma bases_lt b : b ∈ bases → b < num_axes.
Proof.
  unfold allgroups_base. intros [Hb|Hb]%elem_of_app.
  - destruct sharex; [|by apply elem_of_nil in Hb].
    by apply (groups_wf_base_lt xg).
  - destruct sharey; [|by apply elem_of_nil in Hb].
    by apply (groups_wf_base_lt yg).
Qed.

Lemma xbase_in_bases i b : share_base sharex xg i = Some b → b ∈ bases.
Proof.
  intros [-> Hb]%share_base_is_base. unfold allgroups_base.
  apply elem_of_app. by left.
Qed.

Lemma ybase_in_bases i b : share_base sharey yg i = Some b → b ∈ bases.
Proof.
  intros [-> Hb]%share_base_is_base. unfold allgroups_base.
  apply elem_of_app. by right.
Qed.

(** With every base drawn, the look-up of the axes to share with returns
    the handle of the base and does not raise. *)
Lemma find_share_run enabled g axs i :
  groups_wf num_axes g →
  (∀ b, enabled = true → b ∈ groups_base g → is_Some (handle_of axs b)) →
  find_share enabled g axs i = Ok (share_base enabled g i ≫= handle_of axs).
Proof.
  intros (Hdisj & Hbase & _) Hdrawn.
  destruct enabled; [|done].
  destruct (np_where_disjoint (groups g) i Hdisj) as [Hnil|(k & grp & Hone & Hk & Hin)].
  { unfold find_share, share_base. by rewrite Hnil. }
  destruct (Forall2_lookup_l _ _ _ _ _ Hbase Hk) as (b & Hb & _).
  destruct (Hdrawn b eq_refl) as [h Hh]; [by eapply list_elem_of_lookup_2|].
  assert (share_base true g i = Some b) as ->
    by (unfold share_base; rewrite Hone; exact Hb).
  cbn [mbind option_bind]. rewrite Hh. apply handle_of_Some in Hh.
  unfold find_share. rewrite Hone.
  rewrite decide_True by done.
  rewrite (getitem_nat_Some [k] 0 k eq_refl). cbn [mbind res_bind].
  rewrite (getitem_nat_Some _ _ _ Hb). cbn [mbind res_bind].
  by rewrite (getitem_nat_Some _ _ _ Hh).
Qed.

Abbreviation inv1 :=
  (first_pass_inv sharex sharey num_axes xrange yrange xg yg whichpanels).
Abbreviation inv2 :=
  (second_pass_inv sharex sharey num_axes xrange yrange xg yg whichpanels).

Lemma base_step_run start axs log b :
  inv1 start axs log → b ∈ bases →
  ∃ axs' calls,
    base_step xrange yrange whichpanels axs b log = (Ok axs', log ++ calls) ∧
    inv1 start axs' (log ++ calls) ∧
    Forall (first_pass_call sharex sharey xrange yrange xg yg whichpanels) calls ∧
    extends axs axs' ∧ is_Some (handle_of axs' b).
Proof.
  intros Hinv Hb. pose proof Hinv as (Hlen & Hlog & Hinj & Hsurj).
  pose proof (bases_lt b Hb) as Hlt.
  destruct (lookup_lt_is_Some_2 axs b) as [ax Hax]; [lia|].
  unfold base_step, mbind, M_bind, lift. rewrite (getitem_nat_Some _ _ _ Hax).
  destruct ax as [h|].
  - exists axs, []. rewrite app_nil_r. unfold mret, M_ret.
    split; [done|]. split; [done|]. split; [constructor|].
    split; [by intros j h' Hj|].
    exists h. by apply handle_of_Some.
  - destruct (create_region_run b None None log Hlt) as (c & Hc & ->).
    exists (<[b := Some (length log)]> axs), [c]. unfold mret, M_ret.
    split; [done|].
    assert (∀ j h, handle_of (<[b := Some (length log)]> axs) j = Some h →
              j = b ∧ h = length log ∨ j ≠ b ∧ handle_of axs j = Some h) as Hcases.
    { intros j h. rewrite handle_of_insert by lia. case_decide; [|by right].
      intros [= <-]. by left. }
    split; [|split; [|split]].
    + split; [by rewrite length_insert|]. split; [|split].
      * intros j h [[-> ->]|[Hne Hj]]%Hcases.
        -- rewrite length_app. simpl. split; [lia|]. split; [done|].
           rewrite lookup_app_r by lia. by rewrite Nat.sub_diag.
        -- destruct (Hlog j h Hj) as (? & ? & ?). rewrite length_app.
           split; [lia|]. split; [done|]. by rewrite lookup_app_l.
      * intros j j' h [[-> ->]|[Hne Hj]]%Hcases [[-> Heq]|[Hne' Hj']]%Hcases;
          try done.
        -- destruct (Hlog j' _ Hj'). lia.
        -- destruct (Hlog j _ Hj). lia.
        -- by eapply Hinj.
      * intros p. rewrite length_app. simpl. intros Hp.
        destruct (decide (p = length log)) as [->|].
        -- exists b. rewrite handle_of_insert by lia. by rewrite decide_True.
        -- destruct (Hsurj p) as [j Hj]; [lia|]. exists j.
           rewrite handle_of_insert by lia. rewrite decide_False; [done|].
           intros ->. apply handle_of_Some in Hj. congruence.
    + repeat constructor. by exists b.
    + intros j h Hj. rewrite handle_of_insert by lia.
      rewrite decide_False; [done|]. intros ->.
      apply handle_of_Some in Hj. congruence.
    + exists (length log). rewrite handle_of_insert by lia. by rewrite decide_True.
Qed.

Lemma draw_bases_from start bs axs log :
  inv1 start axs log → (∀ b, b ∈ bs → b ∈ bases) →
  ∃ axs' calls,
    for_eachM bs (base_step xrange yrange whichpanels) axs log
    = (Ok axs', log ++ calls) ∧
    inv1 start axs' (log ++ calls) ∧
    Forall (first_pass_call sharex sharey xrange yrange xg yg whichpanels) calls ∧
    extends axs axs' ∧ ∀ b, b ∈ bs → is_Some (handle_of axs' b).
Proof.
  revert axs log. induction bs as [|b bs IH]; intros axs log Hinv Hbs.
  - exists axs, []. rewrite app_nil_r. simpl. unfold mret, M_ret.
    split; [done|]. split; [done|]. split; [constructor|].
    split; [by intros j h' Hj|]. by intros b ?%elem_of_nil.
  - destruct (base_step_run start axs log b Hinv)
      as (axs1 & c1 & Hstep & Hinv1 & Hc1 & Hext1 & Hb);
      [apply Hbs; by left|].
    destruct (IH axs1 (log ++ c1) Hinv1) as (axs2 & c2 & Hloop & Hinv2 & Hc2 & Hext2 & Hall);
      [intros b' ?; apply Hbs; by right|].
    exists axs2, (c1 ++ c2). rewrite app_assoc.
    cbn [for_eachM]. unfold mbind, M_bind. rewrite Hstep.
    split; [exact Hloop|]. split; [done|]. split; [by apply Forall_app|].
    split; [intros j h Hj; by apply Hext2, Hext1|].
    intros b' [->|Hb']%elem_of_cons; [|by apply Hall].
    destruct Hb as [h Hh]. exists h. by apply Hext2.
Qed.

Abbreviation calls2 :=
  (second_pass_calls sharex sharey xrange yrange xg yg whichpanels).

Lemma adopt_run setup axs i h base log :
  handle_of axs i = Some h →
  (∀ b, base = Some b → is_Some (handle_of axs b)) →
  (∀ j j' h, handle_of axs j = Some h → handle_of axs j' = Some h → j = j') →
  adopt setup h (base ≫= handle_of axs) log
  = (Ok (), log ++ adoption setup axs i base).
Proof.
  intros Hi Hbase Hinj. unfold adopt, adoption.
  destruct base as [b|]; simpl; [|by rewrite app_nil_r].
  destruct (Hbase b eq_refl) as [s Hs]. rewrite Hs, Hi.
  destruct (decide (b = i)) as [->|Hne].
  - assert (s = h) as -> by congruence.
    rewrite decide_False by (intros Hn; by apply Hn). by rewrite app_nil_r.
  - rewrite decide_True; [done|]. intros ->. apply Hne. by eapply Hinj.
Qed.

Lemma adoption_extends setup axs axs' i base :
  extends axs axs' → is_Some (handle_of axs i) →
  (∀ b, base = Some b → is_Some (handle_of axs b)) →
  adoption setup axs' i base = adoption setup axs i base.
Proof.
  intros Hext [h Hh] Hbase. unfold adoption.
  destruct base as [b|]; [|done]. case_decide; [done|].
  destruct (Hbase b eq_refl) as [s Hs].
  by rewrite Hh, Hs, (Hext _ _ Hh), (Hext _ _ Hs).
Qed.

Lemma bind_handle_extends axs axs' (base : option nat) :
  extends axs axs' →
  (∀ b, base = Some b → is_Some (handle_of axs b)) →
  base ≫= handle_of axs' = base ≫= handle_of axs.
Proof.
  intros Hext Hbase. destruct base as [b|]; simpl; [|done].
  destruct (Hbase b eq_refl) as [s Hs]. by rewrite Hs, (Hext _ _ Hs).
Qed.

Lemma calls2_extends axs axs' i :
  extends axs axs' → is_Some (handle_of axs i) →
  (∀ b, b ∈ bases → is_Some (handle_of axs b)) →
  calls2 axs' i = calls2 axs i.
Proof.
  intros Hext Hi Hbases. unfold second_pass_calls. cbv zeta.
  assert (∀ b, share_base sharex xg i = Some b → is_Some (handle_of axs b)) as Hx
    by (intros b ?%xbase_in_bases; by apply Hbases).
  assert (∀ b, share_base sharey yg i = Some b → is_Some (handle_of axs b)) as Hy
    by (intros b ?%ybase_in_bases; by apply Hbases).
  case_decide.
  - by rewrite !(adoption_extends _ axs axs').
  - by rewrite !(bind_handle_extends axs axs').
Qed.

Lemma dependent_step_run i axs log :
  inv2 i axs log → i < num_axes →
  ∃ axs',
    dependent_step sharex sharey xrange yrange xg yg whichpanels axs i log
    = (Ok axs', log ++ calls2 axs' i) ∧
    inv2 (S i) axs' (log ++ calls2 axs' i) ∧ extends axs axs'.
Proof.
  intros (Hlen & Hlog & Hinj & Hbases & Hprev & Hrest) Hi.
  assert (∀ b, share_base sharex xg i = Some b → is_Some (handle_of axs b)) as Hx
    by (intros b ?%xbase_in_bases; by apply Hbases).
  assert (∀ b, share_base sharey yg i = Some b → is_Some (handle_of axs b)) as Hy
    by (intros b ?%ybase_in_bases; by apply Hbases).
  unfold dependent_step, mbind, M_bind, lift.
  rewrite (find_share_run sharex xg axs i xg_wf), (find_share_run sharey yg axs i yg_wf).
  2:{ intros b -> Hb. apply Hbases. unfold allgroups_base. apply elem_of_app. by right. }
  2:{ intros b -> Hb. apply Hbases. unfold allgroups_base. apply elem_of_app. by left. }
  destruct (lookup_lt_is_Some_2 axs i) as [ax Hax]; [lia|].
  rewrite (getitem_nat_Some _ _ _ Hax).
  destruct ax as [h|].
  - apply handle_of_Some in Hax.
    assert (i ∈ bases) as Hib.
    { destruct (decide (i ∈ bases)) as [|Hout]; [done|].
      rewrite (Hrest i) in Hax by done. done. }
    exists axs.
    assert (calls2 axs i = adoption SharexSetup axs i (share_base sharex xg i) ++
                           adoption ShareySetup axs i (share_base sharey yg i)) as ->.
    { unfold second_pass_calls. cbv zeta. by rewrite decide_True. }
    rewrite (adopt_run SharexSetup axs i h _ log Hax Hx Hinj).
    rewrite (adopt_run ShareySetup axs i h _ _ Hax Hy Hinj).
    unfold mret, M_ret. rewrite app_assoc. split; [done|]. split; [|by intros j h' Hj].
    split; [done|]. split.
    { intros j h' Hj. destruct (Hlog j h' Hj) as (? & sx & sy & ?).
      rewrite <- app_assoc, length_app. split; [lia|].
      exists sx, sy. by rewrite lookup_app_l. }
    split; [done|]. split; [done|]. split.
    + intros j Hj. destruct (decide (j = i)) as [->|]; [by exists h|].
      apply Hprev. lia.
    + intros j Hj. apply Hrest. lia.
  - assert (handle_of axs i = None) as Hnone by (unfold handle_of; by rewrite Hax).
    assert (i ∉ bases) as Hib.
    { intros [h Hh]%Hbases. congruence. }
    destruct (create_region_run i (share_base sharex xg i ≫= handle_of axs)
                (share_base sharey yg i ≫= handle_of axs) log Hi) as (c & Hc & ->).
    set (axs' := <[i := Some (length log)]> axs). unfold mret, M_ret.
    assert (extends axs axs') as Hext.
    { intros j h Hj. unfold axs'. rewrite handle_of_insert by lia.
      rewrite decide_False; [done|]. intros ->. congruence. }
    exists axs'.
    assert (calls2 axs' i = [c]) as ->.
    { unfold second_pass_calls. cbv zeta. rewrite decide_False by done.
      rewrite !(bind_handle_extends axs axs') by done. by rewrite Hc. }
    split; [done|]. split; [|done].
    assert (∀ j h, handle_of axs' j = Some h →
              j = i ∧ h = length log ∨ j ≠ i ∧ handle_of axs j = Some h) as Hcases.
    { intros j h. unfold axs'. rewrite handle_of_insert by lia.
      case_decide; [|by right]. intros [= <-]. by left. }
    split; [by unfold axs'; rewrite length_insert|]. split; [|split; [|split; [|split]]].
    + intros j h [[-> ->]|[Hne Hj]]%Hcases.
      * rewrite length_app. simpl. split; [lia|]. eexists _, _.
        rewrite lookup_app_r by lia. rewrite Nat.sub_diag. simpl. by rewrite Hc.
      * destruct (Hlog j h Hj) as (? & sx & sy & ?). rewrite length_app.
        split; [lia|]. exists sx, sy. by rewrite lookup_app_l.
    + intros j j' h [[-> ->]|[Hne Hj]]%Hcases [[-> Heq]|[Hne' Hj']]%Hcases;
        try done.
      * destruct (Hlog j' _ Hj'). lia.
      * destruct (Hlog j _ Hj). lia.
      * by eapply Hinj.
    + intros b [h Hh]%Hbases. exists h. by apply Hext.
    + intros j Hj. destruct (decide (j = i)) as [->|].
      * exists (length log). unfold axs'. rewrite handle_of_insert by lia.
        by rewrite decide_True.
      * destruct (Hprev j) as [h Hh]; [lia|]. exists h. by apply Hext.
    + intros j Hj Hout. unfold axs'. rewrite handle_of_insert by lia.
      rewrite decide_False by lia. apply Hrest; [lia|done].
Qed.

Lemma draw_dependents_from count i axs log :
  inv2 i axs log → i + count ≤ num_axes →
  ∃ axs',
    for_eachM (seq i count)
      (dependent_step sharex sharey xrange yrange xg yg whichpanels) axs log
    = (Ok axs', log ++ concat (calls2 axs' <$> seq i count)) ∧
    inv2 (i + count) axs' (log ++ concat (calls2 axs' <$> seq i count)) ∧
    extends axs axs'.
Proof.
  revert i axs log. induction count as [|count IH]; intros i axs log Hinv Hle.
  - exists axs. simpl. rewrite app_nil_r, Nat.add_0_r. unfold mret, M_ret.
    split; [done|]. split; [done|]. by intros j h Hj.
  - destruct (dependent_step_run i axs log Hinv) as (axs1 & Hstep & Hinv1 & Hext1); [lia|].
    destruct (IH (S i) axs1 _ Hinv1) as (axs2 & Hloop & Hinv2 & Hext2); [lia|].
    exists axs2.
    assert (calls2 axs2 i = calls2 axs1 i) as Hsame.
    { destruct Hinv1 as (_ & _ & _ & Hbases1 & Hprev1 & _).
      apply calls2_extends; [done|apply Hprev1; lia|done]. }
    cbn [seq fmap list_fmap concat for_eachM]. unfold mbind, M_bind.
    rewrite Hstep, Hsame, app_assoc.
    split; [exact Hloop|]. split.
    + by replace (i + S count) with (S i + count) by lia.
    + intros j h Hj. by apply Hext2, Hext1.
Qed.

Lemma draw_run log :
  ∃ axs1 calls1 axs2,
    draw_bases sharex sharey xrange yrange xg yg whichpanels (replicate num_axes None) log
    = (Ok axs1, log ++ calls1) ∧
    draw_dependents sharex sharey num_axes xrange yrange xg yg whichpanels axs1
      (log ++ calls1)
    = (Ok axs2, (log ++ calls1) ++ concat (calls2 axs2 <$> seq 0 num_axes)) ∧
    Forall (first_pass_call sharex sharey xrange yrange xg yg whichpanels) calls1 ∧
    (∀ b, b ∈ bases →
          ∃ h, handle_of axs1 b = Some h ∧ handle_of axs2 b = Some h ∧
               h < length (log ++ calls1)) ∧
    (∀ i, i ∉ bases → handle_of axs1 i = None) ∧
    (∀ p, p < length calls1 → ∃ b, handle_of axs1 b = Some (length log + p)) ∧
    inv2 num_axes axs2 ((log ++ calls1) ++ concat (calls2 axs2 <$> seq 0 num_axes)).
Proof.
  destruct (draw_bases_from (length log) bases (replicate num_axes None) log)
    as (axs1 & calls1 & Hrun1 & Hinv1 & Hcalls1 & _ & Hdrawn); [|done|].
  { split; [by rewrite length_replicate|].
    split; [|split]; [intros j; intros; by rewrite handle_of_replicate in *..|].
    intros p. lia. }
  pose proof Hinv1 as (Hlen & Hlog & Hinj & Hsurj).
  assert (∀ i, i ∉ bases → handle_of axs1 i = None) as Hrest.
  { intros i Hi. destruct (handle_of axs1 i) as [h|] eqn:Hh; [|done].
    by destruct (Hlog i h Hh) as (_ & ? & _). }
  destruct (draw_dependents_from num_axes 0 axs1 (log ++ calls1))
    as (axs2 & Hrun2 & Hinv2 & Hext); [|lia|].
  { split; [done|]. split; [|split; [done|split; [done|split]]].
    - intros j h Hj. destruct (Hlog j h Hj) as (? & _ & ?). eauto.
    - intros j ?. lia.
    - intros j _. apply Hrest. }
  exists axs1, calls1, axs2. split; [exact Hrun1|]. split; [exact Hrun2|].
  split; [done|]. split; [|split; [done|split; [|exact Hinv2]]].
  - intros b Hb. destruct (Hdrawn b Hb) as [h Hh]. exists h.
    split; [done|]. split; [by apply Hext|]. by destruct (Hlog b h Hh).
  - intros p Hp. apply Hsurj. rewrite length_app. lia.
Qed.
End draw_facts.

Lemma no_groups_wf n : groups_wf n no_groups.
Proof.
  split; [|split]; simpl; [|constructor|constructor].
  intros k1 k2 g1 g2 j. by rewrite lookup_nil.
Qed.

Lemma recorded_groups_lt ext grps :
  Forall (recorded_group ext) grps → Forall (Forall (λ j, j < length ext)) grps.
Proof.
  intros Hall. eapply Forall_impl; [exact Hall|]. intros g (_ & _ & e & Hmem).
  apply Forall_forall. intros j Hj%Hmem. by eapply lookup_lt_Some.
Qed.

Lemma xgroups_of_wf sharex n xrange yrange :
  length xrange = n → length yrange = n →
  ∃ xg, xgroups_of sharex n xrange yrange = Ok xg ∧ groups_wf n xg.
Proof.
  intros Hx Hy. destruct sharex; [|exists no_groups; split; [done|apply no_groups_wf]].
  destruct (xgroups_of_tables n xrange yrange Hx Hy)
    as (xg & Hxg & Hrec & Hbase & _ & Hdisj & _).
  exists xg. split; [done|]. split; [done|]. split.
  - eapply Forall2_impl; [exact Hbase|]. by intros g b [? _].
  - rewrite <- Hx. by apply recorded_groups_lt.
Qed.

Lemma ygroups_of_wf sharey n xrange yrange :
  length xrange = n → length yrange = n →
  ∃ yg, ygroups_of sharey n xrange yrange = Ok yg ∧ groups_wf n yg.
Proof.
  intros Hx Hy. destruct sharey; [|exists no_groups; split; [done|apply no_groups_wf]].
  destruct (ygroups_of_tables n xrange yrange Hx Hy)
    as (yg & Hyg & Hrec & Hbase & _ & Hdisj & _).
  exists yg. split; [done|]. split; [done|]. split.
  - eapply Forall2_impl; [exact Hbase|]. by intros g b [? _].
  - rewrite <- Hy. by apply recorded_groups_lt.
Qed.




(** C2: for the groups of a layout (with sharing enabled or not on each
    axis) the draw never raises and its calls are these.  First pass: only
    calls that create a base, wired to nothing, after which every base is
    drawn.  Second pass, panel by panel in id order: a panel that is not a
    base is created once, with the handles of the bases of its x-group and
    y-group as shared sources; a base is not created again and is wired, by
    a setup call on its handle, to the base of its group on an axis when
    that base is another panel.  Every base that is shared with has a handle
    from the first pass, so no share is requested against an undrawn base;
    and the look-up of lines 336-346 raises OrderingViolation if it ever
    finds the slot of the base empty. *)
Theorem draw_bases_then_dependents
    (a : grid) (N : nat) (row_offset col_offset : Z) (yrange xrange : list (Z * Z))
    (sharex sharey : bool) (xg yg : grouping) (whichpanels : nat → bool)
    (log : list call) :
  enforce_rule a = Ok N →
  yrange_of row_offset a = Ok yrange → xrange_of col_offset a = Ok xrange →
  xgroups_of sharex N xrange yrange = Ok xg →
  ygroups_of sharey N xrange yrange = Ok yg →
  ∃ axs1 calls1 axs2 calls2,
    draw_bases sharex sharey xrange yrange xg yg whichpanels (replicate N None) log
    = (Ok axs1, log ++ calls1) ∧
    draw_dependents sharex sharey N xrange yrange xg yg whichpanels axs1 (log ++ calls1)
    = (Ok axs2, (log ++ calls1) ++ calls2) ∧
    draw sharex sharey N xrange yrange xg yg whichpanels log
    = (Ok axs2, (log ++ calls1) ++ calls2) ∧
    Forall (first_pass_call sharex sharey xrange yrange xg yg whichpanels) calls1 ∧
    calls2 = concat (second_pass_calls sharex sharey xrange yrange xg yg whichpanels axs2
                       <$> seq 0 N) ∧
    (∀ b, b ∈ allgroups_base sharex sharey xg yg →
          ∃ h, handle_of axs1 b = Some h ∧ handle_of axs2 b = Some h ∧
               h < length (log ++ calls1)) ∧
    (∀ i, i ∉ allgroups_base sharex sharey xg yg → handle_of axs1 i = None) ∧
    (∀ p, p < length calls1 → ∃ b, handle_of axs1 b = Some (length log + p)) ∧
    (∀ i b, share_base sharex xg i = Some b ∨ share_base sharey yg i = Some b →
            b ∈ allgroups_base sharex sharey xg yg) ∧
    (∀ i, i < N →
          ∃ h sx sy, handle_of axs2 i = Some h ∧
                     ((log ++ calls1) ++ calls2) !! h
                     = region_call xrange yrange whichpanels i sx sy) ∧
    (∀ i j h, handle_of axs2 i = Some h → handle_of axs2 j = Some h → i = j) ∧
    (∀ g axs i k b,
       np_where (λ grp : list nat, i ∈ grp) (groups g) = [k] →
       groups_base g !! k = Some b → axs !! b = Some None →
       find_share true g axs i = Raise OrderingViolation).
Proof.
  intros Hv Hy Hx Hxg Hyg.
  destruct (extent_tables_length _ _ _ _ _ _ Hv Hy Hx) as [Hylen Hxlen].
  destruct (xgroups_of_wf sharex N xrange yrange Hxlen Hylen) as (xg' & Hxg' & Hxwf).
  destruct (ygroups_of_wf sharey N xrange yrange Hxlen Hylen) as (yg' & Hyg' & Hywf).
  rewrite Hxg in Hxg'. rewrite Hyg in Hyg'. injection Hxg' as <-. injection Hyg' as <-.
  destruct (draw_run sharex sharey N xrange yrange xg yg whichpanels
              Hxlen Hylen Hxwf Hywf log)
    as (axs1 & calls1 & axs2 & Hrun1 & Hrun2 & Hfirst & Hbases & Hrest & Hsurj & Hinv).
  destruct Hinv as (_ & Hlog & Hinj & _ & Hall & _).
  exists axs1, calls1, axs2,
    (concat (second_pass_calls sharex sharey xrange yrange xg yg whichpanels axs2
               <$> seq 0 N)).
  split; [exact Hrun1|]. split; [exact Hrun2|]. split.
  { unfold draw, mbind, M_bind. fold (draw_bases sharex sharey xrange yrange xg yg
      whichpanels (replicate N None) log). by rewrite Hrun1. }
  split; [done|]. split; [done|]. split; [done|]. split; [done|]. split; [done|].
  split.
  { intros i b [Hb|Hb]; [by eapply xbase_in_bases|by eapply ybase_in_bases]. }
  split.
  { intros i Hi. destruct (Hall i Hi) as [h Hh].
    destruct (Hlog i h Hh) as (_ & sx & sy & ?). by exists h, sx, sy. }
  split; [done|]. intros g axs i k b. apply find_share_undrawn.
Qed.

Lemma grouper_selects_bases_witness :
  ∃ xg yg,
    xgroups_of true 6 [(0, 1); (1, 2); (2, 3); (0, 1); (1, 2); (2, 3)]%Z
                      [(0, 1); (0, 1); (0, 1); (1, 2); (1, 2); (1, 2)]%Z = Ok xg ∧
    ygroups_of true 6 [(0, 1); (1, 2); (2, 3); (0, 1); (1, 2); (2, 3)]%Z
                      [(0, 1); (0, 1); (0, 1); (1, 2); (1, 2); (1, 2)]%Z = Ok yg ∧
    groups xg = [[0; 3]; [1; 4]; [2; 5]] ∧ groups_base xg = [3; 4; 5] ∧
    groups yg = [[0; 1; 2]; [3; 4; 5]] ∧ groups_base yg = [0; 3].
Proof.
  destruct (grouper_selects_bases [[1; 2; 3]; [4; 5; 6]]%Z 6 0 0
              [(0, 1); (0, 1); (0, 1); (1, 2); (1, 2); (1, 2)]%Z
              [(0, 1); (1, 2); (2, 3); (0, 1); (1, 2); (2, 3)]%Z
              eq_refl eq_refl eq_refl) as (xg & yg & Hx & Hy & _).
  exists xg, yg. split; [done|]. split; [done|].
  vm_compute in Hx, Hy. injection Hx as <-. injection Hy as <-. done.
Defined.

Lemma draw_bases_then_dependents_witness :
  ∃ xg yg axs,
    xgroups_of true 6 [(0, 1); (1, 2); (2, 3); (0, 1); (1, 2); (2, 3)]%Z
                      [(0, 1); (0, 1); (0, 1); (1, 2); (1, 2); (1, 2)]%Z = Ok xg ∧
    ygroups_of true 6 [(0, 1); (1, 2); (2, 3); (0, 1); (1, 2); (2, 3)]%Z
                      [(0, 1); (0, 1); (0, 1); (1, 2); (1, 2); (1, 2)]%Z = Ok yg ∧
    draw true true 6 [(0, 1); (1, 2); (2, 3); (0, 1); (1, 2); (2, 3)]%Z
                     [(0, 1); (0, 1); (0, 1); (1, 2); (1, 2); (1, 2)]%Z
                     xg yg (λ _, false) [NewFigure]
    = (Ok axs,
       [NewFigure;
        CreateRegion false 4 (1, 2)%Z (0, 1)%Z None None;
        CreateRegion false 5 (1, 2)%Z (1, 2)%Z None None;
        CreateRegion false 6 (1, 2)%Z (2, 3)%Z None None;
        CreateRegion false 1 (0, 1)%Z (0, 1)%Z None None;
        SharexSetup 4 1;
        CreateRegion false 2 (0, 1)%Z (1, 2)%Z (Some 2) (Some 4);
        CreateRegion false 3 (0, 1)%Z (2, 3)%Z (Some 3) (Some 4);
        ShareySetup 2 1;
        ShareySetup 3 1]).
Proof.
  destruct (draw_bases_then_dependents [[1; 2; 3]; [4; 5; 6]]%Z 6 0 0
              [(0, 1); (0, 1); (0, 1); (1, 2); (1, 2); (1, 2)]%Z
              [(0, 1); (1, 2); (2, 3); (0, 1); (1, 2); (2, 3)]%Z
              true true
              (Grouping [[0; 3]; [1; 4]; [2; 5]] [3; 4; 5] [[3; 0]; [4; 1]; [5; 2]]
                        [0; 3; 1; 4; 2; 5; 0; 3; 1; 4; 2; 5])
              (Grouping [[0; 1; 2]; [3; 4; 5]] [0; 3] [[0; 1; 2]; [3; 4; 5]]
                        [0; 1; 2; 0; 1; 2; 0; 1; 2; 3; 4; 5; 3; 4; 5; 3; 4; 5])
              (λ _, false) [NewFigure]
              eq_refl eq_refl eq_refl eq_refl eq_refl)
    as (axs1 & calls1 & axs2 & calls2 & _ & _ & Hdraw & _).
  exists (Grouping [[0; 3]; [1; 4]; [2; 5]] [3; 4; 5] [[3; 0]; [4; 1]; [5; 2]]
                   [0; 3; 1; 4; 2; 5; 0; 3; 1; 4; 2; 5]),
         (Grouping [[0; 1; 2]; [3; 4; 5]] [0; 3] [[0; 1; 2]; [3; 4; 5]]
                   [0; 1; 2; 0; 1; 2; 0; 1; 2; 3; 4; 5; 3; 4; 5; 3; 4; 5]),
         axs2.
  split; [reflexivity|]. split; [reflexivity|].
  match goal with |- ?d = _ => destruct d as [r l] eqn:Hrun end.
  vm_compute in Hrun. injection Hrun as <- <-. by injection Hdraw as <- _.
Defined.

(** * Properties of the code around the claims *)

(** ** The generated grid *)

Lemma cell_at_auto_grid nrows ncols rowmajor r c v :
  cell_at (auto_grid nrows ncols rowmajor) r c = Some v ↔
  r < nrows ∧ c < ncols ∧ v = auto_number nrows ncols rowmajor r c.
Proof.
  unfold cell_at, auto_grid, none_to_zero, arange_grid, auto_number.
  rewrite !list_lookup_fmap.
  destruct (decide (r < nrows)) as [Hr|Hr].
  - rewrite lookup_seq_lt by done. simpl. rewrite !list_lookup_fmap.
    destruct (decide (c < ncols)) as [Hc|Hc].
    + rewrite lookup_seq_lt by done. simpl. split.
      * intros [= <-]. done.
      * intros (_ & _ & ->). done.
    + rewrite lookup_seq_ge by lia. simpl. split; [done|]. intros (_ & ? & _). lia.
  - rewrite lookup_seq_ge by lia. simpl. split; [done|]. intros (? & _). lia.
Qed.

Lemma auto_grid_values nrows ncols rowmajor :
  nonzero_values_are (auto_grid nrows ncols rowmajor) (nrows * ncols).
Proof.
  intros v. rewrite elem_of_cell_at. split.
  - intros [(r & c & Hrc) _]. apply cell_at_auto_grid in Hrc as (Hr & Hc & ->).
    unfold auto_number. destruct rowmajor; nia.
  - intros Hv. assert (0 < nrows ∧ 0 < ncols) as [Hn Hm] by nia.
    split; [|lia].
    set (k := Z.to_nat (v - 1)).
    assert (k < nrows * ncols) as Hk by lia.
    destruct rowmajor.
    + exists (k / ncols), (k `mod` ncols). apply cell_at_auto_grid.
      split; [apply Nat.Div0.div_lt_upper_bound; lia|].
      split; [apply Nat.mod_upper_bound; lia|].
      unfold auto_number. pose proof (Nat.div_mod_eq k ncols). lia.
    + exists (k `mod` nrows), (k / nrows). apply cell_at_auto_grid.
      split; [apply Nat.mod_upper_bound; lia|].
      split; [apply Nat.Div0.div_lt_upper_bound; lia|].
      unfold auto_number. pose proof (Nat.div_mod_eq k nrows). lia.
Qed.

(** X1: with no array given and no row or column blanked, the generated
    grid of [nrows] by [ncols] cells always passes the rule on axes numbers,
    in row-major and in column-major order, and the number of axes is
    [nrows * ncols]. *)
Theorem generated_grid_is_valid (nrows ncols : nat) (rowmajor : bool) :
  normalize NoArray nrows ncols rowmajor [] []
  = Ok (auto_grid nrows ncols rowmajor, nrows * ncols).
Proof.
  unfold normalize, prepare. simpl.
  fold (auto_grid nrows ncols rowmajor).
  by rewrite (proj2 (enforce_rule_Ok _ _) (auto_grid_values nrows ncols rowmajor)).
Qed.

Lemma auto_number_position nrows ncols rowmajor r c k :
  r < nrows → c < ncols →
  auto_number nrows ncols rowmajor r c = (Z.of_nat k + 1)%Z →
  (r, c) = auto_position nrows ncols rowmajor k.
Proof.
  unfold auto_number, auto_position. intros Hr Hc Hk. destruct rowmajor.
  - assert (k = c + r * ncols) as -> by lia.
    rewrite Nat.div_add, Nat.Div0.mod_add by lia.
    rewrite Nat.div_small, Nat.mod_small by lia. done.
  - assert (k = r + c * nrows) as -> by lia.
    rewrite Nat.div_add, Nat.Div0.mod_add by lia.
    rewrite Nat.div_small, Nat.mod_small by lia. done.
Qed.

(** X2: in the generated grid every panel occupies exactly one cell: for
    panel position [k] the row extent is the single row and the column
    extent the single column of [auto_position], shifted by the offsets
    (row [k / ncols], column [k mod ncols] in row-major order; row
    [k mod nrows], column [k / nrows] in column-major order). *)
Theorem generated_grid_extents
    (nrows ncols : nat) (rowmajor : bool) (row_offset col_offset : Z) (k : nat) :
  k < nrows * ncols →
  ∃ yrange xrange,
    yrange_of row_offset (auto_grid nrows ncols rowmajor) = Ok yrange ∧
    xrange_of col_offset (auto_grid nrows ncols rowmajor) = Ok xrange ∧
    yrange !! k
    = Some (row_offset + Z.of_nat (auto_position nrows ncols rowmajor k).1,
            row_offset + Z.of_nat (auto_position nrows ncols rowmajor k).1 + 1)%Z ∧
    xrange !! k
    = Some (col_offset + Z.of_nat (auto_position nrows ncols rowmajor k).2,
            col_offset + Z.of_nat (auto_position nrows ncols rowmajor k).2 + 1)%Z.
Proof.
  intros Hk.
  pose proof (proj2 (enforce_rule_Ok _ _) (auto_grid_values nrows ncols rowmajor)) as Hv.
  destruct (range_of_valid fst row_offset _ _ Hv) as (yr & Hyr & _ & Hy).
  destruct (range_of_valid snd col_offset _ _ Hv) as (xr & Hxr & _ & Hx).
  exists yr, xr. split; [exact Hyr|]. split; [exact Hxr|].
  assert (∀ rc, rc ∈ where2 (auto_grid nrows ncols rowmajor) (Z.of_nat k + 1) →
            rc = auto_position nrows ncols rowmajor k) as Hpos.
  { intros [r c] Hrc%elem_of_where2. apply cell_at_auto_grid in Hrc as (? & ? & Hn).
    by apply auto_number_position. }
  destruct (Hy k Hk) as (rlo & rhi & -> & Hrlo & Hrhi & _).
  destruct (Hx k Hk) as (clo & chi & -> & Hclo & Hchi & _).
  apply list_elem_of_fmap in Hrlo as (p1 & -> & ->%Hpos).
  apply list_elem_of_fmap in Hrhi as (p2 & -> & ->%Hpos).
  apply list_elem_of_fmap in Hclo as (p3 & -> & ->%Hpos).
  apply list_elem_of_fmap in Hchi as (p4 & -> & ->%Hpos).
  split; do 2 f_equal; lia.
Qed.

Lemma generated_grid_extents_witness :
  ∃ yrange xrange,
    yrange_of 0 (auto_grid 2 3 true) = Ok yrange ∧
    xrange_of 0 (auto_grid 2 3 true) = Ok xrange ∧
    yrange !! 4 = Some (1, 2)%Z ∧ xrange !! 4 = Some (1, 2)%Z.
Proof.
  destruct (generated_grid_extents 2 3 true 0 0 4) as (yr & xr & Hy & Hx & Hyk & Hxk);
    [lia|].
  exists yr, xr. by repeat (split; [done|]).
Defined.

(** ** The empty arrangement *)

(** X3: the rule accepts a grid with zero axes exactly when every cell of
    the grid is 0; an arrangement without any panel is not an error. *)
Theorem no_axes_iff_all_cells_zero (a : grid) :
  enforce_rule a = Ok 0 ↔ ∀ v, v ∈ concat a → v = 0%Z.
Proof.
  rewrite enforce_rule_Ok. unfold nonzero_values_are. split.
  - intros Hv v Hin. destruct (decide (v = 0%Z)) as [|Hne]; [done|].
    assert (1 ≤ v ≤ Z.of_nat 0)%Z by (apply Hv; done). lia.
  - intros Hzero v. split; [|lia]. intros [Hin Hne]. destruct Hne. by apply Hzero.
Qed.

(** ** Blanked columns and rows *)

Lemma np_index_blank n k :
  blank_in_range n k → np_index n (k - 1) = Ok (blank_target n k).
Proof.
  unfold blank_in_range, np_index, blank_target. intros Hk.
  destruct (decide (0 ≤ k - 1 < Z.of_nat n)%Z) as [Hpos|Hneg].
  - by rewrite Z.mod_small.
  - rewrite decide_True by lia. do 2 f_equal.
    replace (k - 1)%Z with (Z.of_nat n + (k - 1) + (-1) * Z.of_nat n)%Z at 2 by lia.
    rewrite Z.mod_add by lia. rewrite Z.mod_small; lia.
Qed.

Lemma np_index_out_of_range n k :
  ¬ blank_in_range n k → np_index n (k - 1) = Raise IndexError.
Proof.
  unfold blank_in_range, np_index. intros Hk.
  rewrite !decide_False; [done|lia|lia].
Qed.

Lemma cell_at_zero_col (a : grid) j r c :
  cell_at (zero_col a j) r c
  = if decide (c = j) then (λ _, 0%Z) <$> cell_at a r c else cell_at a r c.
Proof.
  unfold cell_at, zero_col. rewrite list_lookup_fmap.
  destruct (a !! r) as [row|]; simpl; [|by case_decide].
  case_decide as Hc.
  - subst c. destruct (decide (j < length row)) as [Hj|Hj].
    + rewrite list_lookup_insert_eq by done.
      by destruct (lookup_lt_is_Some_2 row j Hj) as [x ->].
    + rewrite list_insert_ge by lia. by rewrite lookup_ge_None_2 by lia.
  - by rewrite list_lookup_insert_ne.
Qed.

Lemma cell_at_zero_row (a : grid) i r c :
  cell_at (zero_row a i) r c
  = if decide (r = i) then (λ _, 0%Z) <$> cell_at a r c else cell_at a r c.
Proof.
  unfold cell_at, zero_row. case_decide as Hr.
  - subst r. rewrite list_lookup_alter_eq.
    destruct (a !! i) as [row|]; simpl; [|done].
    by rewrite list_lookup_fmap.
  - by rewrite list_lookup_alter_ne.
Qed.

Lemma zero_col_shape (a : grid) j ncols :
  a ≠ [] → rectangular a ncols →
  zero_col a j ≠ [] ∧ rectangular (zero_col a j) ncols ∧
  shape1 (zero_col a j) = ncols ∧ shape1 a = ncols ∧
  length (zero_col a j) = length a.
Proof.
  intros Hne Hrect. unfold zero_col, shape1.
  destruct a as [|row a]; [done|]. simpl.
  apply Forall_cons in Hrect as [Hrow Hrect].
  split; [done|]. split; [|by rewrite length_insert, length_fmap].
  constructor; [by rewrite length_insert|].
  apply Forall_fmap. eapply Forall_impl; [exact Hrect|].
  intros row'. simpl. by rewrite length_insert.
Qed.

Lemma blank_cols_effect (cols : list Z) (a : grid) ncols :
  a ≠ [] → rectangular a ncols →
  Forall (blank_in_range ncols) cols →
  ∃ a', blank_cols cols a = Ok a' ∧ a' ≠ [] ∧ rectangular a' ncols ∧
        length a' = length a ∧
        ∀ r c, cell_at a' r c
               = if decide (c ∈ blank_target ncols <$> cols)
                 then (λ _, 0%Z) <$> cell_at a r c else cell_at a r c.
Proof.
  unfold blank_cols. revert a.
  induction cols as [|col cols IH]; intros a Hne Hrect Hcols.
  - exists a. cbn [for_each]. repeat (split; [done|]). intros r c.
    case_decide as Hc; [|done]. by apply elem_of_nil in Hc.
  - apply Forall_cons in Hcols as [Hcol Hcols].
    destruct (zero_col_shape a (blank_target ncols col) ncols Hne Hrect)
      as (Hne1 & Hrect1 & _ & Hshape & Hlen1).
    destruct (IH _ Hne1 Hrect1 Hcols) as (a' & Hrun & Hne' & Hrect' & Hlen' & Hcells).
    exists a'. cbn [for_each]. rewrite Hshape, (np_index_blank _ _ Hcol).
    cbn [mbind res_bind]. split; [exact Hrun|].
    split; [done|]. split; [done|]. split; [congruence|].
    intros r c. rewrite Hcells, cell_at_zero_col, fmap_cons.
    destruct (decide (c ∈ blank_target ncols <$> cols)) as [H1|H1],
             (decide (c = blank_target ncols col)) as [H2|H2].
    + rewrite decide_True by (apply elem_of_cons; by left).
      by destruct (cell_at a r c).
    + rewrite decide_True by (apply elem_of_cons; by right). done.
    + rewrite decide_True by (apply elem_of_cons; by left). done.
    + rewrite decide_False; [done|]. by intros [?|?]%elem_of_cons.
Qed.

Lemma blank_cols_error (cols : list Z) (a : grid) ncols :
  a ≠ [] → rectangular a ncols →
  Exists (λ col, ¬ blank_in_range ncols col) cols →
  blank_cols cols a = Raise IndexError.
Proof.
  unfold blank_cols. revert a.
  induction cols as [|col cols IH]; intros a Hne Hrect Hex.
  - by apply Exists_nil in Hex.
  - destruct (zero_col_shape a (blank_target ncols col) ncols Hne Hrect)
      as (Hne1 & Hrect1 & _ & Hshape & _).
    cbn [for_each]. rewrite Hshape.
    destruct (decide (blank_in_range ncols col)) as [Hcol|Hcol].
    + rewrite (np_index_blank _ _ Hcol). cbn [mbind res_bind].
      apply IH; [done|done|]. apply Exists_cons in Hex as [?|?]; done.
    + by rewrite (np_index_out_of_range _ _ Hcol).
Qed.

(** X4: on a non-empty grid of [ncols] columns, [emptycols] with numbers
    between [1 - ncols] and [ncols] writes 0 into the addressed columns and
    changes nothing else (no cell elsewhere, no shape); number [k] from 1 to
    [ncols] addresses column [k - 1], and a number from [1 - ncols] to 0
    wraps around, so that 0 addresses the last column.  Any number outside
    that range makes the blanking raise IndexError. *)
Theorem emptycols_blank_columns (cols : list Z) (a : grid) (ncols : nat) :
  a ≠ [] → rectangular a ncols →
  (Forall (blank_in_range ncols) cols →
   ∃ a', blank_cols cols a = Ok a' ∧ rectangular a' ncols ∧ length a' = length a ∧
         ∀ r c, cell_at a' r c
                = if decide (c ∈ blank_target ncols <$> cols)
                  then (λ _, 0%Z) <$> cell_at a r c else cell_at a r c) ∧
  (Exists (λ col, ¬ blank_in_range ncols col) cols →
   blank_cols cols a = Raise IndexError) ∧
  (∀ k, (1 ≤ k ≤ Z.of_nat ncols)%Z → blank_target ncols k = Z.to_nat (k - 1)) ∧
  (∀ k, (- Z.of_nat ncols < k ≤ 0)%Z →
        blank_target ncols k = Z.to_nat (Z.of_nat ncols + k - 1)).
Proof.
  intros Hne Hrect. split; [|split; [|split]].
  - intros Hcols.
    destruct (blank_cols_effect cols a ncols Hne Hrect Hcols)
      as (a' & ? & _ & ? & ? & ?). by exists a'.
  - by apply blank_cols_error.
  - intros k Hk. unfold blank_target. by rewrite Z.mod_small by lia.
  - intros k Hk. unfold blank_target. f_equal.
    replace (k - 1)%Z with (Z.of_nat ncols + k - 1 + (-1) * Z.of_nat ncols)%Z at 1 by lia.
    rewrite Z.mod_add by lia. rewrite Z.mod_small; lia.
Qed.

Lemma emptycols_blank_columns_witness :
  blank_cols [2; 0]%Z [[1; 2; 3]; [4; 5; 6]]%Z = Ok [[1; 0; 0]; [4; 0; 0]]%Z ∧
  blank_cols [4]%Z [[1; 2; 3]; [4; 5; 6]]%Z = Raise IndexError.
Proof.
  destruct (emptycols_blank_columns [2; 0]%Z [[1; 2; 3]; [4; 5; 6]]%Z 3)
    as (Hok & _); [done|by repeat constructor|].
  destruct (emptycols_blank_columns [4]%Z [[1; 2; 3]; [4; 5; 6]]%Z 3)
    as (_ & Herr & _); [done|by repeat constructor|].
  split.
  - destruct Hok as (a' & Heq & _).
    { repeat constructor; unfold blank_in_range; simpl; lia. }
    rewrite Heq. vm_compute in Heq. by injection Heq as <-.
  - apply Herr. constructor. unfold blank_in_range. simpl. lia.
Defined.

Lemma zero_row_length (a : grid) i : length (zero_row a i) = length a.
Proof. unfold zero_row. apply length_alter. Qed.

Lemma blank_rows_effect (rows : list Z) (a : grid) :
  Forall (blank_in_range (length a)) rows →
  ∃ a', blank_rows rows a = Ok a' ∧ length a' = length a ∧
        ∀ r c, cell_at a' r c
               = if decide (r ∈ blank_target (length a) <$> rows)
                 then (λ _, 0%Z) <$> cell_at a r c else cell_at a r c.
Proof.
  unfold blank_rows. revert a.
  induction rows as [|row rows IH]; intros a Hrows.
  - exists a. cbn [for_each]. repeat (split; [done|]). intros r c.
    case_decide as Hr; [|done]. by apply elem_of_nil in Hr.
  - apply Forall_cons in Hrows as [Hrow Hrows].
    pose proof (zero_row_length a (blank_target (length a) row)) as Hlen1.
    destruct (IH (zero_row a (blank_target (length a) row)))
      as (a' & Hrun & Hlen' & Hcells); [by rewrite Hlen1|].
    exists a'. cbn [for_each]. cbv beta. change (shape0 a) with (length a).
    rewrite (np_index_blank _ _ Hrow). cbn [mbind res_bind].
    split; [exact Hrun|]. split; [congruence|].
    intros r c. rewrite Hcells, Hlen1, cell_at_zero_row, fmap_cons.
    destruct (decide (r ∈ blank_target (length a) <$> rows)) as [H1|H1],
             (decide (r = blank_target (length a) row)) as [H2|H2].
    + rewrite decide_True by (apply elem_of_cons; by left).
      by destruct (cell_at a r c).
    + rewrite decide_True by (apply elem_of_cons; by right). done.
    + rewrite decide_True by (apply elem_of_cons; by left). done.
    + rewrite decide_False; [done|]. by intros [?|?]%elem_of_cons.
Qed.

Lemma blank_rows_error (rows : list Z) (a : grid) :
  Exists (λ row, ¬ blank_in_range (length a) row) rows →
  blank_rows rows a = Raise IndexError.
Proof.
  unfold blank_rows. revert a.
  induction rows as [|row rows IH]; intros a Hex.
  - by apply Exists_nil in Hex.
  - cbn [for_each]. cbv beta. change (shape0 a) with (length a).
    destruct (decide (blank_in_range (length a) row)) as [Hrow|Hrow].
    + rewrite (np_index_blank _ _ Hrow). cbn [mbind res_bind].
      apply IH. rewrite zero_row_length.
      apply Exists_cons in Hex as [?|?]; done.
    + by rewrite (np_index_out_of_range _ _ Hrow).
Qed.

(** X5: [emptyrows] with numbers between [1 - nrows] and [nrows] writes 0
    into the addressed rows of the grid and changes nothing else; as for
    columns, a number from [1 - nrows] to 0 wraps around to the rows at the
    end.  Any number outside that range makes the blanking raise
    IndexError. *)
Theorem emptyrows_blank_rows (rows : list Z) (a : grid) :
  (Forall (blank_in_range (length a)) rows →
   ∃ a', blank_rows rows a = Ok a' ∧ length a' = length a ∧
         ∀ r c, cell_at a' r c
                = if decide (r ∈ blank_target (length a) <$> rows)
                  then (λ _, 0%Z) <$> cell_at a r c else cell_at a r c) ∧
  (Exists (λ row, ¬ blank_in_range (length a) row) rows →
   blank_rows rows a = Raise IndexError).
Proof. split; [apply blank_rows_effect|apply blank_rows_error]. Qed.

Lemma emptyrows_blank_rows_witness :
  blank_rows [1]%Z [[1; 2]; [3; 4]; [5; 6]]%Z = Ok [[0; 0]; [3; 4]; [5; 6]]%Z ∧
  blank_rows [-3]%Z [[1; 2]; [3; 4]; [5; 6]]%Z = Raise IndexError.
Proof.
  destruct (emptyrows_blank_rows [1]%Z [[1; 2]; [3; 4]; [5; 6]]%Z) as (Hok & _).
  destruct (emptyrows_blank_rows [-3]%Z [[1; 2]; [3; 4]; [5; 6]]%Z) as (_ & Herr).
  split.
  - destruct Hok as (a' & Heq & _).
    { repeat constructor; unfold blank_in_range; simpl; lia. }
    rewrite Heq. vm_compute in Heq. by injection Heq as <-.
  - apply Herr. constructor. unfold blank_in_range. simpl. lia.
Defined.

Lemma auto_grid_shape nrows ncols rowmajor :
  rectangular (auto_grid nrows ncols rowmajor) ncols ∧
  length (auto_grid nrows ncols rowmajor) = nrows.
Proof.
  unfold auto_grid, none_to_zero, arange_grid, rectangular. split.
  - rewrite <- list_fmap_compose. apply Forall_fmap, Forall_forall.
    intros r _. simpl. by rewrite !length_fmap, length_seq.
  - by rewrite !length_fmap, length_seq.
Qed.

(** X6: blanking one column [col] of the generated row-major grid (more
    than one column) leaves a gap in the axes numbers, so that
    normalisation raises InvalidArrangement, in every case but one: a grid
    of a single row whose last column is blanked, which gives one axes
    less. *)
Theorem blanking_generated_column (nrows ncols : nat) (col : Z) :
  1 ≤ nrows → 2 ≤ ncols → (1 ≤ col ≤ Z.of_nat ncols)%Z →
  (nrows = 1 ∧ col = Z.of_nat ncols →
   ∃ a, normalize NoArray nrows ncols true [col] [] = Ok (a, ncols - 1)) ∧
  (¬ (nrows = 1 ∧ col = Z.of_nat ncols) →
   normalize NoArray nrows ncols true [col] [] = Raise InvalidArrangement).
Proof.
  intros Hrows Hcols Hcol.
  destruct (auto_grid_shape nrows ncols true) as [Hrect Hlen].
  destruct (blank_cols_effect [col] (auto_grid nrows ncols true) ncols)
    as (a' & Hblank & _ & _ & _ & Hcells).
  { intros Hnil. rewrite Hnil in Hlen. simpl in Hlen. lia. }
  { done. }
  { repeat constructor; unfold blank_in_range; lia. }
  assert (blank_target ncols col = Z.to_nat (col - 1)) as Htarget
    by (unfold blank_target; by rewrite Z.mod_small by lia).
  assert (∀ r c v, cell_at a' r c = Some v → v ≠ 0%Z →
            c ≠ Z.to_nat (col - 1) ∧ r < nrows ∧ c < ncols ∧
            v = auto_number nrows ncols true r c) as Hkept.
  { intros r c v. rewrite Hcells. simpl. rewrite Htarget. case_decide as Hc.
    - apply list_elem_of_singleton in Hc as ->.
      destruct (cell_at _ r _); simpl; [|done]. by intros [= <-].
    - intros Hv%cell_at_auto_grid _. split; [|done].
      intros ->. apply Hc. by apply list_elem_of_singleton. }
  assert (∀ r c, r < nrows → c < ncols → c ≠ Z.to_nat (col - 1) →
            cell_at a' r c = Some (auto_number nrows ncols true r c)) as Hkeep.
  { intros r c Hr Hc Hne. rewrite Hcells. simpl. rewrite Htarget.
    rewrite decide_False by (by intros ->%list_elem_of_singleton).
    by apply cell_at_auto_grid. }
  assert (normalize NoArray nrows ncols true [col] []
          = (num_axes ← enforce_rule a'; Ok (a', num_axes))) as ->.
  { unfold normalize, prepare. simpl. fold (auto_grid nrows ncols true).
    by rewrite Hblank. }
  split.
  - intros [-> ->]. exists a'.
    rewrite (proj2 (enforce_rule_Ok a' (ncols - 1))); [done|].
    intros v. rewrite elem_of_cell_at. split.
    + intros [(r & c & Hrc) Hne].
      destruct (Hkept r c v Hrc Hne) as (? & ? & ? & ->).
      unfold auto_number. lia.
    + intros Hv. split; [|lia]. exists 0, (Z.to_nat (v - 1)).
      rewrite Hkeep by lia. f_equal. unfold auto_number. lia.
  - intros Hnot.
    destruct (enforce_rule_cases a') as [[N HN]| ->]; [|done]. exfalso.
    apply enforce_rule_Ok in HN.
    assert (∃ w, (col < w)%Z ∧ w ∈ concat a') as (w & Hw & Hin).
    { destruct (decide (col = Z.of_nat ncols)) as [->|Hlast].
      - exists (auto_number nrows ncols true 1 0). split; [unfold auto_number; lia|].
        apply elem_of_cell_at. exists 1, 0. apply Hkeep; lia.
      - exists (auto_number nrows ncols true (nrows - 1) (ncols - 1)).
        split; [unfold auto_number; nia|].
        apply elem_of_cell_at. exists (nrows - 1), (ncols - 1). apply Hkeep; lia. }
    assert (1 ≤ w ≤ Z.of_nat N)%Z by (apply HN; split; [done|lia]).
    destruct (proj2 (HN col)) as [(r & c & Hrc)%elem_of_cell_at Hne]; [lia|].
    destruct (Hkept r c col Hrc Hne) as (Hc & Hr & Hc' & Heq).
    unfold auto_number in Heq.
    assert (r = 0) as -> by nia. lia.
Qed.

Lemma blanking_generated_column_witness :
  normalize NoArray 1 3 true [2]%Z [] = Raise InvalidArrangement ∧
  normalize NoArray 1 3 true [3]%Z [] = Ok ([[1; 2; 0]]%Z, 2).
Proof.
  split.
  - destruct (blanking_generated_column 1 3 2) as [_ Hfail]; [lia|lia|lia|].
    apply Hfail. lia.
  - destruct (blanking_generated_column 1 3 3) as [Hok _]; [lia|lia|lia|].
    destruct Hok as (a & Heq); [done|].
    rewrite Heq. vm_compute in Heq. by injection Heq as <-.
Defined.

(** ** Which panels share an axis *)

Lemma share_base_group g i b :
  share_base true g i = Some b →
  ∃ k grp, groups g !! k = Some grp ∧ i ∈ grp ∧ groups_base g !! k = Some b.
Proof.
  unfold share_base.
  destruct (np_where (λ grp : list nat, i ∈ grp) (groups g)) as [|k l] eqn:Hw;
    simpl; [done|].
  intros Hb.
  assert (k ∈ np_where (λ grp : list nat, i ∈ grp) (groups g)) as Hk
    by (rewrite Hw; by left).
  apply elem_of_np_where in Hk as (grp & Hgrp & Hi). by exists k, grp.
Qed.

Lemma share_base_of_group g i k grp b :
  pairwise_disjoint (groups g) →
  groups g !! k = Some grp → i ∈ grp → groups_base g !! k = Some b →
  share_base true g i = Some b.
Proof.
  intros Hdisj Hgrp Hi Hb. unfold share_base.
  destruct (np_where_disjoint (groups g) i Hdisj) as [Hnil|(k' & grp' & -> & Hgrp' & Hi')].
  - assert (k ∈ np_where (λ grp : list nat, i ∈ grp) (groups g)) as Hk
      by (apply elem_of_np_where; eauto).
    rewrite Hnil in Hk. by apply elem_of_nil in Hk.
  - simpl. by rewrite (Hdisj k' k grp' grp i Hgrp' Hgrp Hi' Hi).
Qed.

Lemma two_members_length (g : list nat) i j :
  i ∈ g → j ∈ g → i ≠ j → 1 < length g.
Proof.
  destruct g as [|x [|y g]]; simpl; [by intros ?%elem_of_nil| |lia].
  intros ->%list_elem_of_singleton ->%list_elem_of_singleton. done.
Qed.

(** The panels that share on one axis, for any two tables of equal
    length. *)
Lemma group_loop_sharing ext keys pick order (le le' : Z → Z → Prop) :
  length keys = length ext →
  (∀ ks, ks ≠ [] → ∃ k, pick ks = Ok k ∧ k < length ks) →
  (∀ ks k, pick ks = Ok k →
     ∃ m, ks !! k = Some m ∧ ∀ j y, ks !! j = Some y → le y m ∧ (y = m → k ≤ j)) →
  (∀ ks, order ks ≡ₚ seq 0 (length ks)) →
  (∀ ks p q i j vi vj,
     p ≤ q → order ks !! p = Some i → order ks !! q = Some j →
     ks !! i = Some vi → ks !! j = Some vj → le' vi vj) →
  ∃ st,
    group_loop (length ext) ext keys pick order = Ok st ∧
    (∀ i b, share_base true st i = Some b →
            is_Some (ext !! i) ∧ ext !! i = ext !! b) ∧
    (∀ i j e, i ≠ j → ext !! i = Some e → ext !! j = Some e →
              ∃ b, share_base true st i = Some b ∧ share_base true st j = Some b).
Proof.
  intros Hlen Hpick Hspec Hperm Hord.
  destruct (group_loop_groups ext keys pick order le le' Hlen Hpick Hspec Hperm Hord)
    as (st & Hst & Hrec & Hbase & _ & Hdisj & _ & Hall).
  exists st. split; [done|]. split.
  - intros i b (k & grp & Hgrp & Hi & Hb)%share_base_group.
    eapply Forall_lookup_1 in Hrec as (_ & _ & e & Hmem); [|exact Hgrp].
    destruct (Forall2_lookup_lr _ _ _ _ _ _ Hbase Hgrp Hb) as [Hbin _].
    apply Hmem in Hi. apply Hmem in Hbin. rewrite Hi, Hbin. eauto.
  - intros i j e Hne Hi Hj.
    set (grp := np_where (λ e', e' = e) ext).
    assert (i ∈ grp) as Hi' by (apply elem_of_np_where; eauto).
    assert (j ∈ grp) as Hj' by (apply elem_of_np_where; eauto).
    destruct (proj1 (list_elem_of_lookup _ _)
                (Hall i e Hi (two_members_length grp i j Hi' Hj' Hne))) as [k Hk].
    destruct (Forall2_lookup_l _ _ _ _ _ Hbase Hk) as (b & Hb & _).
    exists b. split; by eapply share_base_of_group.
Qed.

(** X7: the x-base of a panel has the same column extent as the panel, and
    the y-base of a panel has the same row extent: a panel only ever shares
    an axis with a panel whose extent on that axis equals its own. *)
Theorem shared_base_has_same_extent
    (n : nat) (xrange yrange : list (Z * Z)) (xg yg : grouping) :
  length xrange = n → length yrange = n →
  xgroups_of true n xrange yrange = Ok xg →
  ygroups_of true n xrange yrange = Ok yg →
  (∀ i b, share_base true xg i = Some b →
          is_Some (xrange !! i) ∧ xrange !! i = xrange !! b) ∧
  (∀ i b, share_base true yg i = Some b →
          is_Some (yrange !! i) ∧ yrange !! i = yrange !! b).
Proof.
  intros Hx Hy Hxg Hyg. subst n. split.
  - destruct (group_loop_sharing xrange (snd <$> yrange) np_argmax
                (λ ks, reverse (np_argsort ks)) Z.le (λ k1 k2, (k2 ≤ k1)%Z))
      as (st & Hst & Hsound & _).
    + by rewrite length_fmap.
    + apply np_argmax_total.
    + apply np_argmax_spec.
    + intros ks. by rewrite reverse_Permutation, np_argsort_perm.
    + apply reverse_np_argsort_sorted.
    + unfold xgroups_of in Hxg. rewrite Hxg in Hst. by injection Hst as <-.
  - destruct (group_loop_sharing yrange (fst <$> xrange) np_argmin np_argsort
                (λ y m, (m ≤ y)%Z) Z.le) as (st & Hst & Hsound & _).
    + by rewrite length_fmap.
    + apply np_argmin_total.
    + apply np_argmin_spec.
    + apply np_argsort_perm.
    + apply np_argsort_sorted.
    + unfold ygroups_of in Hyg. rewrite Hy, Hyg in Hst. by injection Hst as <-.
Qed.

Lemma shared_base_has_same_extent_witness :
  ∃ xg, xgroups_of true 3 [(0, 1); (1, 2); (1, 2)]%Z [(0, 2); (0, 1); (1, 2)]%Z = Ok xg ∧
        share_base true xg 1 = Some 2 ∧
        ([(0, 1); (1, 2); (1, 2)]%Z : list (Z * Z)) !! 1
        = ([(0, 1); (1, 2); (1, 2)]%Z : list (Z * Z)) !! 2.
Proof.
  eexists. split; [reflexivity|]. split; [reflexivity|].
  eapply (shared_base_has_same_extent 3 [(0, 1); (1, 2); (1, 2)]%Z
            [(0, 2); (0, 1); (1, 2)]%Z _ _ eq_refl eq_refl eq_refl eq_refl).
  reflexivity.
Defined.

(** X8: two different panels with the same column extent always share the
    x axis with one and the same base, and two different panels with the
    same row extent share the y axis with one and the same base. *)
Theorem equal_extents_share_one_base
    (n : nat) (xrange yrange : list (Z * Z)) (xg yg : grouping) :
  length xrange = n → length yrange = n →
  xgroups_of true n xrange yrange = Ok xg →
  ygroups_of true n xrange yrange = Ok yg →
  (∀ i j e, i ≠ j → xrange !! i = Some e → xrange !! j = Some e →
            ∃ b, share_base true xg i = Some b ∧ share_base true xg j = Some b) ∧
  (∀ i j e, i ≠ j → yrange !! i = Some e → yrange !! j = Some e →
            ∃ b, share_base true yg i = Some b ∧ share_base true yg j = Some b).
Proof.
  intros Hx Hy Hxg Hyg. subst n. split.
  - destruct (group_loop_sharing xrange (snd <$> yrange) np_argmax
                (λ ks, reverse (np_argsort ks)) Z.le (λ k1 k2, (k2 ≤ k1)%Z))
      as (st & Hst & _ & Hcomplete).
    + by rewrite length_fmap.
    + apply np_argmax_total.
    + apply np_argmax_spec.
    + intros ks. by rewrite reverse_Permutation, np_argsort_perm.
    + apply reverse_np_argsort_sorted.
    + unfold xgroups_of in Hxg. rewrite Hxg in Hst. by injection Hst as <-.
  - destruct (group_loop_sharing yrange (fst <$> xrange) np_argmin np_argsort
                (λ y m, (m ≤ y)%Z) Z.le) as (st & Hst & _ & Hcomplete).
    + by rewrite length_fmap.
    + apply np_argmin_total.
    + apply np_argmin_spec.
    + apply np_argsort_perm.
    + apply np_argsort_sorted.
    + unfold ygroups_of in Hyg. rewrite Hy, Hyg in Hst. by injection Hst as <-.
Qed.

Lemma equal_extents_share_one_base_witness :
  ∃ xg b, xgroups_of true 3 [(0, 1); (1, 2); (1, 2)]%Z [(0, 2); (0, 1); (1, 2)]%Z
          = Ok xg ∧
          share_base true xg 1 = Some b ∧ share_base true xg 2 = Some b.
Proof.
  destruct (equal_extents_share_one_base 3 [(0, 1); (1, 2); (1, 2)]%Z
              [(0, 2); (0, 1); (1, 2)]%Z
              (Grouping [[1; 2]] [2] [[2; 1]] [0; 1; 2; 1; 2])
              (Grouping [] [] [] [0; 1; 2])
              eq_refl eq_refl eq_refl eq_refl) as [Hx _].
  destruct (Hx 1 2 (1, 2)%Z) as (b & H1 & H2); [done|done|done|].
  by exists (Grouping [[1; 2]] [2] [[2; 1]] [0; 1; 2; 1; 2]), b.
Defined.

(** X9: whatever the sharing flags, no panel is a member of two x-groups or
    of two y-groups: two recorded groups of one axis that have a panel in
    common are the same entry of the list of groups, and all their members
    are panel positions below the number of axes. *)
Theorem groups_never_overlap
    (sharex sharey : bool) (n : nat) (xrange yrange : list (Z * Z))
    (xg yg : grouping) :
  length xrange = n → length yrange = n →
  xgroups_of sharex n xrange yrange = Ok xg →
  ygroups_of sharey n xrange yrange = Ok yg →
  pairwise_disjoint (groups xg) ∧ pairwise_disjoint (groups yg) ∧
  (∀ g j, g ∈ groups xg ∨ g ∈ groups yg → j ∈ g → j < n).
Proof.
  intros Hx Hy Hxg Hyg.
  destruct (xgroups_of_wf sharex n xrange yrange Hx Hy) as (xg' & Hxg' & Hdx & _ & Hltx).
  destruct (ygroups_of_wf sharey n xrange yrange Hx Hy) as (yg' & Hyg' & Hdy & _ & Hlty).
  rewrite Hxg in Hxg'. rewrite Hyg in Hyg'. injection Hxg' as <-. injection Hyg' as <-.
  split; [done|]. split; [done|].
  intros g j [Hg|Hg] Hj.
  - eapply Forall_forall in Hltx; [|exact Hg]. by eapply Forall_forall in Hltx.
  - eapply Forall_forall in Hlty; [|exact Hg]. by eapply Forall_forall in Hlty.
Qed.

Lemma groups_never_overlap_witness :
  pairwise_disjoint [[0; 3]; [1; 4]; [2; 5]] ∧
  pairwise_disjoint [[0; 1; 2]; [3; 4; 5]].
Proof.
  destruct (groups_never_overlap true true 6
              [(0, 1); (1, 2); (2, 3); (0, 1); (1, 2); (2, 3)]%Z
              [(0, 1); (0, 1); (0, 1); (1, 2); (1, 2); (1, 2)]%Z
              (Grouping [[0; 3]; [1; 4]; [2; 5]] [3; 4; 5] [[3; 0]; [4; 1]; [5; 2]]
                        [0; 3; 1; 4; 2; 5; 0; 3; 1; 4; 2; 5])
              (Grouping [[0; 1; 2]; [3; 4; 5]] [0; 3] [[0; 1; 2]; [3; 4; 5]]
                        [0; 1; 2; 0; 1; 2; 0; 1; 2; 3; 4; 5; 3; 4; 5; 3; 4; 5])
              eq_refl eq_refl eq_refl eq_refl) as (Hx & Hy & _).
  by split.
Defined.

(** ** Drawing without sharing *)

Lemma plain_dependents (xrange yrange : list (Z * Z)) (xg yg : grouping)
    (whichpanels : nat → bool) (m i : nat) (drawn : list (option nat))
    (log : list call) :
  length drawn = i → i + m ≤ length xrange → i + m ≤ length yrange →
  ∃ calls,
    for_eachM (seq i m) (dependent_step false false xrange yrange xg yg whichpanels)
      (drawn ++ replicate m None) log
    = (Ok (drawn ++ (Some <$> seq (length log) m)), log ++ calls) ∧
    Forall2 (λ j c, region_call xrange yrange whichpanels j None None = Some c)
            (seq i m) calls.
Proof.
  revert i drawn log. induction m as [|m IH]; intros i drawn log Hlen Hx Hy.
  - exists []. simpl. rewrite !app_nil_r. split; [done|constructor].
  - destruct (lookup_lt_is_Some_2 yrange i) as [ye Hye]; [lia|].
    destruct (lookup_lt_is_Some_2 xrange i) as [xe Hxe]; [lia|].
    set (c := CreateRegion (whichpanels i) (i + 1) ye xe None None).
    destruct (IH (S i) (drawn ++ [Some (length log)]) (log ++ [c]))
      as (calls & Hloop & Hcalls); [rewrite length_app; simpl; lia|lia|lia|].
    exists (c :: calls). split.
    + cbn [seq for_eachM replicate]. unfold mbind at 1. unfold M_bind at 1.
      assert (dependent_step false false xrange yrange xg yg whichpanels
                (drawn ++ None :: replicate m None) i log
              = (Ok ((drawn ++ [Some (length log)]) ++ replicate m None), log ++ [c]))
        as ->.
      { unfold dependent_step, find_share, create_region, mbind, M_bind, lift, emit,
          mret, M_ret.
        rewrite (getitem_nat_Some _ i None)
          by (by rewrite lookup_app_r, Hlen, Nat.sub_diag by lia).
        rewrite (getitem_nat_Some _ _ _ Hye), (getitem_nat_Some _ _ _ Hxe).
        do 2 f_equal. rewrite <- Hlen.
        rewrite insert_app_r_alt, Nat.sub_diag by lia. simpl.
        by rewrite <- app_assoc. }
      rewrite Hloop. rewrite length_app. simpl.
      rewrite <- !app_assoc. simpl. by rewrite Nat.add_1_r.
    + constructor; [|done]. unfold region_call. by rewrite Hye, Hxe.
Qed.

(** X10: with sharing disabled on both axes the draw issues one factory
    call per panel, in id order, each with no shared source, and no other
    call; the handles of the panels are consecutive. *)
Theorem draw_without_sharing
    (n : nat) (xrange yrange : list (Z * Z)) (xg yg : grouping)
    (whichpanels : nat → bool) (log : list call) :
  length xrange = n → length yrange = n →
  ∃ calls,
    draw false false n xrange yrange xg yg whichpanels log
    = (Ok (Some <$> seq (length log) n), log ++ calls) ∧
    Forall2 (λ j c, region_call xrange yrange whichpanels j None None = Some c)
            (seq 0 n) calls.
Proof.
  intros Hx Hy.
  destruct (plain_dependents xrange yrange xg yg whichpanels n 0 [] log)
    as (calls & Hloop & Hcalls); [done|lia|lia|].
  exists calls. split; [|done].
  unfold draw, draw_bases, draw_dependents, allgroups_base. simpl.
  unfold mbind, M_bind, mret, M_ret. exact Hloop.
Qed.

Lemma draw_without_sharing_witness :
  draw false false 2 [(0, 1); (1, 2)]%Z [(0, 1); (0, 1)]%Z no_groups no_groups
       (λ _, false) [NewFigure]
  = (Ok [Some 1; Some 2],
     [NewFigure; CreateRegion false 1 (0, 1)%Z (0, 1)%Z None None;
      CreateRegion false 2 (0, 1)%Z (1, 2)%Z None None]).
Proof.
  destruct (draw_without_sharing 2 [(0, 1); (1, 2)]%Z [(0, 1); (0, 1)]%Z
              no_groups no_groups (λ _, false) [NewFigure] eq_refl eq_refl)
    as (calls & Heq & _).
  rewrite Heq. vm_compute in Heq. by injection Heq as <-.
Defined.

(** ** Every panel is created once *)

Lemma for_eachM_invariant {A S} (P : S → list call → Prop) (body : S → A → M S)
    l s log s' log' :
  (∀ s x log s' log', P s log → body s x log = (Ok s', log') → P s' log') →
  P s log → for_eachM l body s log = (Ok s', log') → P s' log'.
Proof.
  intros Hbody. revert s log. induction l as [|x l IH]; intros s log HP; simpl.
  - unfold mret, M_ret. by intros [= <- <-].
  - unfold mbind, M_bind.
    destruct (body s x log) as [[s1|e] log1] eqn:Hx; [|done]. eauto.
Qed.

Lemma base_step_handles_ge (xrange yrange : list (Z * Z)) whichpanels start
    (axs : list (option nat)) b log axs' log' :
  (∀ j h, handle_of axs j = Some h → start ≤ h) ∧ start ≤ length log →
  base_step xrange yrange whichpanels axs b log = (Ok axs', log') →
  (∀ j h, handle_of axs' j = Some h → start ≤ h) ∧ start ≤ length log'.
Proof.
  intros [Hge Hlen]. unfold base_step, create_region, getitem_nat, mbind, M_bind,
    lift, emit, mret, M_ret.
  destruct (axs !! b) as [[h|]|] eqn:Hb; [by intros [= <- <-]| |done].
  destruct (yrange !! b); [|done]. destruct (xrange !! b); [|done].
  intros [= <- <-]. split; [|rewrite length_app; lia].
  intros j h. rewrite handle_of_insert by (by eapply lookup_lt_Some).
  case_decide; [|by apply Hge]. intros [= <-]. done.
Qed.

Lemma omap_fmap_default {A B} (f : A → option B) (d : B) (l : list A) :
  Forall (λ x, is_Some (f x)) l → omap f l = (λ x, default d (f x)) <$> l.
Proof.
  induction 1 as [|x l [y Hy] _ IH]; [done|]. simpl. rewrite Hy. simpl. by f_equal.
Qed.

Lemma created_app l1 l2 : created (l1 ++ l2) = created l1 ++ created l2.
Proof. apply omap_app. Qed.

Lemma created_adoption setup axs i base :
  (∀ h s, call_number (setup h s) = None) →
  created (adoption setup axs i base) = [].
Proof.
  intros Hsetup. unfold adoption. destruct base as [b|]; [|done].
  case_decide; [done|].
  destruct (handle_of axs i), (handle_of axs b); simpl; try done.
  unfold created. simpl. by rewrite Hsetup.
Qed.

Lemma created_second_pass sharex sharey (xrange yrange : list (Z * Z)) xg yg
    whichpanels axs (l : list nat) :
  (∀ i, i ∈ l → i < length xrange ∧ i < length yrange) →
  created (concat (second_pass_calls sharex sharey xrange yrange xg yg whichpanels axs
                     <$> l))
  = (λ i, i + 1) <$> filter (λ i, ¬ i ∈ allgroups_base sharex sharey xg yg) l.
Proof.
  induction l as [|i l IH]; intros Hl; [done|].
  rewrite fmap_cons. cbn [concat]. rewrite created_app, IH
    by (intros j Hj; apply Hl; by right).
  rewrite filter_cons. unfold second_pass_calls at 1. cbv zeta.
  destruct (decide (i ∈ allgroups_base sharex sharey xg yg)) as [Hi|Hi].
  - rewrite decide_False by tauto.
    by rewrite created_app, !created_adoption.
  - rewrite decide_True by done. unfold region_call.
    destruct (Hl i) as [Hx Hy]; [by left|].
    destruct (lookup_lt_is_Some_2 xrange i Hx) as [xe ->].
    destruct (lookup_lt_is_Some_2 yrange i Hy) as [ye ->]. done.
Qed.

Lemma draw_creates_all
    (sharex sharey : bool) (n : nat) (xrange yrange : list (Z * Z))
    (xg yg : grouping) (whichpanels : nat → bool) (log : list call) :
  length xrange = n → length yrange = n →
  xgroups_of sharex n xrange yrange = Ok xg →
  ygroups_of sharey n xrange yrange = Ok yg →
  ∃ axs calls,
    draw sharex sharey n xrange yrange xg yg whichpanels log = (Ok axs, log ++ calls) ∧
    length axs = n ∧ (∀ j, j < n → is_Some (handle_of axs j)) ∧
    created calls ≡ₚ seq 1 n.
Proof.
  intros Hx Hy Hxg Hyg.
  destruct (xgroups_of_wf sharex n xrange yrange Hx Hy) as (xg' & Hxg' & Hxwf).
  destruct (ygroups_of_wf sharey n xrange yrange Hx Hy) as (yg' & Hyg' & Hywf).
  rewrite Hxg in Hxg'. rewrite Hyg in Hyg'. injection Hxg' as <-. injection Hyg' as <-.
  destruct (draw_run sharex sharey n xrange yrange xg yg whichpanels Hx Hy Hxwf Hywf log)
    as (axs1 & calls1 & axs2 & Hrun1 & Hrun2 & Hfirst & Hbases & Hrest & Hsurj & Hinv).
  destruct Hinv as (Hlen2 & Hlog & Hinj & _ & Hdrawn & _).
  set (bases := allgroups_base sharex sharey xg yg) in *.
  set (calls2 := concat (second_pass_calls sharex sharey xrange yrange xg yg
                           whichpanels axs2 <$> seq 0 n)) in *.
  exists axs2, (calls1 ++ calls2). split.
  { unfold draw, mbind, M_bind.
    fold (draw_bases sharex sharey xrange yrange xg yg whichpanels (replicate n None) log).
    rewrite Hrun1. fold (draw_dependents sharex sharey n xrange yrange xg yg
      whichpanels axs1 (log ++ calls1)). by rewrite Hrun2, app_assoc. }
  split; [exact Hlen2|]. split; [exact Hdrawn|].
  assert (∀ j h, handle_of axs1 j = Some h → length log ≤ h) as Hge.
  { eapply (for_eachM_invariant
              (λ axs l, (∀ j h, handle_of axs j = Some h → length log ≤ h) ∧
                        length log ≤ length l)); [| |exact Hrun1].
    - intros s b l s' l'. apply base_step_handles_ge.
    - split; [|done]. intros j h. by rewrite handle_of_replicate. }
  assert (∀ b h, handle_of axs1 b = Some h → b ∈ bases ∧ handle_of axs2 b = Some h)
    as Hsame.
  { intros b h Hh. destruct (decide (b ∈ bases)) as [Hb|Hb].
    - split; [done|]. destruct (Hbases b Hb) as (h' & H1 & H2 & _). congruence.
    - rewrite (Hrest b Hb) in Hh. done. }
  assert (∀ p c, calls1 !! p = Some c →
            ∃ b, b ∈ bases ∧ handle_of axs1 b = Some (length log + p) ∧
                 call_number c = Some (b + 1)) as HA.
  { intros p c Hp. destruct (Hsurj p) as [b Hb]; [by eapply lookup_lt_Some|].
    destruct (Hsame b _ Hb) as [Hbin Hb2]. exists b. split; [done|]. split; [done|].
    destruct (Hlog b _ Hb2) as (_ & sx & sy & Hcall).
    rewrite lookup_app_l in Hcall
      by (rewrite length_app; apply lookup_lt_Some in Hp; lia).
    rewrite lookup_app_r, Nat.add_comm, Nat.add_sub, Hp in Hcall by lia.
    unfold region_call in Hcall.
    destruct (yrange !! b); simpl in Hcall; [|done].
    destruct (xrange !! b); simpl in Hcall; [|done]. by injection Hcall as ->. }
  assert (∀ b, b ∈ bases → b < n) as Hblt.
  { intros b Hb. destruct (Hbases b Hb) as (h & _ & H2 & _).
    apply handle_of_Some, lookup_lt_Some in H2. lia. }
  assert (created calls1 ≡ₚ (λ i, i + 1) <$> filter (λ i, i ∈ bases) (seq 0 n)) as H1.
  { apply NoDup_Permutation.
    - unfold created. rewrite (omap_fmap_default call_number 0 calls1).
      2:{ apply Forall_lookup. intros p c Hp.
          destruct (HA p c Hp) as (b & _ & _ & ->). done. }
      apply NoDup_alt. intros p q x. rewrite !list_lookup_fmap.
      destruct (calls1 !! p) as [cp|] eqn:Hp; simpl; [|done].
      destruct (calls1 !! q) as [cq|] eqn:Hq; simpl; [|done].
      destruct (HA p cp Hp) as (bp & _ & Hhp & ->).
      destruct (HA q cq Hq) as (bq & _ & Hhq & ->). simpl.
      intros [= <-] [= Heq]. assert (bq = bp) as -> by lia.
      rewrite Hhp in Hhq. injection Hhq. lia.
    - apply NoDup_fmap_2; [intros ? ?; lia|]. apply NoDup_filter, NoDup_seq.
    - intros x. unfold created.
      rewrite list_elem_of_omap, list_elem_of_fmap. split.
      + intros (c & [p Hp]%list_elem_of_lookup & Hc).
        destruct (HA p c Hp) as (b & Hb & _ & Hnum).
        exists b. split; [congruence|].
        apply list_elem_of_filter. split; [done|]. apply elem_of_seq.
        specialize (Hblt b Hb). lia.
      + intros (b & -> & [Hb _]%list_elem_of_filter).
        destruct (Hbases b Hb) as (h & Hh1 & Hh2 & Hlt).
        pose proof (Hge b h Hh1) as Hgeh. rewrite length_app in Hlt.
        destruct (lookup_lt_is_Some_2 calls1 (h - length log)) as [c Hc]; [lia|].
        exists c. split; [by eapply list_elem_of_lookup_2|].
        destruct (HA _ c Hc) as (b' & _ & Hh' & Hnum).
        replace (length log + (h - length log)) with h in Hh' by lia.
        destruct (Hsame b' h Hh') as [_ Hb2'].
        by rewrite (Hinj b' b h Hb2' Hh2) in Hnum. }
  rewrite created_app, H1. unfold calls2.
  rewrite created_second_pass
    by (intros i Hi%elem_of_seq; lia).
  rewrite <- fmap_app.
  trans ((λ i, i + 1) <$> seq 0 n).
  - apply fmap_Permutation, (filter_app_complement (λ i, i ∈ bases)).
  - rewrite <- fmap_S_seq. apply eq_subrelation; [apply _|].
    apply list_fmap_ext. intros _ i _. lia.
Qed.


(** X11: whatever the sharing flags, the factory calls of one draw create
    every panel exactly once: the panel numbers of the calls that create a
    region are the numbers 1 to [n] of the axes, each once, in some
    order. *)
Theorem every_panel_created_once
    (sharex sharey : bool) (n : nat) (xrange yrange : list (Z * Z))
    (xg yg : grouping) (whichpanels : nat → bool) (log : list call) :
  length xrange = n → length yrange = n →
  xgroups_of sharex n xrange yrange = Ok xg →
  ygroups_of sharey n xrange yrange = Ok yg →
  ∃ axs calls,
    draw sharex sharey n xrange yrange xg yg whichpanels log = (Ok axs, log ++ calls) ∧
    created calls ≡ₚ seq 1 n.
Proof.
  intros Hx Hy Hxg Hyg.
  destruct (draw_creates_all sharex sharey n xrange yrange xg yg whichpanels log
              Hx Hy Hxg Hyg) as (axs & calls & Hdraw & _ & _ & Hcreated).
  by exists axs, calls.
Qed.

Lemma every_panel_created_once_witness :
  ∃ axs calls,
    draw true false 2 [(0, 1); (0, 1)]%Z [(0, 1); (1, 2)]%Z
         (Grouping [[0; 1]] [1] [[1; 0]] [0; 1; 0; 1]) no_groups (λ _, false) []
    = (Ok axs, [] ++ calls) ∧
    created calls ≡ₚ seq 1 2.
Proof.
  apply (every_panel_created_once true false 2); by vm_compute.
Defined.

(** ** Attribute lookup on the collection: the other branches *)

Section lookup_facts.
Context {Args Val World : Type}.
Implicit Types (self pre post rest : list (axes_list.axes Args Val World)).
Implicit Types (ax : axes_list.axes Args Val World) (attr : string).

Lemma contains_none_prefix (pre rest : list (axes_list.attribute Args Val World)) :
  Forall (λ v, axes_list.callable v = true ∨ ∃ d, v = axes_list.AttrData d (Ok false)) pre →
  axes_list.contains_none (pre ++ rest) = axes_list.contains_none rest.
Proof.
  induction 1 as [|v pre Hv _ IH]; [done|].
  cbn [app axes_list.contains_none].
  destruct Hv as [Hv|[d ->]]; [destruct v; try done|]; exact IH.
Qed.

Lemma data_values self attr vs :
  Forall2 (λ ax v, ax attr = axes_list.AttrData v (Ok false)) self vs →
  axes_list.contains_none ((λ ax, ax attr) <$> self) = Ok false ∧
  (self ≠ [] → forallb axes_list.callable ((λ ax, ax attr) <$> self) = false) ∧
  forallb (λ v, negb (axes_list.callable v)) ((λ ax, ax attr) <$> self) = true ∧
  omap (axes_list.data_of Args Val World) ((λ ax, ax attr) <$> self) = vs.
Proof.
  induction 1 as [|ax v self vs Hax _ (IH1 & IH2 & IH3 & IH4)]; [done|].
  rewrite fmap_cons. cbn [axes_list.contains_none forallb]. rewrite Hax.
  cbn [axes_list.eq_none mbind res_bind].
  rewrite IH1, IH3. repeat split; try done.
  change (omap ?f (?x :: ?l)) with (from_option (λ y, y :: omap f l) (omap f l) (f x)).
  by rewrite IH4.
Qed.

Lemma iterate_app pre rest attr (args : Args) ret w ress w' :
  axes_list.fanned_out attr args pre w ress w' →
  axes_list.iterate (pre ++ rest) attr args ret w
  = axes_list.iterate rest attr args (ret ++ omap id ress) w'.
Proof.
  intros Hfan. revert ret.
  induction Hfan as [w|ax self f w res w' ress w'' Hax Hf _ IH]; intros ret; simpl.
  - by rewrite app_nil_r.
  - rewrite Hax, Hf. destruct res as [v|]; simpl.
    + rewrite IH. by rewrite <- app_assoc.
    + apply IH.
Qed.

(** X12: the test for a missing name looks at the values in the order of
    the members and stops at the first that settles it.  When the members
    before [ax] all have a method or a field that differs from None, the
    lookup raises the no-such-method error if [ax] lacks the name, and it
    raises the error of the comparison if [ax] holds a field whose
    comparison with None has no truth value (an array of two or more
    elements), whatever the members after [ax] have. *)
Theorem getattr_missing_attribute pre ax post attr :
  Forall (λ a, axes_list.callable (a attr) = true ∨
               ∃ v, a attr = axes_list.AttrData v (Ok false)) pre →
  (ax attr = axes_list.AttrNone →
   axes_list.getattr (pre ++ ax :: post) attr = Raise NoSuchMethod) ∧
  (∀ v e, ax attr = axes_list.AttrData v (Raise e) →
          axes_list.getattr (pre ++ ax :: post) attr = Raise e).
Proof.
  intros Hpre.
  assert (axes_list.contains_none
            ((λ a : axes_list.axes Args Val World, a attr) <$> pre ++ ax :: post)
          = axes_list.contains_none
              ((λ a : axes_list.axes Args Val World, a attr) <$> ax :: post)) as Hskip.
  { rewrite fmap_app. apply contains_none_prefix.
    apply Forall_fmap. eapply Forall_impl; [exact Hpre|]. done. }
  split.
  - intros Hax. unfold axes_list.getattr. cbv zeta. rewrite Hskip, fmap_cons.
    cbn [axes_list.contains_none]. by rewrite Hax.
  - intros v e Hax. unfold axes_list.getattr. cbv zeta. rewrite Hskip, fmap_cons.
    cbn [axes_list.contains_none]. by rewrite Hax.
Qed.

(** X13: when the name is, on every member of a non-empty collection, a
    field that is not callable and that differs from None, the lookup
    returns the values of the field in the order of the members; a
    collection of one member returns the bare value. *)
Theorem getattr_data_fields self attr (vs : list Val) :
  Forall2 (λ ax v, ax attr = axes_list.AttrData v (Ok false)) self vs →
  vs ≠ [] →
  axes_list.getattr self attr
  = Ok (match vs with [v] => axes_list.Value v | _ => axes_list.Values vs end).
Proof.
  intros Hall Hne. destruct (data_values self attr vs Hall) as (H1 & H2 & H3 & H4).
  unfold axes_list.getattr. cbv zeta. rewrite H1. cbn [mbind res_bind].
  rewrite H2, H3, H4.
  - by destruct vs as [|v [|v' vs]].
  - intros ->. by inversion Hall; subst.
Qed.

(** X14: a broadcast stops at the first member whose method raises: the
    members before it have been called in order, the exception is the one of
    that call, the state is the one that call left, and the members after it
    are not called. *)
Theorem broadcast_stops_at_first_error pre ax post attr (args : Args)
    (f : axes_list.method Args Val World) w ress w' e w'' :
  axes_list.fanned_out attr args pre w ress w' →
  ax attr = axes_list.AttrCallable f →
  Forall (λ ax, axes_list.callable (ax attr) = true) post →
  f args w' = (Raise e, w'') →
  ∃ call,
    axes_list.getattr (pre ++ ax :: post) attr = Ok (axes_list.Broadcast call) ∧
    call args w = (Raise e, w'').
Proof.
  intros Hfan Hax Hpost Hf. exists (axes_list.iterator (pre ++ ax :: post) attr).
  split.
  - assert (forallb axes_list.callable ((λ ax, ax attr) <$> pre ++ ax :: post) = true)
      as Hall.
    { apply forallb_true_Forall, Forall_fmap, Forall_app. split.
      - clear -Hfan. induction Hfan as [|???????? Hc]; constructor; [|done].
        simpl. by rewrite Hc.
      - constructor; [simpl; by rewrite Hax|done]. }
    unfold axes_list.getattr. cbv zeta.
    rewrite (contains_none_callable _ Hall). cbn [mbind res_bind]. rewrite Hall.
    destruct pre; done.
  - unfold axes_list.iterator. rewrite (iterate_app pre (ax :: post) attr args [] w ress w' Hfan).
    simpl. by rewrite Hax, Hf.
Qed.
End lookup_facts.

Lemma getattr_missing_attribute_witness :
  axes_list.getattr [example_axes "a" (Some 1); failing_axes "b"; array_axes] "number"
  = Raise NoSuchMethod ∧
  axes_list.getattr [example_axes "a" (Some 1); array_axes; failing_axes "b"] "number"
  = Raise AmbiguousTruthValue ∧
  axes_list.getattr [array_axes] "number" = Raise AmbiguousTruthValue.
Proof.
  split; [|split].
  - destruct (getattr_missing_attribute [example_axes "a" (Some 1)] (failing_axes "b")
                [array_axes] "number") as [Hmiss _]; [|by apply Hmiss].
    constructor; [right; by exists 7|constructor].
  - destruct (getattr_missing_attribute [example_axes "a" (Some 1)] array_axes
                [failing_axes "b"] "number") as [_ Herr]; [|by apply (Herr 7)].
    constructor; [right; by exists 7|constructor].
  - destruct (getattr_missing_attribute [] array_axes [] "number") as [_ Herr];
      [constructor|by apply (Herr 7)].
Defined.

Lemma getattr_data_fields_witness :
  axes_list.getattr [example_axes "a" None; example_axes "b" None] "number"
  = Ok (axes_list.Values [7; 7]) ∧
  axes_list.getattr [example_axes "a" None] "number" = Ok (axes_list.Value 7).
Proof.
  split.
  - apply (getattr_data_fields [example_axes "a" None; example_axes "b" None]
             "number" [7; 7]); [by repeat constructor|done].
  - apply (getattr_data_fields [example_axes "a" None] "number" [7]);
      [by repeat constructor|done].
Defined.

Lemma broadcast_stops_at_first_error_witness :
  ∃ call,
    axes_list.getattr [example_axes "a" (Some 1); failing_axes "b";
                       example_axes "c" (Some 3)] "plot"
    = Ok (axes_list.Broadcast call) ∧
    call () [] = (Raise TypeError, ["a"; "b"]).
Proof.
  apply (broadcast_stops_at_first_error [example_axes "a" (Some 1)] (failing_axes "b")
           [example_axes "c" (Some 3)] "plot" ()
           (λ _ w, (Raise TypeError, w ++ ["b"])) [] [Some 1] ["a"]).
  - econstructor; [reflexivity|reflexivity|constructor].
  - reflexivity.
  - by repeat constructor.
  - reflexivity.
Defined.

(** ** Indexing the collection: errors and the whole slice *)

Lemma omap_lookup_seq {A : Type} (pre self : list A) :
  omap (λ p : Z, (pre ++ self) !! Z.to_nat p)
       ((λ k, 0 + k * 1)%Z <$> seqZ (Z.of_nat (length pre)) (Z.of_nat (length self)))
  = self.
Proof.
  revert pre. induction self as [|x self IH]; intros pre; [done|].
  cbn [length]. rewrite Nat2Z.inj_succ, seqZ_cons by lia.
  rewrite fmap_cons.
  change (omap ?f (?y :: ?l)) with (from_option (λ z, z :: omap f l) (omap f l) (f y)).
  cbv beta.
  replace (Z.to_nat (0 + Z.of_nat (length pre) * 1)) with (length pre + 0) by lia.
  rewrite lookup_app_r, Nat.add_0_r, Nat.sub_diag by lia. cbn [lookup list_lookup from_option].
  f_equal. specialize (IH (pre ++ [x])).
  rewrite <- app_assoc, length_app in IH. cbn [app length] in IH.
  replace (Z.succ (Z.of_nat (length pre))) with (Z.of_nat (length pre + 1)) by lia.
  by replace (Z.pred (Z.succ (Z.of_nat (length self)))) with (Z.of_nat (length self))
    by lia.
Qed.

(** X15: an integer index outside [-len, len) raises IndexError, and a
    slice of step 0 raises the error of a list, whatever its bounds. *)
Theorem getitem_rejects {A : Type} (self : list A) :
  (∀ i, (i < - Z.of_nat (length self) ∨ Z.of_nat (length self) ≤ i)%Z →
        axes_list.getitem self (axes_list.IInt i) = Raise IndexError) ∧
  (∀ start stop,
     axes_list.getitem self (axes_list.ISlice start stop (Some 0%Z)) = Raise SliceStepZero).
Proof.
  split; [|done]. intros i Hi.
  unfold axes_list.getitem, axes_list.list_getitem. cbv zeta.
  destruct (decide (i < 0)%Z).
  - rewrite decide_False by lia. done.
  - rewrite decide_True by lia.
    rewrite lookup_ge_None_2 by lia. done.
Qed.

Lemma getitem_rejects_witness :
  axes_list.getitem [10; 20; 30] (axes_list.IInt 3) = Raise IndexError ∧
  axes_list.getitem [10; 20; 30] (axes_list.IInt (-4)) = Raise IndexError.
Proof.
  destruct (getitem_rejects [10; 20; 30]) as [Hint _].
  split; apply Hint; simpl; lia.
Defined.

(** X16: the slice without bounds and step returns a collection of all the
    members in their order. *)
Theorem getitem_whole_slice {A : Type} (self : list A) :
  axes_list.getitem self (axes_list.ISlice None None None) = Ok (axes_list.AxesList self).
Proof.
  unfold axes_list.getitem, axes_list.list_getitem, axes_list.slice_positions.
  cbn [default]. cbv zeta. rewrite decide_False by done.
  cbn [axes_list.adjust mbind res_bind].
  destruct (decide (1 < 0)%Z); [lia|].
  assert (axes_list.slice_length 0 (Z.of_nat (length self)) 1 = Z.of_nat (length self))
    as ->.
  { unfold axes_list.slice_length. rewrite decide_False by done.
    case_decide; [|lia]. rewrite Z.div_1_r. lia. }
  pose proof (omap_lookup_seq [] self) as Hall. cbn [app length] in Hall.
  change (Z.of_nat 0) with 0%Z in Hall. by rewrite Hall.
Qed.

(** ** The property resolver: the other ways of giving a property *)

Lemma unfurl_all_axes (N : nat) (v : pyval) :
  ∃ m, unfurl [(all_axes N, v)] = Ok m ∧
       dom m = list_to_set (seqZ 0 (Z.of_nat N)) ∧
       ∀ p, m !! p = if decide (0 ≤ p < Z.of_nat N)%Z then Some v else None.
Proof.
  destruct (unfurl_total [(all_axes N, v)]) as [m Hm]; [by repeat constructor|].
  exists m. split; [done|].
  assert (∀ p, m !! p = if decide (0 ≤ p < Z.of_nat N)%Z then Some v else None) as Hlk.
  { intros p. rewrite (unfurl_lookup _ m Hm). cbn [entry_for fst snd].
    unfold holds, all_axes. cbn [key_ids].
    destruct (decide (0 ≤ p < Z.of_nat N)%Z) as [Hp|Hp].
    - rewrite decide_True; [done|]. apply elem_of_seqZ. lia.
    - rewrite decide_False; [done|]. rewrite elem_of_seqZ. lia. }
  split; [|done]. apply set_eq. intros p.
  rewrite elem_of_dom, Hlk, elem_of_list_to_set, elem_of_seqZ.
  case_decide; split; try done; try lia.
Qed.

Lemma unfurl_string_key items s v m0 :
  (KStr s, v) ∈ items →
  for_each items (λ (kw_out : gmap Z pyval) (kv : pykey * pyval),
    nums ← key_ids kv.1;
    Ok (foldl (λ (m : gmap Z pyval) num, <[(num - 1)%Z := kv.2]> m) kw_out nums)) m0
  = Raise TypeError.
Proof.
  revert m0. induction items as [|kv items IH]; intros m0 Hin.
  - by apply elem_of_nil in Hin.
  - cbn [for_each]. destruct kv as [[n|ns|lo hi|s'] v']; cbn [key_ids fst mbind res_bind];
      try (apply IH; apply elem_of_cons in Hin as [[=]|Hin]; done).
    done.
Qed.

(** X17: a property given as one value that is not a mapping is the
    property of every panel: the result has exactly the positions 0 to N-1,
    each with that value. *)
Theorem axes_dict_single_value (N : nat) (v : pyval) :
  is_dict v = false →
  ∃ kw_out, axes_dict N v false = Ok kw_out ∧
            ∀ p, kw_out !! p = if decide (0 ≤ p < Z.of_nat N)%Z then Some v else None.
Proof.
  intros Hv. destruct (unfurl_all_axes N v) as (m & Hm & Hdom & Hlk).
  exists m. split; [|done].
  unfold axes_dict, as_mapping. cbn [negb]. rewrite Hv. cbn [mbind res_bind].
  rewrite Hm. cbn [mbind res_bind]. by rewrite decide_True.
Qed.

Lemma axes_dict_single_value_witness :
  ∃ kw_out, axes_dict 3 (VStr "k") false = Ok kw_out ∧
            kw_out !! 2%Z = Some (VStr "k") ∧ kw_out !! 3%Z = None.
Proof.
  destruct (axes_dict_single_value 3 (VStr "k") eq_refl) as (m & Hm & Hlk).
  exists m. split; [done|]. by rewrite !Hlk.
Defined.

(** X18: with [kw] set, a mapping none of whose values is a mapping is a
    set of options for every panel: every position 0 to N-1 gets the whole
    mapping.  A mapping with both kinds of values raises MixedNesting, a
    mapping of mappings is read as without [kw], and a value that is not a
    mapping has no [values] to look at. *)
Theorem axes_dict_options (N : nat) (items : list (pykey * pyval)) :
  (Forall (λ kv : pykey * pyval, is_dict kv.2 = false) items →
   ∃ kw_out, axes_dict N (VDict items) true = Ok kw_out ∧
             ∀ p, kw_out !! p
                  = if decide (0 ≤ p < Z.of_nat N)%Z then Some (VDict items) else None) ∧
  (∀ kv1 kv2, kv1 ∈ items → kv2 ∈ items →
     is_dict kv1.2 = true → is_dict kv2.2 = false →
     axes_dict N (VDict items) true = Raise MixedNesting) ∧
  (items ≠ [] → Forall (λ kv : pykey * pyval, is_dict kv.2 = true) items →
   axes_dict N (VDict items) true = axes_dict N (VDict items) false) ∧
  (∀ v, is_dict v = false → axes_dict N v true = Raise AttributeError).
Proof.
  split; [|split; [|split]].
  - intros Hflat. destruct (unfurl_all_axes N (VDict items)) as (m & Hm & Hdom & Hlk).
    exists m. split; [|done].
    assert (existsb id ((λ kv : pykey * pyval, is_dict kv.2) <$> items) = false) as Hex.
    { clear -Hflat. induction Hflat as [|kv items Hkv _ IH]; [done|].
      rewrite fmap_cons. cbn [existsb]. unfold id at 1. by rewrite Hkv, IH. }
    unfold axes_dict, as_mapping. cbn [negb]. cbv zeta. rewrite Hex.
    cbn [negb mbind res_bind]. rewrite Hm. cbn [mbind res_bind]. by rewrite decide_True.
  - intros kv1 kv2 Hin1 Hin2 Hd1 Hd2.
    assert (existsb id ((λ kv : pykey * pyval, is_dict kv.2) <$> items) = true) as Hex.
    { apply existsb_exists. exists true. split; [|done].
      apply list_elem_of_In, list_elem_of_fmap. exists kv1. by rewrite Hd1. }
    assert (forallb id ((λ kv : pykey * pyval, is_dict kv.2) <$> items) = false) as Hall.
    { apply not_true_is_false. intros Hall. rewrite forallb_forall in Hall.
      specialize (Hall false). unfold id in Hall. discriminate Hall.
      apply list_elem_of_In, list_elem_of_fmap. exists kv2. by rewrite Hd2. }
    unfold axes_dict, as_mapping. cbn [negb]. cbv zeta. by rewrite Hex, Hall.
  - intros Hne Hnested.
    assert (existsb id ((λ kv : pykey * pyval, is_dict kv.2) <$> items) = true) as Hex.
    { destruct Hnested as [|kv items Hkv _]; [done|].
      rewrite fmap_cons. cbn [existsb]. unfold id at 1. by rewrite Hkv. }
    assert (forallb id ((λ kv : pykey * pyval, is_dict kv.2) <$> items) = true) as Hall.
    { clear -Hnested. induction Hnested as [|kv items Hkv _ IH]; [done|].
      rewrite fmap_cons. cbn [forallb]. unfold id at 1. by rewrite Hkv, IH. }
    unfold axes_dict, as_mapping. cbn [negb is_dict]. cbv zeta. by rewrite Hex, Hall.
  - intros v Hv. unfold axes_dict, as_mapping. cbn [negb]. by destruct v.
Qed.

Lemma axes_dict_options_witness :
  (∃ kw_out,
     axes_dict 2 (VDict [(KStr "color", VStr "k"); (KStr "lw", VInt 2)]) true = Ok kw_out ∧
     kw_out !! 1%Z = Some (VDict [(KStr "color", VStr "k"); (KStr "lw", VInt 2)])) ∧
  axes_dict 2 (VDict [(KInt 1, VDict []); (KStr "lw", VInt 2)]) true = Raise MixedNesting ∧
  axes_dict 2 (VStr "k") true = Raise AttributeError.
Proof.
  split; [|split].
  - destruct (axes_dict_options 2 [(KStr "color", VStr "k"); (KStr "lw", VInt 2)])
      as [Hflat _].
    destruct Hflat as (m & Hm & Hlk); [by repeat constructor|].
    exists m. split; [done|]. by rewrite Hlk.
  - destruct (axes_dict_options 2 [(KInt 1, VDict []); (KStr "lw", VInt 2)])
      as (_ & Hmixed & _).
    apply (Hmixed (KInt 1, VDict []) (KStr "lw", VInt 2)); try done.
    + apply elem_of_cons. by left.
    + apply elem_of_cons. right. apply elem_of_cons. by left.
  - destruct (axes_dict_options 2 []) as (_ & _ & _ & Hattr). by apply Hattr.
Defined.

(** X19: a mapping whose keys are numbers and which gives a property to a
    number outside 1..N is rejected with InvalidPropertySpec, and the message
    lists that number; a mapping with a string key fails with TypeError at
    the subtraction. *)
Theorem axes_dict_rejects_foreign_key (N : nat) (items : list (pykey * pyval)) :
  (Forall (λ kv : pykey * pyval, numeric_key kv.1) items →
   ∀ id, is_Some (entry_for items id) → ¬ (1 ≤ id ≤ Z.of_nat N)%Z →
     ∃ listed,
       axes_dict N (VDict items) false = Raise (InvalidPropertySpec N (VDict items) listed) ∧
       id ∈ listed) ∧
  (∀ s v, (KStr s, v) ∈ items → axes_dict N (VDict items) false = Raise TypeError).
Proof.
  split.
  - intros Hnum id Hid Hout. destruct (unfurl_total items Hnum) as [m Hm].
    pose proof (unfurl_lookup items m Hm) as Hlk.
    exists (listed_axes m). rewrite axes_dict_of_mapping, Hm. cbn [mbind res_bind].
    assert (id ∈ listed_axes m) as Hlisted.
    { rewrite elem_of_listed_axes, Hlk. by replace (id - 1 + 1)%Z with id by lia. }
    split; [|done]. rewrite decide_False; [done|]. intros Hdom.
    assert ((id - 1)%Z ∈ dom m) as Hin.
    { apply elem_of_dom. rewrite Hlk. by replace (id - 1 + 1)%Z with id by lia. }
    rewrite Hdom, elem_of_list_to_set, elem_of_seqZ in Hin. lia.
  - intros s v Hin. rewrite axes_dict_of_mapping. unfold unfurl.
    by rewrite (unfurl_string_key items s v ∅ Hin).
Qed.

Lemma axes_dict_rejects_foreign_key_witness :
  (∃ listed,
     axes_dict 2 (VDict [(KTuple [1; 2]%Z, VStr "a"); (KInt 5, VStr "b")]) false
     = Raise (InvalidPropertySpec 2
                (VDict [(KTuple [1; 2]%Z, VStr "a"); (KInt 5, VStr "b")]) listed) ∧
     5%Z ∈ listed) ∧
  axes_dict 2 (VDict [(KInt 1, VStr "a"); (KStr "2", VStr "b")]) false = Raise TypeError.
Proof.
  split.
  - destruct (axes_dict_rejects_foreign_key 2
                [(KTuple [1; 2]%Z, VStr "a"); (KInt 5, VStr "b")]) as [Hout _].
    apply (Hout ltac:(by repeat constructor) 5%Z); [by eexists|lia].
  - destruct (axes_dict_rejects_foreign_key 2
                [(KInt 1, VStr "a"); (KStr "2", VStr "b")]) as [_ Hstr].
    apply (Hstr "2" (VStr "b")). apply elem_of_cons. right. apply elem_of_cons. by left.
Defined.

(** ** The whole function, once the geometry is resolved *)






(** ** Sharing in the generated grid *)

Lemma auto_position_index nrows ncols rowmajor r c :
  r < nrows → c < ncols →
  auto_position nrows ncols rowmajor (auto_index nrows ncols rowmajor r c) = (r, c).
Proof.
  intros Hr Hc. unfold auto_position, auto_index. destruct rowmajor; f_equal.
  - symmetry. apply (Nat.div_unique _ _ _ c); lia.
  - symmetry. apply (Nat.mod_unique _ _ r); lia.
  - symmetry. apply (Nat.mod_unique _ _ c); lia.
  - symmetry. apply (Nat.div_unique _ _ _ r); lia.
Qed.

Lemma auto_position_lt nrows ncols rowmajor k :
  k < nrows * ncols →
  (auto_position nrows ncols rowmajor k).1 < nrows ∧
  (auto_position nrows ncols rowmajor k).2 < ncols.
Proof.
  intros Hk. unfold auto_position. destruct rowmajor; cbn [fst snd]; split.
  - apply Nat.Div0.div_lt_upper_bound. lia.
  - apply Nat.mod_upper_bound. lia.
  - apply Nat.mod_upper_bound. lia.
  - apply Nat.Div0.div_lt_upper_bound. lia.
Qed.

Lemma auto_index_position nrows ncols rowmajor k :
  auto_index nrows ncols rowmajor (auto_position nrows ncols rowmajor k).1
             (auto_position nrows ncols rowmajor k).2 = k.
Proof.
  unfold auto_position, auto_index. destruct rowmajor; cbn [fst snd].
  - pose proof (Nat.div_mod_eq k ncols). lia.
  - pose proof (Nat.div_mod_eq k nrows). lia.
Qed.

Lemma auto_grid_extent_tables nrows ncols rowmajor row_offset col_offset yrange xrange :
  yrange_of row_offset (auto_grid nrows ncols rowmajor) = Ok yrange →
  xrange_of col_offset (auto_grid nrows ncols rowmajor) = Ok xrange →
  length yrange = nrows * ncols ∧ length xrange = nrows * ncols ∧
  ∀ k, k < nrows * ncols →
    yrange !! k
    = Some (row_offset + Z.of_nat (auto_position nrows ncols rowmajor k).1,
            row_offset + Z.of_nat (auto_position nrows ncols rowmajor k).1 + 1)%Z ∧
    xrange !! k
    = Some (col_offset + Z.of_nat (auto_position nrows ncols rowmajor k).2,
            col_offset + Z.of_nat (auto_position nrows ncols rowmajor k).2 + 1)%Z.
Proof.
  intros Hyr0 Hxr0.
  pose proof (proj2 (enforce_rule_Ok _ _) (auto_grid_values nrows ncols rowmajor)) as Hv.
  destruct (range_of_valid fst row_offset _ _ Hv) as (yr & Hyr & Hylen & Hy).
  destruct (range_of_valid snd col_offset _ _ Hv) as (xr & Hxr & Hxlen & Hx).
  fold (yrange_of row_offset (auto_grid nrows ncols rowmajor)) in Hyr.
  fold (xrange_of col_offset (auto_grid nrows ncols rowmajor)) in Hxr.
  rewrite Hyr0 in Hyr. rewrite Hxr0 in Hxr. injection Hyr as <-. injection Hxr as <-.
  split; [done|]. split; [done|]. intros k Hk.
  assert (∀ rc, rc ∈ where2 (auto_grid nrows ncols rowmajor) (Z.of_nat k + 1) →
            rc = auto_position nrows ncols rowmajor k) as Hpos.
  { intros [r c] Hrc%elem_of_where2. apply cell_at_auto_grid in Hrc as (? & ? & Hn).
    by apply auto_number_position. }
  destruct (Hy k Hk) as (rlo & rhi & -> & Hrlo & Hrhi & _).
  destruct (Hx k Hk) as (clo & chi & -> & Hclo & Hchi & _).
  apply list_elem_of_fmap in Hrlo as (p1 & -> & ->%Hpos).
  apply list_elem_of_fmap in Hrhi as (p2 & -> & ->%Hpos).
  apply list_elem_of_fmap in Hclo as (p3 & -> & ->%Hpos).
  apply list_elem_of_fmap in Hchi as (p4 & -> & ->%Hpos).
  split; do 2 f_equal; lia.
Qed.

Lemma group_loop_extreme_base ext keys pick order (le le' : Z → Z → Prop) :
  length keys = length ext →
  (∀ ks, ks ≠ [] → ∃ k, pick ks = Ok k ∧ k < length ks) →
  (∀ ks k, pick ks = Ok k →
     ∃ m, ks !! k = Some m ∧ ∀ j y, ks !! j = Some y → le y m ∧ (y = m → k ≤ j)) →
  (∀ ks, order ks ≡ₚ seq 0 (length ks)) →
  (∀ ks p q i j vi vj,
     p ≤ q → order ks !! p = Some i → order ks !! q = Some j →
     ks !! i = Some vi → ks !! j = Some vj → le' vi vj) →
  ∃ st,
    group_loop (length ext) ext keys pick order = Ok st ∧
    ∀ i b, share_base true st i = Some b →
      ∃ kb, keys !! b = Some kb ∧
            ∀ j kj, ext !! j = ext !! i → keys !! j = Some kj →
                    le kj kb ∧ (kj = kb → b ≤ j).
Proof.
  intros Hlen Hpick Hspec Hperm Hord.
  destruct (group_loop_groups ext keys pick order le le' Hlen Hpick Hspec Hperm Hord)
    as (st & Hst & Hrec & Hbase & _).
  exists st. split; [done|].
  intros i b (k & grp & Hgrp & Hi & Hb)%share_base_group.
  eapply Forall_lookup_1 in Hrec as (_ & _ & e & Hmem); [|exact Hgrp].
  destruct (Forall2_lookup_lr _ _ _ _ _ _ Hbase Hgrp Hb) as (_ & kb & Hkb & Hext).
  exists kb. split; [done|]. intros j kj Hj Hkj. apply Hext; [|done].
  apply Hmem. rewrite Hj. by apply Hmem.
Qed.

Lemma xgroups_sharing n xrange yrange xg :
  length xrange = n → length yrange = n →
  xgroups_of true n xrange yrange = Ok xg →
  (∀ i b, share_base true xg i = Some b →
          is_Some (xrange !! i) ∧ xrange !! i = xrange !! b) ∧
  (∀ i j e, i ≠ j → xrange !! i = Some e → xrange !! j = Some e →
            ∃ b, share_base true xg i = Some b ∧ share_base true xg j = Some b) ∧
  (∀ i b, share_base true xg i = Some b →
     ∃ ub, upper_row yrange b = Some ub ∧
           ∀ j uj, xrange !! j = xrange !! i → upper_row yrange j = Some uj →
                   (uj ≤ ub)%Z ∧ (uj = ub → b ≤ j)).
Proof.
  intros Hx Hy Hxg. subst n. unfold xgroups_of in Hxg.
  assert (length (snd <$> yrange) = length xrange) as Hlen by by rewrite length_fmap.
  assert (∀ ks, reverse (np_argsort ks) ≡ₚ seq 0 (length ks)) as Hperm.
  { intros ks. by rewrite reverse_Permutation, np_argsort_perm. }
  destruct (group_loop_sharing xrange (snd <$> yrange) np_argmax
              (λ ks, reverse (np_argsort ks)) Z.le (λ k1 k2, (k2 ≤ k1)%Z) Hlen
              np_argmax_total np_argmax_spec Hperm reverse_np_argsort_sorted)
    as (st & Hst & Hsound & Hcomplete).
  destruct (group_loop_extreme_base xrange (snd <$> yrange) np_argmax
              (λ ks, reverse (np_argsort ks)) Z.le (λ k1 k2, (k2 ≤ k1)%Z) Hlen
              np_argmax_total np_argmax_spec Hperm reverse_np_argsort_sorted)
    as (st' & Hst' & Hextreme).
  rewrite Hxg in Hst, Hst'. injection Hst as <-. injection Hst' as <-. done.
Qed.

Lemma ygroups_sharing n xrange yrange yg :
  length xrange = n → length yrange = n →
  ygroups_of true n xrange yrange = Ok yg →
  (∀ i b, share_base true yg i = Some b →
          is_Some (yrange !! i) ∧ yrange !! i = yrange !! b) ∧
  (∀ i j e, i ≠ j → yrange !! i = Some e → yrange !! j = Some e →
            ∃ b, share_base true yg i = Some b ∧ share_base true yg j = Some b) ∧
  (∀ i b, share_base true yg i = Some b →
     ∃ lb, lower_col xrange b = Some lb ∧
           ∀ j lj, yrange !! j = yrange !! i → lower_col xrange j = Some lj →
                   (lb ≤ lj)%Z ∧ (lj = lb → b ≤ j)).
Proof.
  intros Hx Hy Hyg. unfold ygroups_of in Hyg. rewrite <- Hy in Hyg.
  assert (length (fst <$> xrange) = length yrange) as Hlen
    by (rewrite length_fmap; lia).
  destruct (group_loop_sharing yrange (fst <$> xrange) np_argmin np_argsort
              (λ y m, (m ≤ y)%Z) Z.le Hlen
              np_argmin_total np_argmin_spec np_argsort_perm np_argsort_sorted)
    as (st & Hst & Hsound & Hcomplete).
  destruct (group_loop_extreme_base yrange (fst <$> xrange) np_argmin np_argsort
              (λ y m, (m ≤ y)%Z) Z.le Hlen
              np_argmin_total np_argmin_spec np_argsort_perm np_argsort_sorted)
    as (st' & Hst' & Hextreme).
  rewrite Hyg in Hst, Hst'. injection Hst as <-. injection Hst' as <-. done.
Qed.

Lemma group_loop_shared_not_alone ext keys pick order (le le' : Z → Z → Prop) :
  length keys = length ext →
  (∀ ks, ks ≠ [] → ∃ k, pick ks = Ok k ∧ k < length ks) →
  (∀ ks k, pick ks = Ok k →
     ∃ m, ks !! k = Some m ∧ ∀ j y, ks !! j = Some y → le y m ∧ (y = m → k ≤ j)) →
  (∀ ks, order ks ≡ₚ seq 0 (length ks)) →
  (∀ ks p q i j vi vj,
     p ≤ q → order ks !! p = Some i → order ks !! q = Some j →
     ks !! i = Some vi → ks !! j = Some vj → le' vi vj) →
  ∃ st,
    group_loop (length ext) ext keys pick order = Ok st ∧
    ∀ i b, share_base true st i = Some b →
      ∃ j, j ≠ i ∧ is_Some (ext !! j) ∧ ext !! j = ext !! i.
Proof.
  intros Hlen Hpick Hspec Hperm Hord.
  destruct (group_loop_groups ext keys pick order le le' Hlen Hpick Hspec Hperm Hord)
    as (st & Hst & Hrec & _).
  exists st. split; [done|].
  intros i b (k & grp & Hgrp & Hi & Hb)%share_base_group.
  eapply Forall_lookup_1 in Hrec as (Hlong & Hsorted & e & Hmem); [|exact Hgrp].
  apply Hmem in Hi.
  destruct grp as [|x [|y grp]]; [simpl in Hlong; lia..|].
  assert (x ≠ y) as Hxy.
  { inversion Hsorted as [|?? _ Hlt]; subst. inversion Hlt; subst. lia. }
  assert (ext !! x = Some e) as Hx by (apply Hmem, elem_of_cons; by left).
  assert (ext !! y = Some e) as Hy
    by (apply Hmem, elem_of_cons; right; apply elem_of_cons; by left).
  destruct (decide (x = i)) as [->|Hne].
  - exists y. rewrite Hy, Hi. eauto.
  - exists x. rewrite Hx, Hi. eauto.
Qed.

(** X21: in the generated grid with both axes shared, every panel shares the
    x axis of the panel in the bottom row of its column and the y axis of the
    panel in the first column of its row; with a single row no x axis is
    shared and with a single column no y axis. *)
Theorem generated_grid_sharing
    (nrows ncols : nat) (rowmajor : bool) (row_offset col_offset : Z)
    (yrange xrange : list (Z * Z)) (xg yg : grouping) (r c : nat) :
  yrange_of row_offset (auto_grid nrows ncols rowmajor) = Ok yrange →
  xrange_of col_offset (auto_grid nrows ncols rowmajor) = Ok xrange →
  xgroups_of true (nrows * ncols) xrange yrange = Ok xg →
  ygroups_of true (nrows * ncols) xrange yrange = Ok yg →
  r < nrows → c < ncols →
  share_base true xg (auto_index nrows ncols rowmajor r c)
  = (if decide (2 ≤ nrows) then Some (auto_index nrows ncols rowmajor (nrows - 1) c)
     else None) ∧
  share_base true yg (auto_index nrows ncols rowmajor r c)
  = (if decide (2 ≤ ncols) then Some (auto_index nrows ncols rowmajor r 0) else None).
Proof.
  intros Hyr Hxr Hxg Hyg Hr Hc.
  destruct (auto_grid_extent_tables _ _ _ _ _ _ _ Hyr Hxr) as (Hylen & Hxlen & Hext).
  set (idx := auto_index nrows ncols rowmajor).
  set (pos := auto_position nrows ncols rowmajor) in *.
  assert (∀ r' c', r' < nrows → c' < ncols →
            idx r' c' < nrows * ncols ∧
            yrange !! idx r' c'
            = Some (row_offset + Z.of_nat r', row_offset + Z.of_nat r' + 1)%Z ∧
            xrange !! idx r' c'
            = Some (col_offset + Z.of_nat c', col_offset + Z.of_nat c' + 1)%Z) as Hcell.
  { intros r' c' Hr' Hc'.
    assert (idx r' c' < nrows * ncols) as Hlt.
    { unfold idx, auto_index. destruct rowmajor; nia. }
    split; [done|]. destruct (Hext _ Hlt) as [Hy Hx].
    unfold pos, idx in *. by rewrite auto_position_index in Hy, Hx. }
  assert (∀ k e, (yrange !! k = Some e ∨ xrange !! k = Some e) →
            k < nrows * ncols ∧ (pos k).1 < nrows ∧ (pos k).2 < ncols ∧
            idx (pos k).1 (pos k).2 = k ∧
            yrange !! k
            = Some (row_offset + Z.of_nat (pos k).1,
                    row_offset + Z.of_nat (pos k).1 + 1)%Z ∧
            xrange !! k
            = Some (col_offset + Z.of_nat (pos k).2,
                    col_offset + Z.of_nat (pos k).2 + 1)%Z) as Hpanel.
  { intros k e Hk.
    assert (k < nrows * ncols) as Hlt.
    { destruct Hk as [Hk|Hk]; apply lookup_lt_Some in Hk; lia. }
    split; [done|]. destruct (auto_position_lt nrows ncols rowmajor k Hlt).
    split; [done|]. split; [done|]. split; [apply auto_index_position|].
    by apply Hext. }
  destruct (Hcell r c Hr Hc) as (Hi & Hyi & Hxi).
  split.
  - destruct (xgroups_sharing _ _ _ _ Hxlen Hylen Hxg) as (Hsound & Hcomplete & Hextreme).
    case_decide as Hrows.
    + set (r' := if decide (r = 0) then 1 else 0).
      assert (r' < nrows ∧ r' ≠ r) as [Hr' Hne] by (unfold r'; case_decide; lia).
      destruct (Hcell r' c Hr' Hc) as (Hj & _ & Hxj).
      assert (idx r c ≠ idx r' c) as Hneq.
      { intros Heq. apply (f_equal pos) in Heq. unfold pos, idx in Heq.
        rewrite !auto_position_index in Heq by done. congruence. }
      destruct (Hcomplete (idx r c) (idx r' c) _ Hneq Hxi Hxj) as (b & Hb & _).
      rewrite Hb. f_equal.
      destruct (Hsound _ _ Hb) as [_ Hsame]. rewrite Hxi in Hsame.
      destruct (Hpanel b _ (or_intror (eq_sym Hsame)))
        as (Hblt & Hbr & Hbc & Hbidx & Hyb & Hxb).
      rewrite Hxb in Hsame. injection Hsame as Hcol _.
      destruct (Hextreme _ _ Hb) as (ub & Hub & Hmax).
      unfold upper_row in Hub, Hmax. rewrite list_lookup_fmap, Hyb in Hub.
      injection Hub as <-.
      destruct (Hcell (nrows - 1) c ltac:(lia) Hc) as (_ & Hyl & Hxl).
      destruct (Hmax (idx (nrows - 1) c)
                  (row_offset + Z.of_nat (nrows - 1) + 1)%Z) as [Hle _].
      { by rewrite Hxl, Hxi. }
      { by rewrite list_lookup_fmap, Hyl. }
      rewrite <- Hbidx. f_equal; lia.
    + destruct (share_base true xg (idx r c)) as [b|] eqn:Hb; [|done]. exfalso.
      unfold xgroups_of in Hxg. rewrite <- Hxlen in Hxg.
      destruct (group_loop_shared_not_alone xrange (snd <$> yrange) np_argmax
                  (λ ks, reverse (np_argsort ks)) Z.le (λ k1 k2, (k2 ≤ k1)%Z))
        as (st & Hst & Halone).
      * rewrite length_fmap. lia.
      * apply np_argmax_total.
      * apply np_argmax_spec.
      * intros ks. by rewrite reverse_Permutation, np_argsort_perm.
      * apply reverse_np_argsort_sorted.
      * rewrite Hxg in Hst. injection Hst as <-.
        destruct (Halone _ _ Hb) as (j & Hne & [e He] & Hsame).
        destruct (Hpanel j e (or_intror He)) as (_ & Hjr & Hjc & Hjidx & _ & Hxj).
        rewrite Hxj, Hxi in Hsame. injection Hsame as Hcol _.
        apply Hne. rewrite <- Hjidx. f_equal; lia.
  - destruct (ygroups_sharing _ _ _ _ Hxlen Hylen Hyg) as (Hsound & Hcomplete & Hextreme).
    case_decide as Hcols.
    + set (c' := if decide (c = 0) then 1 else 0).
      assert (c' < ncols ∧ c' ≠ c) as [Hc' Hne] by (unfold c'; case_decide; lia).
      destruct (Hcell r c' Hr Hc') as (Hj & Hyj & _).
      assert (idx r c ≠ idx r c') as Hneq.
      { intros Heq. apply (f_equal pos) in Heq. unfold pos, idx in Heq.
        rewrite !auto_position_index in Heq by done. congruence. }
      destruct (Hcomplete (idx r c) (idx r c') _ Hneq Hyi Hyj) as (b & Hb & _).
      rewrite Hb. f_equal.
      destruct (Hsound _ _ Hb) as [_ Hsame]. rewrite Hyi in Hsame.
      destruct (Hpanel b _ (or_introl (eq_sym Hsame)))
        as (Hblt & Hbr & Hbc & Hbidx & Hyb & Hxb).
      rewrite Hyb in Hsame. injection Hsame as Hrow _.
      destruct (Hextreme _ _ Hb) as (lb & Hlb & Hmin).
      unfold lower_col in Hlb, Hmin. rewrite list_lookup_fmap, Hxb in Hlb.
      injection Hlb as <-.
      destruct (Hcell r 0 Hr ltac:(lia)) as (_ & Hyl & Hxl).
      destruct (Hmin (idx r 0) (col_offset + Z.of_nat 0)%Z) as [Hle _].
      { by rewrite Hyl, Hyi. }
      { by rewrite list_lookup_fmap, Hxl. }
      rewrite <- Hbidx. f_equal; lia.
    + destruct (share_base true yg (idx r c)) as [b|] eqn:Hb; [|done]. exfalso.
      unfold ygroups_of in Hyg. rewrite <- Hylen in Hyg.
      destruct (group_loop_shared_not_alone yrange (fst <$> xrange) np_argmin np_argsort
                  (λ y m, (m ≤ y)%Z) Z.le) as (st & Hst & Halone).
      * rewrite length_fmap. lia.
      * apply np_argmin_total.
      * apply np_argmin_spec.
      * apply np_argsort_perm.
      * apply np_argsort_sorted.
      * rewrite Hyg in Hst. injection Hst as <-.
        destruct (Halone _ _ Hb) as (j & Hne & [e He] & Hsame).
        destruct (Hpanel j e (or_introl He)) as (_ & Hjr & Hjc & Hjidx & Hyj & _).
        rewrite Hyj, Hyi in Hsame. injection Hsame as Hrow _.
        apply Hne. rewrite <- Hjidx. f_equal; lia.
Qed.

Lemma generated_grid_sharing_witness :
  share_base true (Grouping [[0; 2]; [1; 3]] [2; 3] [[2; 0]; [3; 1]] [0; 2; 1; 3; 0; 2; 1; 3])
             (auto_index 2 2 true 0 1) = Some 3 ∧
  share_base true (Grouping [[0; 1]; [2; 3]] [0; 2] [[0; 1]; [2; 3]] [0; 1; 0; 1; 2; 3; 2; 3])
             (auto_index 2 2 true 0 1) = Some 0.
Proof.
  apply (generated_grid_sharing 2 2 true 0 0
           [(0, 1); (0, 1); (1, 2); (1, 2)]%Z [(0, 1); (1, 2); (0, 1); (1, 2)]%Z);
    try (by vm_compute); lia.
Defined.

(** ** Strips of labels in ascending order *)

Lemma filter_iff_elem {A : Type} (P Q : A → Prop)
    `{!∀ x, Decision (P x), !∀ x, Decision (Q x)} (l : list A) :
  (∀ x, x ∈ l → (P x ↔ Q x)) → filter P l = filter Q l.
Proof.
  induction l as [|x l IH]; intros Hiff; [done|].
  assert (P x ↔ Q x) as Hx by (apply Hiff, elem_of_cons; by left).
  assert (filter P l = filter Q l) as Hl
    by (apply IH; intros y Hy; apply Hiff, elem_of_cons; by right).
  rewrite !filter_cons, Hl. destruct (decide (P x)), (decide (Q x)); tauto.
Qed.

Lemma filter_all {A : Type} (P : A → Prop) `{!∀ x, Decision (P x)} (l : list A) :
  Forall P l → filter P l = l.
Proof.
  induction 1 as [|x l Hx _ IH]; [done|]. by rewrite filter_cons_True, IH.
Qed.

Lemma filter_none {A : Type} (P : A → Prop) `{!∀ x, Decision (P x)} (l : list A) :
  Forall (λ x, ¬ P x) l → filter P l = [].
Proof.
  induction 1 as [|x l Hx _ IH]; [done|]. by rewrite filter_cons_False.
Qed.

Section sorted_prefix.
Variable P : Z → Prop.
Context `{!∀ x, Decision (P x)}.
Hypothesis P_down : ∀ x y : Z, (x ≤ y)%Z → P y → P x.

Lemma sorted_filter_split (l : list Z) :
  StronglySorted Z.le l → l = filter P l ++ filter (λ v, ¬ P v) l.
Proof.
  induction 1 as [|x l _ IH Hall]; [done|].
  rewrite !filter_cons. destruct (decide (P x)) as [Hx|Hx].
  - rewrite decide_False by tauto. simpl. by f_equal.
  - rewrite decide_True by done.
    assert (Forall (λ v, ¬ P v) l) as Hnone.
    { eapply Forall_impl; [exact Hall|]. intros y Hy HP. eauto. }
    by rewrite (filter_none P l Hnone), (filter_all (λ v, ¬ P v) l Hnone).
Qed.

Lemma sorted_lookup_prefix (l : list Z) j v :
  StronglySorted Z.le l → l !! j = Some v → (P v ↔ j < length (filter P l)).
Proof.
  intros Hsorted Hj. rewrite (sorted_filter_split l Hsorted) in Hj.
  destruct (decide (j < length (filter P l))) as [Hlt|Hge].
  - rewrite lookup_app_l in Hj by done.
    apply list_elem_of_lookup_2, list_elem_of_filter in Hj as [? _]. tauto.
  - rewrite lookup_app_r in Hj by lia.
    apply list_elem_of_lookup_2, list_elem_of_filter in Hj as [? _]. tauto.
Qed.
End sorted_prefix.

Lemma sorted_label_positions (panels : list Z) (n : Z) j :
  StronglySorted Z.le panels →
  panels !! j = Some n ↔
  length (filter (λ v, v < n)%Z panels) ≤ j < length (filter (λ v, v ≤ n)%Z panels).
Proof.
  intros Hsorted. split.
  - intros Hj.
    pose proof (sorted_lookup_prefix (λ v, v < n)%Z ltac:(simpl; intros; lia) panels j n
                  Hsorted Hj) as Hlt.
    pose proof (sorted_lookup_prefix (λ v, v ≤ n)%Z ltac:(simpl; intros; lia) panels j n
                  Hsorted Hj) as Hle.
    split; [|apply Hle; lia].
    destruct (decide (j < length (filter (λ v, v < n)%Z panels))) as [H|H]; [|lia].
    apply Hlt in H. lia.
  - intros [Hlo Hhi].
    destruct (lookup_lt_is_Some_2 panels j) as [v Hv].
    { pose proof (length_filter (λ v, v ≤ n)%Z panels). lia. }
    pose proof (sorted_lookup_prefix (λ v, v < n)%Z ltac:(simpl; intros; lia) panels j v
                  Hsorted Hv) as Hlt.
    pose proof (sorted_lookup_prefix (λ v, v ≤ n)%Z ltac:(simpl; intros; lia) panels j v
                  Hsorted Hv) as Hle.
    rewrite Hv. f_equal.
    assert (v ≤ n)%Z by (apply Hle; lia).
    assert (¬ (v < n)%Z) by (intros H'%Hlt; lia). lia.
Qed.

Lemma sorted_strip_span offset (panels : list Z) n span :
  StronglySorted Z.le panels →
  is_strip_span offset panels n span →
  span = (offset + Z.of_nat (length (filter (λ v, v < n)%Z panels)),
          offset + Z.of_nat (length (filter (λ v, v ≤ n)%Z panels)))%Z ∧
  length (filter (λ v, v < n)%Z panels) < length (filter (λ v, v ≤ n)%Z panels).
Proof.
  intros Hsorted (lo & hi & -> & Hlo & Hhi & Hhull).
  pose proof (proj1 (sorted_label_positions panels n lo Hsorted) Hlo) as Hlo'.
  pose proof (proj1 (sorted_label_positions panels n hi Hsorted) Hhi) as Hhi'.
  set (a := length (filter (λ v, v < n)%Z panels)) in *.
  set (b := length (filter (λ v, v ≤ n)%Z panels)) in *.
  assert (panels !! a = Some n) as Ha
    by (apply sorted_label_positions; [done|fold a b; lia]).
  assert (panels !! (b - 1) = Some n) as Hb
    by (apply sorted_label_positions; [done|fold a b; lia]).
  apply Hhull in Ha. apply Hhull in Hb. split; [f_equal; lia|lia].
Qed.

Lemma sorted_strips_tile offset (panels labels : list Z) (spans : list (Z * Z)) :
  StronglySorted Z.le panels →
  StronglySorted Z.lt labels →
  (∀ v, v ∈ panels → v ∈ labels ∨ Forall (λ n, v < n)%Z labels) →
  Forall2 (is_strip_span offset panels) labels spans →
  tiles (offset + Z.of_nat (length (filter (λ v, Forall (λ n, v < n)%Z labels) panels)))
        (offset + Z.of_nat (length panels)) spans.
Proof.
  intros Hsorted Hlabels Hcover Hspans. revert Hlabels Hcover.
  induction Hspans as [|n span labels spans Hspan _ IH]; intros Hlabels Hcover.
  - cbn [tiles]. do 2 f_equal.
    f_equal. apply filter_all, Forall_forall. intros; constructor.
  - destruct (sorted_strip_span offset panels n span Hsorted Hspan) as [-> Hlt].
    inversion Hlabels as [|?? Hlabels' Hn]; subst.
    cbn [tiles fst snd]. split; [|split; [lia|]].
    + do 2 f_equal. apply (f_equal length), filter_iff_elem. intros v _.
      rewrite Forall_cons. split; [|tauto]. intros Hv. split; [done|].
      eapply Forall_impl; [exact Hn|]. simpl. lia.
    + assert (filter (λ v, v ≤ n)%Z panels
              = filter (λ v, Forall (λ n', v < n')%Z labels) panels) as ->.
      { apply filter_iff_elem. intros v Hv. split.
        - intros Hle. eapply Forall_impl; [exact Hn|]. simpl. lia.
        - intros Hall. destruct (Hcover v Hv) as [Hin|Hlow].
          + apply elem_of_cons in Hin as [->|Hin]; [lia|].
            rewrite Forall_forall in Hall. specialize (Hall v Hin). lia.
          + apply Forall_cons in Hlow as [? _]. lia. }
      apply IH; [done|]. intros v Hv. destruct (Hcover v Hv) as [Hin|Hlow].
      * apply elem_of_cons in Hin as [->|Hin]; [by right|by left].
      * right. by apply Forall_cons in Hlow as [_ ?].
Qed.

(** X22: when the labels of a panel array never decrease from one position
    to the next, the strips that are requested tile the edge: the first
    starts at the offset, each next one starts where the previous one ends,
    the last ends at the offset plus the length of the array, and none is
    empty. *)
Theorem sorted_labels_tile_the_edge
    (row_offset col_offset : Z) (name : panel_name) (panels : list Z) (log : list call) :
  panels ≠ [] → StronglySorted Z.le panels →
  ∃ spans,
    paneladd row_offset col_offset name panels log
    = (Ok (), log ++ (AddPanel (side_of name) <$> spans)
                  ++ [SetPanels name (seq (length log) (length spans))]) ∧
    tiles (strip_offset (side_of name) row_offset col_offset)
          (strip_offset (side_of name) row_offset col_offset + Z.of_nat (length panels))
          spans.
Proof.
  intros Hne Hsorted.
  destruct (paneladd_loop (side_of name)
              (strip_offset (side_of name) row_offset col_offset)
              panels (np_unique panels) [] log) as (spans & Hloop & Hall).
  { intros n. by rewrite elem_of_np_unique. }
  exists spans. split.
  - destruct panels as [|p panels]; [done|].
    unfold paneladd. unfold mbind at 1. unfold M_bind at 1.
    rewrite Hloop. unfold mbind, M_bind, emit, mret, M_ret. simpl.
    by rewrite <- app_assoc.
  - pose proof (sorted_strips_tile _ panels (np_unique panels) spans Hsorted
                  (np_unique_sorted panels)
                  (λ v Hv, or_introl (proj2 (elem_of_np_unique _ _) Hv)) Hall)
      as Htiles.
    assert (filter (λ v, Forall (λ n, v < n)%Z (np_unique panels)) panels = []) as Hnil.
    { apply filter_none, Forall_forall. intros v Hv Hall'.
      rewrite Forall_forall in Hall'.
      specialize (Hall' v (proj2 (elem_of_np_unique _ _) Hv)). lia. }
    rewrite Hnil in Htiles. cbn [length] in Htiles.
    by rewrite Z.add_0_r in Htiles.
Qed.

Lemma sorted_labels_tile_the_edge_witness :
  ∃ spans,
    paneladd 0 2 bottompanel [1; 1; 2; 4]%Z [NewFigure]
    = (Ok (), [NewFigure] ++ (AddPanel bottom_side <$> spans)
                ++ [SetPanels bottompanel (seq 1 (length spans))]) ∧
    tiles 2 (2 + 4) spans.
Proof.
  apply (sorted_labels_tile_the_edge 0 2 bottompanel [1; 1; 2; 4]%Z [NewFigure]);
    [done|].
  repeat (constructor; [by repeat constructor|]). constructor.
Defined.

(** X23: when a label occurs on both sides of a position that bears another
    label, the strips of the two labels overlap: both hold that position.
    The allocator requests them all the same. *)
Theorem interleaved_labels_overlap
    (row_offset col_offset : Z) (name : panel_name) (panels : list Z) (log : list call)
    (i j k : nat) (n m : Z) :
  i < j < k →
  panels !! i = Some n → panels !! k = Some n → panels !! j = Some m → n ≠ m →
  ∃ spans p q sn sm,
    paneladd row_offset col_offset name panels log
    = (Ok (), log ++ (AddPanel (side_of name) <$> spans)
                  ++ [SetPanels name (seq (length log) (length spans))]) ∧
    p ≠ q ∧ spans !! p = Some sn ∧ spans !! q = Some sm ∧
    (sn.1 ≤ strip_offset (side_of name) row_offset col_offset + Z.of_nat j < sn.2)%Z ∧
    (sm.1 ≤ strip_offset (side_of name) row_offset col_offset + Z.of_nat j < sm.2)%Z.
Proof.
  intros Hijk Hi Hk Hj Hnm.
  destruct (paneladd_loop (side_of name)
              (strip_offset (side_of name) row_offset col_offset)
              panels (np_unique panels) [] log) as (spans & Hloop & Hall).
  { intros v. by rewrite elem_of_np_unique. }
  assert (n ∈ np_unique panels) as [p Hp]%list_elem_of_lookup
    by (apply elem_of_np_unique; by eapply list_elem_of_lookup_2).
  assert (m ∈ np_unique panels) as [q Hq]%list_elem_of_lookup
    by (apply elem_of_np_unique; by eapply list_elem_of_lookup_2).
  destruct (Forall2_lookup_l _ _ _ _ _ Hall Hp) as (sn & Hsn & lo & hi & -> & _ & _ & Hn).
  destruct (Forall2_lookup_l _ _ _ _ _ Hall Hq) as (sm & Hsm & lo' & hi' & -> & _ & _ & Hm).
  eexists spans, p, q, _, _. split; [|split; [|split; [exact Hsn|split; [exact Hsm|]]]].
  - destruct panels as [|v panels]; [done|].
    unfold paneladd. unfold mbind at 1. unfold M_bind at 1.
    rewrite Hloop. unfold mbind, M_bind, emit, mret, M_ret. simpl.
    by rewrite <- app_assoc.
  - intros ->. congruence.
  - apply Hn in Hi, Hk. apply Hm in Hj. cbn [fst snd]. lia.
Qed.

Lemma interleaved_labels_overlap_witness :
  ∃ spans p q sn sm,
    paneladd 0 0 rightpanel [1; 2; 1]%Z []
    = (Ok (), [] ++ (AddPanel right_side <$> spans)
                ++ [SetPanels rightpanel (seq 0 (length spans))]) ∧
    p ≠ q ∧ spans !! p = Some sn ∧ spans !! q = Some sm ∧
    (sn.1 ≤ 0 + Z.of_nat 1 < sn.2)%Z ∧ (sm.1 ≤ 0 + Z.of_nat 1 < sm.2)%Z.
Proof.
  apply (interleaved_labels_overlap 0 0 rightpanel [1; 2; 1]%Z [] 0 1 2 1 2);
    [lia|done..].
Defined.

(** ** One-dimensional arrays *)

Lemma where2_single_column (l : list Z) (i : Z) (k : nat) :
  concat (imap (λ r (row : list Z), (λ c, (k + r, c)) <$> np_where (λ v, v = i) row)
               ((λ c, [c]) <$> l))
  = (λ r, (r, 0)) <$> where_from (λ v, v = i) k l.
Proof.
  revert k. induction l as [|v l IH]; intros k; [done|].
  rewrite fmap_cons, imap_cons. cbn [concat where_from].
  rewrite (imap_ext _ (λ r (row : list Z),
                         (λ c, (S k + r, c)) <$> np_where (λ v, v = i) row))
    by (intros r row _; simpl; apply list_fmap_ext; intros _ c _; f_equal; lia).
  rewrite IH. unfold np_where. cbn [where_from].
  destruct (decide (v = i)); [|done].
  simpl. by rewrite Nat.add_0_r.
Qed.

Lemma map_res_ext {A B : Type} (f g : A → res B) (l : list A) :
  (∀ x, f x = g x) → map_res f l = map_res g l.
Proof. intros Hfg. induction l as [|x l IH]; [done|]. simpl. by rewrite Hfg, IH. Qed.

Lemma map_res_fmap {A B C : Type} (f : B → res C) (g : A → B) (l : list A) :
  map_res f (g <$> l) = map_res (λ x, f (g x)) l.
Proof. induction l as [|x l IH]; [done|]. rewrite fmap_cons. simpl. by rewrite IH. Qed.

(** X24: a one-dimensional array is laid out along a row in row-major order
    and along a column otherwise, and the two layouts mirror each other: the
    column extents of the panels in the first are their row extents in the
    second and conversely, and the rule on the axes numbers gives the same
    verdict on both. *)
Theorem one_dimensional_array_orientation
    (l : list (option Z)) (nrows ncols : nat) (offset : Z) :
  xrange_of offset (none_to_zero (as_2d (Array1 l) nrows ncols true))
  = yrange_of offset (none_to_zero (as_2d (Array1 l) nrows ncols false)) ∧
  yrange_of offset (none_to_zero (as_2d (Array1 l) nrows ncols true))
  = xrange_of offset (none_to_zero (as_2d (Array1 l) nrows ncols false)) ∧
  enforce_rule (none_to_zero (as_2d (Array1 l) nrows ncols true))
  = enforce_rule (none_to_zero (as_2d (Array1 l) nrows ncols false)) ∧
  shape0 (none_to_zero (as_2d (Array1 l) nrows ncols true)) = 1 ∧
  shape0 (none_to_zero (as_2d (Array1 l) nrows ncols false)) = length l.
Proof.
  cbn [as_2d]. unfold none_to_zero. rewrite <- list_fmap_compose.
  rewrite (list_fmap_ext _ ((λ c : Z, [c]) ∘ default 0%Z) l) by done.
  rewrite list_fmap_compose, list_fmap_singleton.
  set (l' := default 0%Z <$> l).
  assert (concat [l'] = concat ((λ c, [c]) <$> l')) as Hconcat.
  { cbn [concat]. rewrite app_nil_r. induction l' as [|v l'' IH]; [done|].
    rewrite fmap_cons. cbn [concat]. simpl. by f_equal. }
  assert (∀ i, where2 [l'] i = (λ c, (0, c)) <$> np_where (λ v, v = i) l') as Hrow.
  { intros i. unfold where2. rewrite imap_cons. cbn [imap concat]. apply app_nil_r. }
  assert (∀ i, where2 ((λ c, [c]) <$> l') i = (λ r, (r, 0)) <$> np_where (λ v, v = i) l')
    as Hcol.
  { intros i. unfold where2. apply (where2_single_column l' i 0). }
  unfold xrange_of, yrange_of, axes_ids, enforce_rule, nonzero, shape0.
  rewrite <- Hconcat, !map_res_fmap.
  split; [|split; [|split; [done|split; [done|unfold l'; by rewrite !length_fmap]]]].
  - apply map_res_ext. intros i. rewrite Hrow, Hcol, <- !list_fmap_compose.
    f_equal.
  - apply map_res_ext. intros i. rewrite Hrow, Hcol, <- !list_fmap_compose.
    f_equal.
Qed.
